(** * girgs: the SAT-girg edge pipeline and the hyperbolic radius layer

    A shallow embedding of

    - [satgirgs/source/Generator.cpp]: [generateWeights],
      [generatePositions], [convertToNodes], [deduplicateEdges],
      [generateEdges] (with its [addEdge] and [flush] closures), and
    - [hypergirgs/source/RadiusLayer.cpp]: the constructor of
      [RadiusLayer], [pointsInCell], [kthPoint] and [firstPointPointer],

    followed by the properties of these functions.

    Conventions.  C++ [int] and [unsigned int] values are integers of [Z];
    unsigned arithmetic is reduced modulo [2^32] with [u32] where the code
    computes it, and a conversion to [int] is [to_int].  A [std::vector] is a
    list; [v[i]] is the fallible read [vec_at].  A computation returns an
    [outcome]: a value, a failed [assert], undefined behaviour (a read or a
    write outside a vector, a dereferenced [end()] iterator), or a C++
    exception. *)

From Stdlib Require Import ZArith Lia.

From stdpp Require Import base tactics option list sorting numbers relations strings.

#[local] Open Scope Z_scope.

(** ** Outcomes of a C++ computation *)

Inductive outcome (A : Type) : Type :=
| Ok (a : A)
| AssertFail
| Undefined
| Thrown (what : string).

Arguments Ok {A} a.
Arguments AssertFail {A}.
Arguments Undefined {A}.
Arguments Thrown {A} what.

#[export] Instance outcome_ret : MRet outcome := @Ok.

#[export] Instance outcome_bind : MBind outcome := λ A B f m,
  match m with
  | Ok a => f a
  | AssertFail => AssertFail
  | Undefined => Undefined
  | Thrown w => Thrown w
  end.

(** [assert(b)] of <cassert>. *)
Definition cassert (b : bool) : outcome unit :=
  if b then Ok () else AssertFail.

(** ** Machine integers *)

Definition u32 (x : Z) : Z := x mod 2 ^ 32.

(** Conversion of an [unsigned int] to [int] (two's complement). *)
Definition to_int (x : Z) : Z :=
  let y := u32 x in if y <? 2 ^ 31 then y else y - 2 ^ 32.

(** [a + b] on [int]s; an overflow is undefined behaviour. *)
Definition int_add (a b : Z) : outcome Z :=
  if (- 2 ^ 31 <=? a + b) && (a + b <? 2 ^ 31) then Ok (a + b) else Undefined.

(** ** Vectors *)

(** [v[i]] for reading; the index is converted to [size_t], so that a
    negative [int] is far outside every vector. *)
Definition vec_at {A} (v : list A) (i : Z) : outcome A :=
  if i <? 0 then Undefined
  else match v !! Z.to_nat i with
       | Some x => Ok x
       | None => Undefined
       end.

(** [v[i] = x]. *)
Definition vec_set {A} (v : list A) (i : Z) (x : A) : outcome (list A) :=
  if (0 <=? i) && (i <? Z.of_nat (length v))
  then Ok (<[Z.to_nat i := x]> v)
  else Undefined.

(** [v.back()]. *)
Definition vec_back {A} (v : list A) : outcome A :=
  vec_at v (Z.of_nat (length v) - 1).

(** ** EdgeDeduplicator: [deduplicateEdges] *)

Definition edge : Type := Z * Z.
Definition wedge : Type := Z * Z * Z.

(** [operator<] of [std::pair<int,int>]. *)
Definition pair_ltb (a b : edge) : bool :=
  (a.1 <? b.1) || (negb (b.1 <? a.1) && (a.2 <? b.2)).

(** The order [std::sort] leaves between neighbours: the later one is not
    smaller. *)
Definition pair_le (a b : edge) : Prop := pair_ltb b a = false.

#[export] Instance pair_le_dec a b : Decision (pair_le a b).
Proof. unfold pair_le. apply _. Defined.

(** Ascending lexicographic order, by [u] and then by [v]. *)
Definition lex_le (a b : edge) : Prop := a.1 < b.1 ∨ (a.1 = b.1 ∧ a.2 ≤ b.2).

(** [std::sort(edges.begin(), edges.end())].  The algorithm of the library is
    not fixed, its result is: [operator<] is a strict total order on pairs,
    so there is one ascending arrangement of the elements
    ([std_sort_unique] below), and any sorting function computes it. *)
Definition std_sort (edges : list edge) : list edge := merge_sort pair_le edges.

(** The range-for loop of [deduplicateEdges], from the state
    ([last], [run_length], [new_edges]).  The [int] [run_length] counts
    elements of the vector ([deduplicateEdges_multiplicities] below). *)
Fixpoint collect_runs (edges : list edge) (last : edge) (run_length : Z)
    (new_edges : list wedge) : list wedge :=
  match edges with
  | [] => new_edges
  | edge :: rest =>
      if bool_decide (edge = last)
      then collect_runs rest edge (run_length + 1) new_edges
      else collect_runs rest edge 1 (new_edges ++ [(last.1, last.2, run_length)])
  end.

(** [deduplicateEdges(edges)]: the returned vector, and the caller's vector
    after the call ([edges] is taken by reference and sorted in place). *)
Definition deduplicateEdges (edges : list edge) : outcome (list wedge * list edge) :=
  let edges := std_sort edges in
  last ← vec_at edges 0;
  Ok (collect_runs edges last 0 [], edges).

(** The state ([last], [run_length]) in which the loop ends: the run that
    was being counted when the input ran out. *)
Fixpoint pending_run (edges : list edge) (last : edge) (run_length : Z) : edge * Z :=
  match edges with
  | [] => (last, run_length)
  | edge :: rest =>
      if bool_decide (edge = last)
      then pending_run rest edge (run_length + 1)
      else pending_run rest edge 1
  end.

(** *** The deduplication of the specification *)

(** Canonical form of a pair: [(min, max)]. *)
Definition canonical (e : edge) : edge := (Z.min e.1 e.2, Z.max e.1 e.2).

(** Maximal runs of equal neighbours, each with its length. *)
Fixpoint runs (l : list edge) : list (edge * Z) :=
  match l with
  | [] => []
  | x :: l' =>
      match runs l' with
      | (y, k) :: r => if bool_decide (x = y) then (y, k + 1) :: r else (x, 1) :: (y, k) :: r
      | [] => [(x, 1)]
      end
  end.

Definition triple (r : edge * Z) : wedge := (r.1.1, r.1.2, r.2).

(** Canonicalize, sort, collapse runs. *)
Definition dedup_spec (raw : list edge) : list wedge :=
  triple <$> runs (std_sort (canonical <$> raw)).

(** [mult] copies of [(u, v)] for every triple [(u, v, mult)]. *)
Definition expand (ws : list wedge) : list edge :=
  ws ≫= λ w, replicate (Z.to_nat w.2) (w.1.1, w.1.2).

(** What the specification asks of the empty input: an empty result or a
    labelled failure (a failed [assert], an exception), and no read of the
    front element of the empty vector. *)
Definition checked_empty_outcome (r : outcome (list wedge * list edge)) : Prop :=
  match r with
  | Ok (new_edges, _) => new_edges = []
  | AssertFail | Thrown _ => True
  | Undefined => False
  end.

(** ** EdgeSampler: [generateEdges] *)

(** [Node2D] is declared in <satgirgs/Node.h>, which is not among the
    sources.  [generateEdges] uses its member [index], its
    [weightedDistance], a [double] that is only ever compared with [<], and
    its [operator==]; they are the fields of this interface. *)
Class NodeModel (Node Dist : Type) := {
  index : Node → Z;
  weightedDistance : Node → Node → Dist;
  node_eqb : Node → Node → bool;
  dist_ltb : Dist → Dist → bool;
}.

(** [std::min_element(first, last, comp)]: the loop of the library, which
    keeps the position of the smallest element seen and replaces it when
    [comp] holds of the current element and the smallest one.  An iterator
    is a position with the element there; [None] is [last], returned for
    an empty range. *)
Fixpoint min_element_loop {A} (comp : A → A → bool) (result : nat * A) (first : nat)
    (l : list A) : nat * A :=
  match l with
  | [] => result
  | x :: l' =>
      min_element_loop comp (if comp x result.2 then (first, x) else result) (S first) l'
  end.

Definition min_element {A} (comp : A → A → bool) (l : list A) : option (nat * A) :=
  match l with
  | [] => None
  | x :: l' => Some (min_element_loop comp (O, x) 1%nat l')
  end.

(** [*it] and [it->]. *)
Definition deref {A} (it : option (nat * A)) : outcome A :=
  match it with
  | Some (_, x) => Ok x
  | None => Undefined
  end.

(** The iterator [r] points into [pre], at the first minimum by [lt] among
    the elements of [pre] that satisfy [P] if there are any, and at an
    element that does not satisfy [P] otherwise. *)
Definition best_so_far {A} (P : A → bool) (lt : A → A → bool) (pre : list A)
    (r : nat * A) : Prop :=
  pre !! r.1 = Some r.2 ∧
  (P r.2 = false → ∀ y, y ∈ pre → P y = false) ∧
  (P r.2 = true →
     (∀ q y, pre !! q = Some y → P y = true → lt y r.2 = false) ∧
     (∀ q y, pre !! q = Some y → P y = true → (q < r.1)%nat → lt r.2 y = true)).

Section EdgeSampler.
Context {Node Dist : Type} `{!NodeModel Node Dist}.

(** The comparison of the first [min_element] call. *)
Definition nearer (cp a b : Node) : bool :=
  dist_ltb (weightedDistance a cp) (weightedDistance b cp).

(** The comparison of the second call, which ignores the first minimum. *)
Definition nearer_ignoring (cp nearest a b : Node) : bool :=
  if node_eqb a nearest then false
  else if node_eqb b nearest then true
  else dist_ltb (weightedDistance a cp) (weightedDistance b cp).

(** One iteration of the loop over the clauses: the arguments [(u, v)] of
    its calls of [addEdge], in order.  [nc_nodes.size() + clauseIndex] is
    converted to the [int] parameter [v]. *)
Definition clause_calls (nc_nodes : list Node) (debugMode : bool)
    (clauseIndex : Z) (cp : Node) : outcome (list (Z * Z)) :=
  nearest ← deref (min_element (nearer cp) nc_nodes);
  secondNearest ← deref (min_element (nearer_ignoring cp nearest) nc_nodes);
  if debugMode
  then Ok [(index nearest, to_int (Z.of_nat (length nc_nodes) + clauseIndex));
           (index secondNearest, to_int (Z.of_nat (length nc_nodes) + clauseIndex))]
  else Ok [(index nearest, index secondNearest)].

(** The calls of [addEdge] a thread makes for its share [chunk] of the
    clause indices. *)
Fixpoint chunk_calls (c_nodes nc_nodes : list Node) (debugMode : bool)
    (chunk : list nat) : outcome (list (Z * Z)) :=
  match chunk with
  | [] => Ok []
  | clauseIndex :: rest =>
      cp ← vec_at c_nodes (Z.of_nat clauseIndex);
      calls ← clause_calls nc_nodes debugMode (Z.of_nat clauseIndex) cp;
      more ← chunk_calls c_nodes nc_nodes debugMode rest;
      Ok (calls ++ more)
  end.

End EdgeSampler.

Definition block_size : Z := 2 ^ 20.

(** [addEdge(u, v, tid)] on the shared [result] and the buffer [local] of
    thread [tid]; the [flush] of a full buffer happens under the mutex, so
    the whole call is one step on the shared state. *)
Definition addEdge (u v : Z) (st : list edge * list edge) : list edge * list edge :=
  let '(result, local) := st in
  let '(u, v) := if v <? u then (v, u) else (u, v) in
  let local := local ++ [(u, v)] in
  if Z.of_nat (length local) =? block_size then (result ++ local, []) else (result, local).

(** A thread of the parallel loop: its buffer [local_edges[tid].first] and
    the calls of [addEdge] it has yet to make. *)
Record worker := Worker {
  local : list edge;
  todo : list (Z * Z);
}.

Record par_state := ParState {
  result : list edge;
  workers : list worker;
}.

(** Thread [tid] makes its next call of [addEdge]. *)
Definition worker_step (tid : nat) (st : par_state) : option par_state :=
  w ← workers st !! tid;
  match todo w with
  | [] => None
  | (u, v) :: rest =>
      let '(result', local') := addEdge u v (result st, local w) in
      Some (ParState result' (<[tid := Worker local' rest]> (workers st)))
  end.

(** The threads interleave in any order. *)
Definition par_step (st st' : par_state) : Prop :=
  ∃ tid, worker_step tid st = Some st'.

(** The loop after the parallel region: [flush(v.first)] for every buffer. *)
Definition final_flush (st : par_state) : list edge :=
  result st ++ concat (local <$> workers st).

(** A schedule given as the list of the thread that moves next; a thread
    that has nothing left to do is skipped. *)
Fixpoint run_schedule (sched : list nat) (st : par_state) : par_state :=
  match sched with
  | [] => st
  | tid :: sched' =>
      match worker_step tid st with
      | Some st' => run_schedule sched' st'
      | None => run_schedule sched' st
      end
  end.

(** Every edge of a state: those flushed, those buffered, and those the
    calls still to be made will store. *)
Definition all_edges (st : par_state) : list edge :=
  result st ++ concat (local <$> workers st)
    ++ concat ((λ w, canonical <$> todo w) <$> workers st).

Section GenerateEdges.
Context {Node Dist : Type} `{!NodeModel Node Dist}.

(** [generateEdges(c_nodes, nc_nodes, debugMode)] with [num_threads]
    threads ([omp_get_max_threads()]).  [schedule(static)] hands every
    thread one block of consecutive clause indices, [chunks]; OpenMP leaves
    the sizes to the implementation, so every split is admitted.  The
    searches only read, which is why the calls of a thread can be listed
    before it runs; the run is undefined when a search dereferences [end()]. *)
Inductive generateEdges (num_threads : nat) (c_nodes nc_nodes : list Node)
    (debugMode : bool) : outcome (list edge) → Prop :=
| generateEdges_completes chunks ws st :
    length chunks = num_threads →
    concat chunks = seq 0 (length c_nodes) →
    Forall2 (λ chunk w,
      chunk_calls c_nodes nc_nodes debugMode chunk = Ok (todo w) ∧ local w = [])
      chunks ws →
    rtc par_step (ParState [] ws) st →
    Forall (λ w, todo w = []) (workers st) →
    generateEdges num_threads c_nodes nc_nodes debugMode (Ok (final_flush st))
| generateEdges_undefined chunks chunk :
    length chunks = num_threads →
    concat chunks = seq 0 (length c_nodes) →
    chunk ∈ chunks →
    chunk_calls c_nodes nc_nodes debugMode chunk = Undefined →
    generateEdges num_threads c_nodes nc_nodes debugMode Undefined.

(** The run in which thread 0 is given every clause. *)
Definition generateEdges_seq (c_nodes nc_nodes : list Node) (debugMode : bool)
    : outcome (list edge) :=
  calls ← chunk_calls c_nodes nc_nodes debugMode (seq 0 (length c_nodes));
  let st := foldl (λ st c, addEdge c.1 c.2 st) ([], []) calls in
  Ok (st.1 ++ st.2).

(** *** The edges of the specification *)

(** [<] on the distances is a strict weak order, as it is on the [double]s
    that are numbers. *)
Definition strict_weak_order : Prop :=
  (∀ a : Dist, dist_ltb a a = false) ∧
  (∀ a b c : Dist, dist_ltb a b = true → dist_ltb b c = true → dist_ltb a c = true) ∧
  (∀ a b c : Dist, dist_ltb a c = true → dist_ltb a b = true ∨ dist_ltb b c = true).

(** [operator==] tells the targets apart: two of them are equal only when
    they are the same element of the vector. *)
Definition distinguishable (nc_nodes : list Node) : Prop :=
  ∀ p q a b, nc_nodes !! p = Some a → nc_nodes !! q = Some b →
    (node_eqb a b = true ↔ p = q).

(** Position [p] holds the first target of minimum weighted distance to
    [cp] among the targets other than the one at position [skip]. *)
Definition first_min_at (cp : Node) (nc_nodes : list Node) (skip : option nat)
    (p : nat) : Prop :=
  ∃ x, nc_nodes !! p = Some x ∧ Some p ≠ skip ∧
    (∀ q y, nc_nodes !! q = Some y → Some q ≠ skip → nearer cp y x = false) ∧
    (∀ q y, nc_nodes !! q = Some y → Some q ≠ skip → (q < p)%nat → nearer cp x y = true).

(** The edges of one source: to the nearest target and to the second
    nearest, which is the nearest of the remaining ones; as stored, with
    the smaller end first. *)
Definition source_edges (nc_nodes : list Node) (debugMode : bool) (sourceRank : nat)
    (cp : Node) (es : list edge) : Prop :=
  ∃ p q nearest secondNearest,
    first_min_at cp nc_nodes None p ∧ nc_nodes !! p = Some nearest ∧
    first_min_at cp nc_nodes (Some p) q ∧ nc_nodes !! q = Some secondNearest ∧
    let targetCount := Z.of_nat (length nc_nodes) in
    es = if debugMode
         then [canonical (index nearest, targetCount + Z.of_nat sourceRank);
               canonical (index secondNearest, targetCount + Z.of_nat sourceRank)]
         else [canonical (index nearest, index secondNearest)].

(** The union over the sources of their edges, as a multiset. *)
Definition edges_of_sources (c_nodes nc_nodes : list Node) (debugMode : bool)
    (edges : list edge) : Prop :=
  ∃ per_source : list (list edge),
    length per_source = length c_nodes ∧
    (∀ sourceRank cp es, c_nodes !! sourceRank = Some cp → per_source !! sourceRank = Some es →
       source_edges nc_nodes debugMode sourceRank cp es) ∧
    edges ≡ₚ concat per_source.

End GenerateEdges.

(** ** WeightSampler and PositionSampler: [generateWeights], [generatePositions] *)

(** The [double] operations the samplers use, and the random engine:
    [std::default_random_engine{s}] and one draw [dist(gen)] of
    [std::uniform_real_distribution<>{}], which returns the number drawn and
    leaves the engine advanced. *)
Class SamplerModel (double engine : Type) := {
  d_of_int : Z → double;
  d_half : double;
  d_neg : double → double;
  d_add : double → double → double;
  d_sub : double → double → double;
  d_mul : double → double → double;
  d_div : double → double → double;
  d_pow : double → double → double;
  seed_engine : Z → engine;
  uniform_real : engine → double * engine;
}.

(** What a run takes from its environment: [omp_get_max_threads()], the
    value [std::random_device()()] gives to each thread, and, for a loop of
    [n] iterations on a team asked to have [threads] threads, the number
    of consecutive iterations [schedule(static)] hands to each thread of
    the team. *)
Record omp_env := OmpEnv {
  omp_get_max_threads : Z;
  random_device : Z → Z;
  static_chunks : nat → nat → list nat;
}.

(** The iterations are dealt out completely, and a team asked to have one
    thread has one. *)
Definition omp_env_ok (env : omp_env) : Prop :=
  ∀ n threads,
    sum_list (static_chunks env n threads) = n ∧
    (1 ≤ length (static_chunks env n threads) ≤ Nat.max 1 threads)%nat.

(** [parallel ? std::max(1, std::min(omp_get_max_threads(), n / 10000)) : 1] *)
Definition sampler_threads (env : omp_env) (n : Z) (parallel : bool) : Z :=
  if parallel then Z.max 1 (Z.min (omp_get_max_threads env) (n ÷ 10000)) else 1.

(** [seed >= 0 ? (seed+tid) : std::random_device()()].  The sum is an
    addition of two [int]s, whose overflow is undefined behaviour; it is
    made before the conversion to [unsigned int] that the conditional
    operator asks for. *)
Definition engine_seed (env : omp_env) (seed tid : Z) : outcome Z :=
  if 0 <=? seed then sum ← int_add seed tid; Ok (u32 sum)
  else Ok (random_device env tid).

Section Samplers.
Context {double engine : Type} `{!SamplerModel double engine}.

(** [std::pow((std::pow(0.5*n, -ple + 1) - 1) * u + 1, 1 / (-ple + 1))] *)
Definition weight_of (n : Z) (ple u : double) : double :=
  d_pow
    (d_add
       (d_mul (d_sub (d_pow (d_mul d_half (d_of_int n)) (d_add (d_neg ple) (d_of_int 1)))
                     (d_of_int 1))
              u)
       (d_of_int 1))
    (d_div (d_of_int 1) (d_add (d_neg ple) (d_of_int 1))).

(** The [k] iterations of one thread of [generateWeights]. *)
Fixpoint draw_weights (n : Z) (ple : double) (k : nat) (gen : engine) : list double :=
  match k with
  | O => []
  | S k' => let '(u, gen) := uniform_real gen in weight_of n ple u :: draw_weights n ple k' gen
  end.

(** The parallel region of a sampler, from thread [tid] on: every thread
    of the team seeds its engine and then runs [draw] for the number of
    iterations that [schedule(static)] hands to it; [chunks] lists these
    numbers.  The threads write disjoint parts of [result], which are
    joined here in the order of the threads. *)
Fixpoint sampler_team {A} (env : omp_env) (seed : Z) (draw : nat → engine → list A)
    (tid : nat) (chunks : list nat) : outcome (list A) :=
  match chunks with
  | [] => Ok []
  | k :: rest =>
      s ← engine_seed env seed (Z.of_nat tid);
      more ← sampler_team env seed draw (S tid) rest;
      Ok (draw k (seed_engine s) ++ more)
  end.

Definition generateWeights (env : omp_env) (n : Z) (ple : double) (weightSeed : Z)
    (parallel : bool) : outcome (list double) :=
  let threads := sampler_threads env n parallel in
  if n <? 0 then Thrown "std::length_error"%string
  else
    sampler_team env weightSeed (draw_weights n ple) 0
      (static_chunks env (Z.to_nat n) (Z.to_nat threads)).

(** The inner loop over [d]. *)
Fixpoint draw_coords (dimension : nat) (gen : engine) : list double * engine :=
  match dimension with
  | O => ([], gen)
  | S d' =>
      let '(x, gen) := uniform_real gen in
      let '(xs, gen) := draw_coords d' gen in
      (x :: xs, gen)
  end.

(** The [k] iterations of one thread of [generatePositions]. *)
Fixpoint draw_positions (dimension : nat) (k : nat) (gen : engine) : list (list double) :=
  match k with
  | O => []
  | S k' =>
      let '(p, gen) := draw_coords dimension gen in
      p :: draw_positions dimension k' gen
  end.

Definition generatePositions (env : omp_env) (n dimension positionSeed : Z)
    (parallel : bool) : outcome (list (list double)) :=
  let threads := sampler_threads env n parallel in
  if (dimension <? 0) || (n <? 0) then Thrown "std::length_error"%string
  else
    sampler_team env positionSeed (draw_positions (Z.to_nat dimension)) 0
      (static_chunks env (Z.to_nat n) (Z.to_nat threads)).

End Samplers.

(** ** RadiusLayer *)

(** [AngleHelper] is declared in <hypergirgs/AngleHelper.h>, which is not
    among the sources; its three static functions, which return
    [unsigned int], are the fields of this interface.  [cellForPoint]
    gives the position of the cell within its level. *)
Class CellHierarchy (Angle : Type) := {
  numCellsInLevel : Z → Z;
  firstCellOfLevel : Z → Z;
  cellForPoint : Angle → Z → Z;
}.

Record RadiusLayer (Real Point : Type) := MkRadiusLayer {
  m_r_min : Real;
  m_r_max : Real;
  m_target_level : Z;
  m_prefix_sums : list Z;
  m_points : list Point;
}.

Arguments MkRadiusLayer {Real Point}.
Arguments m_r_min {Real Point}.
Arguments m_r_max {Real Point}.
Arguments m_target_level {Real Point}.
Arguments m_prefix_sums {Real Point}.
Arguments m_points {Real Point}.

(** The loop that turns the counts into exclusive prefix sums, in place. *)
Fixpoint exclusive_prefix_sums (vals : list Z) (sum : Z) : list Z :=
  match vals with
  | [] => []
  | tmp :: rest => sum :: exclusive_prefix_sums rest (u32 (sum + tmp))
  end.

Section RadiusLayer.
Context {Angle Real Point : Type} `{!CellHierarchy Angle} `{!Inhabited Point}.

(** The loop that counts the points of each cell. *)
Fixpoint count_points (targetLevel cellsInLevel : Z) (angles : list Angle)
    (nodes : list Z) (prefix_sums : list Z) : outcome (list Z) :=
  match nodes with
  | [] => Ok prefix_sums
  | node :: rest =>
      angle ← vec_at angles node;
      let cell := cellForPoint angle targetLevel in
      cassert (cell <? cellsInLevel);;
      count ← vec_at prefix_sums cell;
      prefix_sums ← vec_set prefix_sums cell (u32 (count + 1));
      count_points targetLevel cellsInLevel angles rest prefix_sums
  end.

(** The loop that fills the point lookup. *)
Fixpoint fill_points (targetLevel : Z) (angles : list Angle) (points : list Point)
    (prefix_sums : list Z) (nodes : list Z) (m_points : list Point)
    (num_inserted : list Z) : outcome (list Point) :=
  match nodes with
  | [] => Ok m_points
  | node :: rest =>
      angle ← vec_at angles node;
      let targetCell := cellForPoint angle targetLevel in
      point ← vec_at points node;
      start ← vec_at prefix_sums targetCell;
      inserted ← vec_at num_inserted targetCell;
      m_points ← vec_set m_points (u32 (start + inserted)) point;
      num_inserted ← vec_set num_inserted targetCell (inserted + 1);
      fill_points targetLevel angles points prefix_sums rest m_points num_inserted
  end.

(** [RadiusLayer::RadiusLayer]; a default-constructed [Point] is
    [inhabitant]. *)
Definition RadiusLayer_new (r_min r_max : Real) (targetLevel : Z) (nodes : list Z)
    (angles : list Angle) (points : list Point) : outcome (RadiusLayer Real Point) :=
  let cellsInLevel := numCellsInLevel targetLevel in
  let prefix_sums := replicate (Z.to_nat (u32 (cellsInLevel + 1))) 0 in
  prefix_sums ← count_points targetLevel cellsInLevel angles nodes prefix_sums;
  let prefix_sums := exclusive_prefix_sums prefix_sums 0 in
  total ← vec_back prefix_sums;
  let m_points := replicate (Z.to_nat total) inhabitant in
  let num_inserted := replicate (Z.to_nat cellsInLevel) 0 in
  m_points ← fill_points targetLevel angles points prefix_sums nodes m_points num_inserted;
  Ok (MkRadiusLayer r_min r_max targetLevel prefix_sums m_points).

(** [RadiusLayer::pointsInCell] *)
Definition pointsInCell (rl : RadiusLayer Real Point) (cell level : Z) : outcome Z :=
  cassert (level <=? m_target_level rl);;
  cassert ((firstCellOfLevel level <=? cell) && (cell <? firstCellOfLevel (u32 (level + 1))));;
  let descendants := numCellsInLevel (u32 (m_target_level rl - level)) in
  let localIndexCell := u32 (cell - firstCellOfLevel level) in
  let localIndexDescendant := u32 (localIndexCell * descendants) in
  let begin := localIndexDescendant in
  let end_ := u32 (begin + descendants - 1) in
  cassert (u32 (begin + firstCellOfLevel level)
             <? firstCellOfLevel (u32 (m_target_level rl + 1)));;
  cassert (u32 (end_ + firstCellOfLevel level)
             <? firstCellOfLevel (u32 (m_target_level rl + 1)));;
  at_end ← vec_at (m_prefix_sums rl) end_;
  at_begin ← vec_at (m_prefix_sums rl) begin;
  after_end ← vec_at (m_prefix_sums rl) (u32 (end_ + 1));
  Ok (to_int (u32 (at_end - at_begin) + u32 (after_end - at_end))).

(** [RadiusLayer::kthPoint] *)
Definition kthPoint (rl : RadiusLayer Real Point) (cell level k : Z) : outcome Point :=
  cassert (level <=? m_target_level rl);;
  cassert ((firstCellOfLevel level <=? cell) && (cell <? firstCellOfLevel (u32 (level + 1))));;
  let descendants := numCellsInLevel (u32 (m_target_level rl - level)) in
  let localIndexCell := u32 (cell - firstCellOfLevel level) in
  let localIndexDescendant := u32 (localIndexCell * descendants) in
  let begin := localIndexDescendant in
  at_begin ← vec_at (m_prefix_sums rl) begin;
  vec_at (m_points rl) (u32 (at_begin + k)).

(** The finest-level cell of a node of the input, when its angle exists. *)
Definition finest_cell (targetLevel : Z) (angles : list Angle) (node : Z) : option Z :=
  if node <? 0 then None
  else (λ angle, cellForPoint angle targetLevel) <$> angles !! Z.to_nat node.

(** Modelled from the spec: the descendants of a cell ([AngleHelper], which
    fixes the tree of cells, is not among the sources).  The cell [cell] of
    level [level] owns the block of [numCellsInLevel(target_level - level)]
    consecutive cells of the target level that starts at
    [(cell - firstCellOfLevel(level)) * numCellsInLevel(target_level - level)]. *)
Definition descends (targetLevel : Z) (cell level : Z) (finest : Z) : bool :=
  let block := numCellsInLevel (targetLevel - level) in
  let firstDescendant := (cell - firstCellOfLevel level) * block in
  (firstDescendant <=? finest) && (finest <? firstDescendant + block).

(** Whether the finest-level cell of a node satisfies [P]. *)
Definition cell_sat (targetLevel : Z) (angles : list Angle) (P : Z → bool) (node : Z) : bool :=
  match finest_cell targetLevel angles node with
  | Some c => P c
  | None => false
  end.

(** The nodes of the input whose finest-level cell satisfies [P], in input
    order. *)
Definition nodes_where (targetLevel : Z) (angles : list Angle) (P : Z → bool)
    (nodes : list Z) : list Z :=
  filter (λ node, cell_sat targetLevel angles P node = true) nodes.

(** The point of a node. *)
Definition point_of (points : list Point) (node : Z) : Point :=
  default inhabitant (points !! Z.to_nat node).

(** A node the constructor can place: it has an angle whose cell lies in
    the target level, and a point. *)
Definition node_ok (targetLevel : Z) (angles : list Angle) (points : list Point)
    (node : Z) : Prop :=
  0 ≤ node ∧ is_Some (points !! Z.to_nat node) ∧
  ∃ cell, finest_cell targetLevel angles node = Some cell ∧
          0 ≤ cell < numCellsInLevel targetLevel.

(** The inputs of the constructor that the properties are about: every
    node can be placed, and the number of cells and the number of nodes
    fit the [unsigned int] and [int] counters of the code. *)
Definition layer_input_ok (targetLevel : Z) (nodes : list Z) (angles : list Angle)
    (points : list Point) : Prop :=
  0 ≤ numCellsInLevel targetLevel ∧
  numCellsInLevel targetLevel + 1 < 2 ^ 32 ∧
  Z.of_nat (length nodes) < 2 ^ 31 ∧
  Forall (node_ok targetLevel angles points) nodes.

(** The number of nodes in cell [c], and in the cells before [c]. *)
Definition occ (targetLevel : Z) (angles : list Angle) (c : Z) (nodes : list Z) : nat :=
  length (nodes_where targetLevel angles (λ x, x =? c) nodes).

Definition below (targetLevel : Z) (angles : list Angle) (c : Z) (nodes : list Z) : nat :=
  length (nodes_where targetLevel angles (λ x, x <? c) nodes).

(** [points[from .. to)] *)
Definition slice {A} (from to : Z) (v : list A) : list A :=
  take (Z.to_nat (to - from)) (drop (Z.to_nat from) v).

(** The cells from [a] up to [b], without [b]. *)
Definition in_range (a b : Z) (x : Z) : bool := (a <=? x) && (x <? b).

(** The nodes [placed] so far lie in the point lookup cell by cell, each
    cell from its prefix sum on, in the order of the input [all]. *)
Definition placed_in (targetLevel : Z) (angles : list Angle) (points : list Point)
    (all placed : list Z) (m_points : list Point) : Prop :=
  ∀ c j node,
    nodes_where targetLevel angles (λ x, x =? c) placed !! j = Some node →
    m_points !! (below targetLevel angles c all + j)%nat = Some (point_of points node).

(** What the constructor builds: the prefix sums count the nodes of the
    cells before, and the point lookup holds the points cell by cell. *)
Definition layer_of (targetLevel : Z) (nodes : list Z) (angles : list Angle)
    (points : list Point) (rl : RadiusLayer Real Point) : Prop :=
  m_target_level rl = targetLevel ∧
  Z.of_nat (length (m_prefix_sums rl)) = numCellsInLevel targetLevel + 1 ∧
  (∀ i, (i ≤ Z.to_nat (numCellsInLevel targetLevel))%nat →
     m_prefix_sums rl !! i
     = Some (Z.of_nat (below targetLevel angles (Z.of_nat i) nodes))) ∧
  length (m_points rl) = length nodes ∧
  placed_in targetLevel angles points nodes nodes (m_points rl).

(** Modelled from the spec: the cells form a balanced tree, numbered level
    by level, up to the target level ([AngleHelper] is not among the
    sources).  Every level has cells, a cell of level [L] has
    [numCellsInLevel(targetLevel - L)] descendants in the target level, the
    cells of a level follow those of the level before, and every cell
    number is an [unsigned int]. *)
Definition balanced_hierarchy (targetLevel : Z) : Prop :=
  0 ≤ firstCellOfLevel 0 ∧
  firstCellOfLevel (targetLevel + 1) < 2 ^ 32 ∧
  targetLevel + 1 < 2 ^ 32 ∧
  ∀ L, 0 ≤ L ≤ targetLevel →
    1 ≤ numCellsInLevel L ∧
    numCellsInLevel L * numCellsInLevel (targetLevel - L) = numCellsInLevel targetLevel ∧
    firstCellOfLevel (L + 1) = firstCellOfLevel L + numCellsInLevel L.

(** The cell [cell] of level [level] can be asked for: the level is not
    above the target level, the cell is one of the level, and the block of
    its descendants (see [descends]) lies inside the target level, also when
    it is moved by [firstCellOfLevel(level)] as the assertions of the code
    have it; the numbers of the cells are [unsigned int]s. *)
Definition block_in_target_level (targetLevel cell level : Z) : Prop :=
  0 ≤ level ≤ targetLevel ∧ targetLevel + 1 < 2 ^ 32 ∧
  0 ≤ firstCellOfLevel level ∧
  firstCellOfLevel level ≤ cell < firstCellOfLevel (level + 1) ∧
  1 ≤ numCellsInLevel (targetLevel - level) ∧
  (cell - firstCellOfLevel level) * numCellsInLevel (targetLevel - level)
    + numCellsInLevel (targetLevel - level) ≤ numCellsInLevel targetLevel ∧
  (cell - firstCellOfLevel level) * numCellsInLevel (targetLevel - level)
    + numCellsInLevel (targetLevel - level) + firstCellOfLevel level
    ≤ firstCellOfLevel (targetLevel + 1) ∧
  firstCellOfLevel (targetLevel + 1) < 2 ^ 32.

End RadiusLayer.

(** ** The rest of the two files *)

(** [RadiusLayer::firstPointPointer]: the pointer
    [m_points.data() + m_prefix_sums[begin]], given by its distance from
    [m_points.data()]. *)
Definition firstPointPointer {Angle Real Point : Type} `{!CellHierarchy Angle}
    (rl : RadiusLayer Real Point) (cell level : Z) : outcome Z :=
  cassert (level <=? m_target_level rl);;
  cassert ((firstCellOfLevel level <=? cell) && (cell <? firstCellOfLevel (u32 (level + 1))));;
  let descendants := numCellsInLevel (u32 (m_target_level rl - level)) in
  let localIndexCell := u32 (cell - firstCellOfLevel level) in
  let localIndexDescendant := u32 (localIndexCell * descendants) in
  let begin := localIndexDescendant in
  at_begin ← vec_at (m_prefix_sums rl) begin;
  Ok at_begin.

(** [ptr[k]] for a pointer into [m_points]; pointer arithmetic does not
    wrap at [2^32]. *)
Definition ptr_read {Real Point : Type} (rl : RadiusLayer Real Point) (ptr k : Z)
    : outcome Point :=
  vec_at (m_points rl) (ptr + k).

(** The constructor [Node2D(coord, weight, index)] of <satgirgs/Node.h>,
    which is not among the sources. *)
Class Node2DCtor (Node double : Type) := {
  Node2D : list double → double → Z → Node;
}.

(** The loop of [convertToNodes], with [steps] iterations to go: the body
    and then [i++]. *)
Fixpoint convertToNodes_loop {Node double : Type} `{!Node2DCtor Node double}
    (positions : list (list double)) (weights : list double) (indiceOffset : Z)
    (steps : nat) (i : Z) (result : list Node) : outcome (list Node) :=
  match steps with
  | O => Ok result
  | S steps' =>
      position ← vec_at positions i;
      weight ← vec_at weights i;
      index ← int_add indiceOffset i;
      i ← int_add i 1;
      convertToNodes_loop positions weights indiceOffset steps' i
        (result ++ [Node2D position weight index])
  end.

(** [convertToNodes(positions, weights, indiceOffset)]; the loop runs once
    for every position. *)
Definition convertToNodes {Node double : Type} `{!Node2DCtor Node double}
    (positions : list (list double)) (weights : list double) (indiceOffset : Z)
    : outcome (list Node) :=
  cassert (bool_decide (length positions = length weights));;
  convertToNodes_loop positions weights indiceOffset (length positions) 0 [].

(** *** Notions for the further properties *)

(** Strict lexicographic order, by [u] and then by [v]. *)
Definition lex_lt (a b : edge) : Prop := a.1 < b.1 ∨ (a.1 = b.1 ∧ a.2 < b.2).

(** The pairs of a list of triples. *)
Definition keys (ws : list wedge) : list edge := (λ w : wedge, w.1) <$> ws.

(** How often a pair occurs in a list. *)
Definition occurrences (e : edge) (l : list edge) : Z :=
  Z.of_nat (length (filter (λ x, x = e) l)).

(** The numbers one thread of a sampler draws in [k] iterations that draw
    one number each. *)
Fixpoint draw_uniform {double engine : Type} `{!SamplerModel double engine}
    (k : nat) (gen : engine) : list double :=
  match k with
  | O => []
  | S k' => let '(u, gen) := uniform_real gen in u :: draw_uniform k' gen
  end.

(** Two outcomes of [generateEdges] agree: both are undefined, or both
    return the same edges, each as often, in some order. *)
Definition same_edges (r1 r2 : outcome (list edge)) : Prop :=
  match r1, r2 with
  | Ok e1, Ok e2 => e1 ≡ₚ e2
  | Undefined, Undefined => True
  | _, _ => False
  end.

(** ** Instances used in the examples *)

(** The hierarchy of the scenario with three cells in the target level 2:
    one cell in level 0, two in level 1, three in level 2; an angle is
    given by the cell it falls into. *)
Definition scenario_hierarchy : CellHierarchy Z := {|
  numCellsInLevel L := if L =? 0 then 1 else if L =? 1 then 2 else 3;
  firstCellOfLevel L := if L =? 0 then 0 else if L =? 1 then 1 else if L =? 2 then 3 else 6;
  cellForPoint angle L := angle;
|}.

(** A binary hierarchy: [2^L] cells in level [L], numbered from [2^L - 1];
    an angle is a number of degrees in [0, 360). *)
Definition binary_hierarchy : CellHierarchy Z := {|
  numCellsInLevel L := 2 ^ L;
  firstCellOfLevel L := 2 ^ L - 1;
  cellForPoint angle L := angle * 2 ^ L / 360;
|}.

(** Nodes on a line: a position and an index; the distance is the absolute
    difference of the positions, and two nodes are equal when their
    indices are. *)
Definition line_nodes : NodeModel (Z * Z) Z := {|
  index node := node.2;
  weightedDistance a b := Z.abs (a.1 - b.1);
  node_eqb a b := a.2 =? b.2;
  dist_ltb := Z.ltb;
|}.

(** Integers for [double], and the linear congruential engine
    [x ↦ 16807 x mod (2^31 - 1)] whose draw is the state itself. *)
Definition lcg_sampler : SamplerModel Z Z := {|
  d_of_int x := x;
  d_half := 1;
  d_neg := Z.opp;
  d_add := Z.add;
  d_sub := Z.sub;
  d_mul := Z.mul;
  d_div := Z.div;
  d_pow x y := x ^ Z.abs y;
  seed_engine s := s;
  uniform_real gen := (gen, 16807 * gen mod (2 ^ 31 - 1));
|}.

(** One thread takes every iteration. *)
Definition one_thread_env (max_threads entropy : Z) : omp_env := {|
  omp_get_max_threads := max_threads;
  random_device tid := entropy + tid;
  static_chunks n threads := [n];
|}.

(** Two threads share the iterations when two or more are asked for. *)
Definition two_thread_env (max_threads entropy : Z) : omp_env := {|
  omp_get_max_threads := max_threads;
  random_device tid := entropy + tid;
  static_chunks n threads :=
    if (2 <=? threads)%nat then [(n / 2)%nat; (n - n / 2)%nat] else [n];
|}.

(** Nodes on a line built from a position vector: its first coordinate
    and the index. *)
Definition line_ctor : Node2DCtor (Z * Z) Z := {|
  Node2D coord weight index := (default 0 (head coord), index);
|}.

(** * Properties *)

(** ** Outcomes and vectors *)

Lemma bind_Ok_inv {A B} (m : outcome A) (f : A → outcome B) (b : B) :
  m ≫= f = Ok b → ∃ a, m = Ok a ∧ f a = Ok b.
Proof. destruct m; cbn; intros; try done. eauto. Qed.

Lemma vec_at_Ok {A} (v : list A) (i : Z) (x : A) :
  vec_at v i = Ok x ↔ 0 ≤ i ∧ v !! Z.to_nat i = Some x.
Proof.
  unfold vec_at. destruct (Z.ltb_spec i 0).
  - split; [done | lia].
  - destruct (v !! Z.to_nat i); split.
    + intros [= ->]. auto.
    + intros [_ [= ->]]. reflexivity.
    + discriminate.
    + intros [_ [=]].
Qed.

Lemma vec_at_lookup {A} (v : list A) (i : Z) (x : A) :
  0 ≤ i → v !! Z.to_nat i = Some x → vec_at v i = Ok x.
Proof. intros. by apply vec_at_Ok. Qed.

Lemma vec_set_Ok {A} (v : list A) (i : Z) (x : A) :
  0 ≤ i < Z.of_nat (length v) → vec_set v i x = Ok (<[Z.to_nat i := x]> v).
Proof.
  intros. unfold vec_set.
  destruct (Z.leb_spec 0 i), (Z.ltb_spec i (Z.of_nat (length v))); simpl; first done; lia.
Qed.

Lemma int_max_lt_uint_max : 2 ^ 31 < 2 ^ 32.
Proof. reflexivity. Qed.

Lemma u32_small (x : Z) : 0 ≤ x < 2 ^ 32 → u32 x = x.
Proof. intros. unfold u32. by apply Z.mod_small. Qed.

Lemma to_int_small (x : Z) : 0 ≤ x < 2 ^ 31 → to_int x = x.
Proof.
  intros. unfold to_int. rewrite u32_small by lia.
  destruct (Z.ltb_spec x (2 ^ 31)); [done | lia].
Qed.

Lemma int_add_Ok (a b : Z) :
  - 2 ^ 31 ≤ a + b < 2 ^ 31 → int_add a b = Ok (a + b).
Proof.
  intros H. unfold int_add.
  destruct (Z.leb_spec (- 2 ^ 31) (a + b)), (Z.ltb_spec (a + b) (2 ^ 31)); cbn; (done || lia).
Qed.

Lemma int_add_Ok_inv (a b c : Z) : int_add a b = Ok c → c = a + b.
Proof. unfold int_add. destruct (_ && _); [|done]. by intros [= <-]. Qed.

Lemma int_add_overflow (a b : Z) : 2 ^ 31 ≤ a + b → int_add a b = Undefined.
Proof.
  intros H. unfold int_add. destruct (Z.ltb_spec (a + b) (2 ^ 31)); [lia|].
  by rewrite andb_false_r.
Qed.

(** ** [std::sort] on pairs *)

Lemma pair_le_lex (a b : edge) : pair_le a b ↔ lex_le a b.
Proof.
  unfold pair_le, pair_ltb, lex_le. destruct a as [a1 a2], b as [b1 b2]; simpl.
  destruct (Z.ltb_spec b1 a1), (Z.ltb_spec a1 b1), (Z.ltb_spec b2 a2); simpl;
    split; intros; try done; try lia.
Qed.

#[export] Instance pair_le_total : Total pair_le.
Proof. intros a b. rewrite !pair_le_lex. unfold lex_le. lia. Qed.

#[export] Instance pair_le_trans : Transitive pair_le.
Proof. intros a b c. rewrite !pair_le_lex. unfold lex_le. lia. Qed.

#[export] Instance pair_le_antisymm : AntiSymm (=) pair_le.
Proof.
  intros [a1 a2] [b1 b2]. rewrite !pair_le_lex. unfold lex_le. simpl.
  intros. f_equal; lia.
Qed.

Lemma std_sort_perm (l : list edge) : std_sort l ≡ₚ l.
Proof. apply merge_sort_Permutation. Qed.

Lemma std_sort_sorted (l : list edge) : Sorted pair_le (std_sort l).
Proof. apply (Sorted_merge_sort pair_le). Qed.

(** Whatever algorithm [std::sort] runs, it returns [std_sort]. *)
Lemma std_sort_unique (l l' : list edge) :
  l' ≡ₚ l → Sorted pair_le l' → l' = std_sort l.
Proof.
  intros Hp Hs. apply (Sorted_unique pair_le); auto using std_sort_sorted.
  by rewrite std_sort_perm.
Qed.

Lemma Sorted_pair_le_lex (l : list edge) : Sorted pair_le l ↔ Sorted lex_le l.
Proof.
  split; induction 1 as [|x l Hs IH Hhd]; constructor; auto;
    destruct Hhd; constructor; by apply pair_le_lex.
Qed.

Lemma std_sort_nil_inv (l : list edge) : std_sort l = [] → l = [].
Proof.
  intros E. apply Permutation_nil_r. rewrite <- E. symmetry. apply std_sort_perm.
Qed.

Lemma std_sort_id (l : list edge) : Sorted pair_le l → std_sort l = l.
Proof. intros. symmetry. by apply std_sort_unique. Qed.

(** ** [deduplicateEdges] *)

Lemma runs_head (x : edge) (l : list edge) :
  ∃ k r, runs (x :: l) = (x, k) :: r ∧ 1 ≤ k.
Proof.
  revert x. induction l as [|y l IH]; intros x; simpl.
  - exists 1, []. split; [done | lia].
  - destruct (IH y) as (k & r & E & Hk). simpl in E. rewrite E.
    case_bool_decide; subst; eauto with lia.
Qed.

Lemma runs_replicate_app (n : nat) (x : edge) (l : list edge) :
  runs (replicate (S n) x ++ l) =
    match runs l with
    | (y, k) :: r =>
        if bool_decide (x = y) then (y, k + Z.of_nat (S n)) :: r
        else (x, Z.of_nat (S n)) :: (y, k) :: r
    | [] => [(x, Z.of_nat (S n))]
    end.
Proof.
  induction n as [|n IH].
  - simpl. destruct (runs l) as [|[y k] r]; [done|]. by case_bool_decide.
  - change (replicate (S (S n)) x ++ l) with (x :: (replicate (S n) x ++ l)).
    cbn [runs]. rewrite IH. destruct (runs l) as [|[y k] r].
    + rewrite bool_decide_true by done. f_equal. f_equal. lia.
    + case_bool_decide; subst.
      * rewrite bool_decide_true by done. f_equal. f_equal. lia.
      * rewrite bool_decide_true by done. f_equal. f_equal. lia.
Qed.

(** The loop emits every run but the one it is still counting when the
    input ends. *)
Lemma collect_runs_pending (edges : list edge) (last : edge) (n : nat)
    (new_edges : list wedge) :
  collect_runs edges last (Z.of_nat (S n)) new_edges
    ++ [triple (pending_run edges last (Z.of_nat (S n)))]
  = new_edges ++ (triple <$> runs (replicate (S n) last ++ edges)).
Proof.
  revert last n new_edges. induction edges as [|e rest IH]; intros last n new_edges.
  - cbn [collect_runs pending_run]. rewrite runs_replicate_app. done.
  - cbn [collect_runs pending_run]. case_bool_decide as He.
    + subst e. replace (Z.of_nat (S n) + 1) with (Z.of_nat (S (S n))) by lia.
      rewrite IH. f_equal. f_equal. f_equal.
      rewrite (replicate_S_end (S n)), <- app_assoc. done.
    + change 1 with (Z.of_nat 1). rewrite IH, <- app_assoc. f_equal.
      change (replicate 1 e ++ rest) with (e :: rest).
      rewrite runs_replicate_app.
      destruct (runs_head e rest) as (k & r & -> & _).
      rewrite bool_decide_false by congruence. done.
Qed.

Lemma pending_run_positive (edges : list edge) (last : edge) (k : Z) :
  1 ≤ k → 1 ≤ (pending_run edges last k).2.
Proof.
  revert last k. induction edges as [|e rest IH]; intros last k Hk; simpl; [done|].
  case_bool_decide; apply IH; lia.
Qed.

(** What [deduplicateEdges] returns on a non-empty vector: the runs of the
    sorted vector are the triples returned, followed by one more. *)
Lemma deduplicateEdges_exact (edges : list edge) :
  edges ≠ [] →
  ∃ new_edges pending,
    deduplicateEdges edges = Ok (new_edges, std_sort edges) ∧
    1 ≤ pending.2 ∧
    triple <$> runs (std_sort edges) = new_edges ++ [triple pending].
Proof.
  intros Hne. unfold deduplicateEdges.
  destruct (std_sort edges) as [|x l] eqn:E.
  { by apply std_sort_nil_inv in E. }
  exists (collect_runs l x 1 []), (pending_run l x 1). split; [|split].
  - change (vec_at (x :: l) 0) with (Ok x). cbn.
    rewrite bool_decide_true by done. done.
  - by apply pending_run_positive.
  - change 1 with (Z.of_nat 1). by rewrite collect_runs_pending.
Qed.

Lemma replicate_snoc_app {A} (n : nat) (x : A) (l : list A) :
  replicate n x ++ x :: l = x :: replicate n x ++ l.
Proof. induction n; simpl; congruence. Qed.

Lemma expand_cons (w : wedge) (ws : list wedge) :
  expand (w :: ws) = replicate (Z.to_nat w.2) (w.1.1, w.1.2) ++ expand ws.
Proof. reflexivity. Qed.

Lemma expand_app (ws ws' : list wedge) : expand (ws ++ ws') = expand ws ++ expand ws'.
Proof. unfold expand. apply bind_app. Qed.

Lemma expand_runs (l : list edge) : expand (triple <$> runs l) = l.
Proof.
  induction l as [|x l IH]; [done|].
  cbn [runs]. destruct l as [|x' l'].
  - destruct x. reflexivity.
  - destruct (runs_head x' l') as (k' & r' & E' & Hk'). rewrite E' in *.
    rewrite fmap_cons, expand_cons in IH. cbn in IH.
    case_bool_decide; subst; rewrite !fmap_cons, !expand_cons; cbn.
    + replace (Z.to_nat (k' + 1)) with (S (Z.to_nat k')) by lia.
      cbn. destruct x'. by rewrite IH.
    + change (Z.to_nat 1) with 1%nat. cbn. destruct x. by rewrite IH.
Qed.

(** Every multiplicity written is a count of elements of the vector, so
    [run_length] stays an [int] as long as the size of the vector is one. *)
Lemma collect_runs_bounded (edges : list edge) (last : edge) (k : Z)
    (new_edges : list wedge) (bound : Z) :
  0 ≤ k → k + Z.of_nat (length edges) ≤ bound →
  Forall (λ w : wedge, 0 ≤ w.2 ≤ bound) new_edges →
  Forall (λ w : wedge, 0 ≤ w.2 ≤ bound) (collect_runs edges last k new_edges).
Proof.
  revert last k new_edges. induction edges as [|e rest IH]; intros last k acc Hk Hb Hacc.
  - done.
  - cbn [collect_runs]. cbn [length] in Hb. case_bool_decide.
    + apply IH; [lia | lia | done].
    + apply IH; [lia | lia |]. apply Forall_app. split; [done|].
      constructor; [simpl; lia | done].
Qed.

(** The multiplicities returned are counts of elements of the vector:
    [run_length] does not leave the range of [int] while the size of the
    vector is in it. *)
Lemma deduplicateEdges_multiplicities (edges : list edge) (new_edges : list wedge)
    (sorted : list edge) :
  deduplicateEdges edges = Ok (new_edges, sorted) →
  Forall (λ w : wedge, 0 ≤ w.2 ≤ Z.of_nat (length edges)) new_edges.
Proof.
  unfold deduplicateEdges. intros Hd.
  apply bind_Ok_inv in Hd as (last & _ & [= <- <-]).
  apply collect_runs_bounded; [lia | | done].
  rewrite (Permutation_length (std_sort_perm edges)). lia.
Qed.

Lemma deduplicateEdges_sorted_argument (edges : list edge) :
  edges ≠ [] →
  ∃ new_edges,
    deduplicateEdges edges = Ok (new_edges, std_sort edges) ∧
    std_sort edges ≡ₚ edges ∧ Sorted lex_le (std_sort edges).
Proof.
  intros Hne. destruct (deduplicateEdges_exact edges Hne) as (new_edges & _ & E & _).
  exists new_edges. split; [done|]. split; [apply std_sort_perm|].
  apply Sorted_pair_le_lex, std_sort_sorted.
Qed.

(** The expansion of the triples returned lacks the copies of the last run. *)
Lemma deduplicateEdges_expand (edges : list edge) :
  edges ≠ [] →
  ∃ new_edges last k,
    deduplicateEdges edges = Ok (new_edges, std_sort edges) ∧ 1 ≤ k ∧
    expand new_edges ++ replicate (Z.to_nat k) last = std_sort edges.
Proof.
  intros Hne.
  destruct (deduplicateEdges_exact edges Hne) as (new_edges & [last k] & E & Hk & Hr).
  exists new_edges, last, k. split; [done|]. split; [done|].
  rewrite <- (expand_runs (std_sort edges)), Hr, expand_app.
  f_equal. destruct last. unfold expand. cbn. by rewrite app_nil_r.
Qed.

(** C1, as the code has it: on a non-empty vector [deduplicateEdges] sorts
    the pairs as they are given, ascending by [u] and then by [v], without
    bringing a pair into the form (min, max); the triples it returns are, in
    order, the maximal runs of equal pairs of the sorted vector with their
    lengths, all of them except possibly the last.  On pairs that already
    have the form (min, max) these are triples of the deduplication of the
    specification. *)
Theorem C1_deduplicateEdges_sorted_runs (edges : list edge) :
  edges ≠ [] →
  ∃ new_edges sorted rest,
    deduplicateEdges edges = Ok (new_edges, sorted) ∧
    sorted ≡ₚ edges ∧ Sorted lex_le sorted ∧
    triple <$> runs sorted = new_edges ++ rest ∧ (length rest ≤ 1)%nat ∧
    (canonical <$> edges = edges → new_edges ++ rest = dedup_spec edges).
Proof.
  intros Hne.
  destruct (deduplicateEdges_exact edges Hne) as (new_edges & pending & E & _ & Hr).
  exists new_edges, (std_sort edges), [triple pending].
  split; [done|]. split; [apply std_sort_perm|].
  split; [apply Sorted_pair_le_lex, std_sort_sorted|].
  split; [done|]. split; [simpl; lia|].
  intros Hc. unfold dedup_spec. by rewrite Hc, Hr.
Qed.

Lemma C1_deduplicateEdges_sorted_runs_witness :
  ∃ new_edges sorted rest,
    deduplicateEdges [(1, 2); (3, 4); (1, 2)] = Ok (new_edges, sorted) ∧
    sorted ≡ₚ [(1, 2); (3, 4); (1, 2)] ∧ Sorted lex_le sorted ∧
    triple <$> runs sorted = new_edges ++ rest ∧ (length rest ≤ 1)%nat ∧
    (canonical <$> [(1, 2); (3, 4); (1, 2)] = [(1, 2); (3, 4); (1, 2)] →
     new_edges ++ rest = dedup_spec [(1, 2); (3, 4); (1, 2)]).
Proof. apply (C1_deduplicateEdges_sorted_runs [(1, 2); (3, 4); (1, 2)]). discriminate. Defined.

(** C1 fails as stated: on [(2,1),(1,2),(3,4)] the specified algorithm gives
    [(1,2,2),(3,4,1)], and [deduplicateEdges] returns
    [(1,2,1),(2,1,1)]. *)
Lemma C1_counterexample :
  deduplicateEdges [(2, 1); (1, 2); (3, 4)]
    = Ok ([(1, 2, 1); (2, 1, 1)], [(1, 2); (2, 1); (3, 4)]) ∧
  dedup_spec [(2, 1); (1, 2); (3, 4)] = [(1, 2, 2); (3, 4, 1)] ∧
  [(1, 2, 1); (2, 1, 1)] ≠ dedup_spec [(2, 1); (1, 2); (3, 4)].
Proof. split; [|split]; [by vm_compute | by vm_compute | by vm_compute]. Qed.

(** C4 at the input [(1,2),(3,4)], whose pairs are in the form (min, max):
    [deduplicateEdges] returns the one triple (1,2,1), its expansion,
    sorted, is [(1,2)], and the sorted input is [(1,2),(3,4)]. *)
Theorem C4_roundtrip_loses_last_run :
  deduplicateEdges [(1, 2); (3, 4)] = Ok ([(1, 2, 1)], [(1, 2); (3, 4)]) ∧
  std_sort (expand [(1, 2, 1)]) = [(1, 2)] ∧
  std_sort (canonical <$> [(1, 2); (3, 4)]) = [(1, 2); (3, 4)].
Proof. split; [|split]; by vm_compute. Qed.

(** C7 fails as stated: the empty vector is not checked for, and its front
    element is read. *)
Lemma C7_counterexample :
  deduplicateEdges [] = Undefined ∧ ¬ checked_empty_outcome (deduplicateEdges []).
Proof. split; [reflexivity | intros []]. Qed.

(** C7, as the code has it: [deduplicateEdges] has no case for the empty
    vector; it reads [edges[0]] of every input, which is undefined on the
    empty vector and nowhere else, and returns a result on every other
    input. *)
Theorem C7_deduplicateEdges_reads_front (edges : list edge) :
  (deduplicateEdges edges = Undefined ↔ edges = []) ∧
  ((∃ r, deduplicateEdges edges = Ok r) ↔ edges ≠ []).
Proof.
  destruct edges as [|e edges].
  - split; split; try done. intros [r Hr]. discriminate Hr.
  - destruct (deduplicateEdges_exact (e :: edges)) as (new_edges & _ & E & _); [done|].
    rewrite E. split; split; try done. eauto.
Qed.

(** C10: [deduplicateEdges] sorts the vector it is given by reference: after
    the call on a non-empty vector, the caller's vector holds the same pairs
    as before, each as often as before, in ascending lexicographic order; it
    is left as it was only if it was in that order already. *)
Theorem C10_deduplicateEdges_sorts_argument (edges : list edge) :
  edges ≠ [] →
  ∃ new_edges after,
    deduplicateEdges edges = Ok (new_edges, after) ∧
    after ≡ₚ edges ∧ Sorted lex_le after ∧
    (after = edges ↔ Sorted lex_le edges).
Proof.
  intros Hne.
  destruct (deduplicateEdges_sorted_argument edges Hne) as (new_edges & E & Hp & Hs).
  exists new_edges, (std_sort edges). repeat split; try done.
  - intros <-. done.
  - intros H. by apply std_sort_id, Sorted_pair_le_lex.
Qed.

Lemma C10_deduplicateEdges_sorts_argument_witness :
  ∃ new_edges after,
    deduplicateEdges [(3, 4); (1, 2); (1, 2)] = Ok (new_edges, after) ∧
    after ≡ₚ [(3, 4); (1, 2); (1, 2)] ∧ Sorted lex_le after ∧
    (after = [(3, 4); (1, 2); (1, 2)] ↔ Sorted lex_le [(3, 4); (1, 2); (1, 2)]).
Proof. apply (C10_deduplicateEdges_sorts_argument [(3, 4); (1, 2); (1, 2)]). discriminate. Defined.

(** ** The threads of [generateEdges] *)

Lemma addEdge_stores (u v : Z) (res loc : list edge) :
  (addEdge u v (res, loc)).1 ++ (addEdge u v (res, loc)).2
  = res ++ loc ++ [canonical (u, v)].
Proof.
  unfold addEdge, canonical. cbn [fst snd].
  assert ((if v <? u then (v, u) else (u, v)) = (Z.min u v, Z.max u v)) as ->.
  { destruct (Z.ltb_spec v u); f_equal; lia. }
  case (_ =? _); cbn [fst snd]; by rewrite <- ?app_assoc, ?app_nil_r.
Qed.

Lemma worker_step_all_edges (tid : nat) (st st' : par_state) :
  worker_step tid st = Some st' → all_edges st' ≡ₚ all_edges st.
Proof.
  unfold worker_step. destruct st as [res ws]. cbn [workers result].
  destruct (ws !! tid) as [[loc calls]|] eqn:Hw; [|done]. cbn -[addEdge].
  destruct calls as [|[u v] rest]; [done|].
  pose proof (addEdge_stores u v res loc) as Hst.
  destruct (addEdge u v (res, loc)) as [res' loc']. cbn [fst snd] in Hst.
  intros [= <-]. unfold all_edges. cbn [workers result].
  rewrite insert_take_drop by (by eapply lookup_lt_Some).
  rewrite <- (take_drop_middle ws tid _ Hw) at 5 6.
  rewrite !fmap_app, !fmap_cons, !concat_app, !concat_cons. cbn [local todo].
  rewrite fmap_cons.
  transitivity ((res' ++ loc') ++ concat (local <$> take tid ws)
    ++ concat (local <$> drop (S tid) ws)
    ++ concat ((λ w, canonical <$> todo w) <$> take tid ws)
    ++ (canonical <$> rest)
    ++ concat ((λ w, canonical <$> todo w) <$> drop (S tid) ws)).
  { solve_Permutation. }
  rewrite Hst. solve_Permutation.
Qed.

Lemma par_steps_all_edges (st st' : par_state) :
  rtc par_step st st' → all_edges st' ≡ₚ all_edges st.
Proof.
  induction 1 as [|st1 st2 st3 [tid Hstep] _ IH]; [done|].
  rewrite IH. by eapply worker_step_all_edges.
Qed.

Lemma all_edges_final (st : par_state) :
  Forall (λ w, todo w = []) (workers st) → all_edges st = final_flush st.
Proof.
  unfold all_edges, final_flush. intros Hdone.
  assert (concat ((λ w, canonical <$> todo w) <$> workers st) = []) as ->.
  { induction Hdone as [|w ws Hw _ IH]; [done|]. cbn. by rewrite Hw, IH. }
  by rewrite app_nil_r.
Qed.

Lemma all_edges_init (ws : list worker) :
  Forall (λ w, local w = []) ws →
  all_edges (ParState [] ws) = canonical <$> concat (todo <$> ws).
Proof.
  unfold all_edges. cbn [result workers]. intros Hinit.
  assert (concat (local <$> ws) = []) as ->.
  { induction Hinit as [|w ws Hw _ IH]; [done|]. cbn. by rewrite Hw, IH. }
  cbn. clear Hinit. induction ws as [|w ws IH]; [done|].
  cbn. by rewrite fmap_app, IH.
Qed.

(** When the threads have finished, the vector returned holds the edges of
    all their calls of [addEdge]. *)
Lemma par_run_edges (ws : list worker) (st : par_state) :
  Forall (λ w, local w = []) ws →
  rtc par_step (ParState [] ws) st →
  Forall (λ w, todo w = []) (workers st) →
  final_flush st ≡ₚ canonical <$> concat (todo <$> ws).
Proof.
  intros Hinit Hrun Hdone.
  rewrite <- (all_edges_final _ Hdone), <- (all_edges_init _ Hinit).
  by apply par_steps_all_edges.
Qed.

(** Thread 0 can always run to the end of its calls. *)
Lemma worker_0_runs (calls : list (Z * Z)) (res loc : list edge) (others : list worker) :
  let st := foldl (λ st c, addEdge c.1 c.2 st) (res, loc) calls in
  rtc par_step (ParState res (Worker loc calls :: others))
               (ParState st.1 (Worker st.2 [] :: others)).
Proof.
  revert res loc. induction calls as [|[u v] calls IH]; intros res loc; cbn -[addEdge].
  - done.
  - destruct (addEdge u v (res, loc)) as [res' loc'] eqn:E.
    eapply rtc_l; [|apply IH]. exists 0%nat. cbn -[addEdge]. by rewrite E.
Qed.

(** Every schedule is an interleaving of the threads. *)
Lemma run_schedule_steps (sched : list nat) (st : par_state) :
  rtc par_step st (run_schedule sched st).
Proof.
  revert st. induction sched as [|tid sched IH]; intros st; cbn -[worker_step].
  - done.
  - destruct (worker_step tid st) as [st'|] eqn:Hstep; [|done].
    eapply rtc_l; [by exists tid | apply IH].
Qed.

(** ** [std::min_element] *)

Section MinElement.
Context {A : Type} (comp : A → A → bool) (P : A → bool) (lt : A → A → bool).

(** [comp] orders the elements that satisfy [P] by [lt] and puts them
    before all the others. *)
Hypothesis comp_skip : ∀ a b, P a = false → comp a b = false.
Hypothesis comp_first : ∀ a b, P a = true → P b = false → comp a b = true.
Hypothesis comp_both : ∀ a b, P a = true → P b = true → comp a b = lt a b.

Hypothesis lt_irrefl : ∀ a, lt a a = false.
Hypothesis lt_trans : ∀ a b c, lt a b = true → lt b c = true → lt a c = true.
Hypothesis lt_weak : ∀ a b c, lt a c = true → lt a b = true ∨ lt b c = true.

Lemma best_so_far_step (pre : list A) (r : nat * A) (x : A) :
  best_so_far P lt pre r →
  best_so_far P lt (pre ++ [x]) (if comp x r.2 then (length pre, x) else r).
Proof.
  destruct r as [p0 x0]. unfold best_so_far. cbn [fst snd].
  intros (Hlook & Hnone & Hsome).
  assert (∀ q y, (pre ++ [x]) !! q = Some y →
            (pre !! q = Some y ∧ (q < length pre)%nat) ∨ (q = length pre ∧ y = x)) as Hsplit.
  { intros q y Hq. apply lookup_app_Some in Hq as [Hq | [Hge Hq]].
    - left. split; [done|]. by eapply lookup_lt_Some.
    - right. apply list_lookup_singleton_Some in Hq as [Hq ->]. split; [lia | done]. }
  destruct (P x) eqn:Px.
  - destruct (P x0) eqn:Px0.
    + destruct (Hsome eq_refl) as [Hmin Hfst].
      rewrite (comp_both _ _ Px Px0). destruct (lt x x0) eqn:Hlt; cbn [fst snd].
      * split; [by rewrite lookup_app_r, Nat.sub_diag by lia|].
        split; [congruence|]. intros _. split.
        -- intros q y Hq Py. destruct (Hsplit q y Hq) as [[Hq' _] | [_ ->]]; [|done].
           destruct (lt y x) eqn:Hyx; [|done].
           rewrite <- (Hmin q y Hq' Py). symmetry. eauto.
        -- intros q y Hq Py Hlt'. destruct (Hsplit q y Hq) as [[Hq' _] | [-> _]]; [|lia].
           destruct (lt_weak x y x0 Hlt) as [|Hbad]; [done|].
           by rewrite (Hmin q y Hq' Py) in Hbad.
      * split; [by apply lookup_app_l_Some|].
        split; [congruence|]. intros _. split.
        -- intros q y Hq Py. destruct (Hsplit q y Hq) as [[Hq' _] | [_ ->]]; eauto.
        -- intros q y Hq Py Hlt'. destruct (Hsplit q y Hq) as [[Hq' _] | [-> _]]; eauto.
           apply lookup_lt_Some in Hlook. lia.
    + rewrite (comp_first _ _ Px Px0). cbn [fst snd].
      split; [by rewrite lookup_app_r, Nat.sub_diag by lia|].
      split; [congruence|]. intros _. split.
      * intros q y Hq Py. destruct (Hsplit q y Hq) as [[Hq' _] | [_ ->]]; [|done].
        apply list_elem_of_lookup_2 in Hq'. rewrite (Hnone eq_refl y Hq') in Py. done.
      * intros q y Hq Py Hlt'. destruct (Hsplit q y Hq) as [[Hq' _] | [-> _]]; [|lia].
        apply list_elem_of_lookup_2 in Hq'. rewrite (Hnone eq_refl y Hq') in Py. done.
  - rewrite (comp_skip _ _ Px). cbn [fst snd].
    split; [by apply lookup_app_l_Some|]. split.
    + intros Px0 y Hy. apply elem_of_app in Hy as [Hy | Hy]; [eauto|].
      apply list_elem_of_singleton in Hy as ->. done.
    + intros Px0. destruct (Hsome Px0) as [Hmin Hfst]. split.
      * intros q y Hq Py. destruct (Hsplit q y Hq) as [[Hq' _] | [_ ->]]; [eauto | congruence].
      * intros q y Hq Py Hlt'. destruct (Hsplit q y Hq) as [[Hq' _] | [_ ->]]; [eauto | congruence].
Qed.

Lemma min_element_loop_best (l pre : list A) (r : nat * A) :
  best_so_far P lt pre r →
  best_so_far P lt (pre ++ l) (min_element_loop comp r (length pre) l).
Proof.
  revert pre r. induction l as [|x l IH]; intros pre r Hbest; cbn [min_element_loop].
  - by rewrite app_nil_r.
  - apply (best_so_far_step _ _ x) in Hbest.
    apply IH in Hbest. rewrite <- app_assoc, length_app in Hbest. cbn in Hbest.
    by rewrite Nat.add_1_r in Hbest.
Qed.

(** [min_element] returns [end()] on the empty range only, and otherwise
    the first minimum among the elements that satisfy [P]. *)
Lemma min_element_best (l : list A) :
  l ≠ [] → ∃ r, min_element comp l = Some r ∧ best_so_far P lt l r.
Proof.
  destruct l as [|x l]; [done|]. intros _. eexists. split; [reflexivity|].
  apply (min_element_loop_best l [x] (0%nat, x)).
  unfold best_so_far. cbn [fst snd]. split; [done|]. split.
  - intros Px y Hy. apply list_elem_of_singleton in Hy as ->. done.
  - intros Px. split.
    + intros q y Hq _. apply list_lookup_singleton_Some in Hq as [_ <-]. done.
    + intros q y _ _ Hq. lia.
Qed.

End MinElement.

Section MinElementSat.
Context {A : Type} (comp : A → A → bool) (P : A → bool).
Hypothesis comp_skip : ∀ a b, P a = false → comp a b = false.
Hypothesis comp_first : ∀ a b, P a = true → P b = false → comp a b = true.

Lemma min_element_loop_sat (l pre : list A) (r : nat * A) :
  pre !! r.1 = Some r.2 → (P r.2 = false → ∀ y, y ∈ pre → P y = false) →
  let r' := min_element_loop comp r (length pre) l in
  (pre ++ l) !! r'.1 = Some r'.2 ∧ (P r'.2 = false → ∀ y, y ∈ pre ++ l → P y = false).
Proof.
  revert pre r. induction l as [|x l IH]; intros pre r Hlook Hnone; cbn [min_element_loop].
  - by rewrite app_nil_r.
  - cbn zeta. replace (pre ++ x :: l) with ((pre ++ [x]) ++ l) by by rewrite <- app_assoc.
    replace (S (length pre)) with (length (pre ++ [x])) by (rewrite length_app; cbn; lia).
    apply IH.
    + destruct (comp x r.2); cbn [fst snd].
      * by rewrite lookup_app_r, Nat.sub_diag by lia.
      * by apply lookup_app_l_Some.
    + destruct (P x) eqn:Px.
      * destruct (P r.2) eqn:Pr.
        -- destruct (comp x r.2); cbn [fst snd]; congruence.
        -- rewrite (comp_first _ _ Px Pr). cbn [fst snd]. congruence.
      * rewrite (comp_skip _ _ Px). intros Pr y Hy.
        apply elem_of_app in Hy as [Hy | Hy]; [eauto|].
        apply list_elem_of_singleton in Hy as ->. done.
Qed.

(** The element found satisfies [P] if any element of the range does. *)
Lemma min_element_sat (l : list A) (r : nat * A) (y : A) :
  min_element comp l = Some r → y ∈ l → P y = true →
  l !! r.1 = Some r.2 ∧ P r.2 = true.
Proof.
  destruct l as [|x l]; [done|]. intros [= <-] Hy Py.
  destruct (min_element_loop_sat l [x] (0%nat, x)) as [Hlook Hnone].
  - done.
  - cbn. intros Px z Hz. apply list_elem_of_singleton in Hz as ->. done.
  - split; [done|]. cbn [length] in Hnone.
    destruct (P (min_element_loop comp (0%nat, x) 1 l).2) eqn:E; [done|].
    rewrite (Hnone eq_refl y Hy) in Py. done.
Qed.

End MinElementSat.

(** ** [generateEdges] *)

Lemma concat_replicate_nil {A} (n : nat) : concat (replicate n (@nil A)) = [].
Proof. induction n; cbn; done. Qed.

Lemma canonical_le (e : edge) : (canonical e).1 ≤ (canonical e).2.
Proof. unfold canonical. cbn. lia. Qed.

Section GenerateEdgesProperties.
Context {Node Dist : Type} `{!NodeModel Node Dist}.

Lemma chunk_calls_app (c_nodes nc_nodes : list Node) (debugMode : bool) (a b : list nat) :
  chunk_calls c_nodes nc_nodes debugMode (a ++ b) =
    (ca ← chunk_calls c_nodes nc_nodes debugMode a;
     cb ← chunk_calls c_nodes nc_nodes debugMode b;
     Ok (ca ++ cb)).
Proof.
  induction a as [|i a IH]; cbn.
  - by destruct (chunk_calls _ _ _ b).
  - destruct (vec_at c_nodes (Z.of_nat i)) as [cp| | |]; cbn; try done.
    destruct (clause_calls _ _ _ cp) as [calls| | |]; cbn; try done.
    rewrite IH. destruct (chunk_calls _ _ _ a) as [ca| | |]; cbn; try done.
    destruct (chunk_calls _ _ _ b) as [cb| | |]; cbn; try done.
    by rewrite app_assoc.
Qed.

Lemma chunk_calls_concat (c_nodes nc_nodes : list Node) (debugMode : bool)
    (chunks : list (list nat)) (ws : list worker) :
  Forall2 (λ chunk w,
    chunk_calls c_nodes nc_nodes debugMode chunk = Ok (todo w) ∧ local w = []) chunks ws →
  chunk_calls c_nodes nc_nodes debugMode (concat chunks) = Ok (concat (todo <$> ws)) ∧
  Forall (λ w, local w = []) ws.
Proof.
  induction 1 as [|chunk w chunks ws [Hc Hl] _ [IH1 IH2]]; [done|].
  cbn. rewrite chunk_calls_app, Hc, IH1. cbn. split; [done|]. by constructor.
Qed.

Lemma chunk_calls_concat_defined (c_nodes nc_nodes : list Node) (debugMode : bool)
    (chunks : list (list nat)) (chunk : list nat) (calls : list (Z * Z)) :
  chunk_calls c_nodes nc_nodes debugMode (concat chunks) = Ok calls →
  chunk ∈ chunks →
  ∃ calls', chunk_calls c_nodes nc_nodes debugMode chunk = Ok calls'.
Proof.
  revert calls. induction chunks as [|ch chunks IH]; intros calls Hcalls Hin.
  - by apply elem_of_nil in Hin.
  - cbn in Hcalls. rewrite chunk_calls_app in Hcalls.
    apply bind_Ok_inv in Hcalls as (ca & Hca & Hcalls).
    apply bind_Ok_inv in Hcalls as (cb & Hcb & _).
    apply elem_of_cons in Hin as [-> | Hin]; eauto.
Qed.

(** A run returns the edges of the calls of all clauses, in some order. *)
Lemma generateEdges_run_calls (num_threads : nat) (c_nodes nc_nodes : list Node)
    (debugMode : bool) (calls : list (Z * Z)) (r : outcome (list edge)) :
  chunk_calls c_nodes nc_nodes debugMode (seq 0 (length c_nodes)) = Ok calls →
  generateEdges num_threads c_nodes nc_nodes debugMode r →
  ∃ edges, r = Ok edges ∧ edges ≡ₚ canonical <$> calls.
Proof.
  intros Hcalls Hrun. inversion Hrun as [chunks ws st _ Hsplit Hws Hsteps Hdone |
                                          chunks chunk _ Hsplit Hin Hundef]; subst.
  - apply chunk_calls_concat in Hws as [Hall Hinit]. rewrite Hsplit, Hcalls in Hall.
    injection Hall as ->. eexists. split; [done|]. by apply par_run_edges.
  - rewrite <- Hsplit in Hcalls.
    destruct (chunk_calls_concat_defined _ _ _ _ _ _ Hcalls Hin) as [calls' Hc].
    congruence.
Qed.

(** There is a run for every number of threads. *)
Lemma generateEdges_seq_run (num_threads : nat) (c_nodes nc_nodes : list Node)
    (debugMode : bool) :
  (1 ≤ num_threads)%nat →
  (∃ edges, generateEdges_seq c_nodes nc_nodes debugMode = Ok edges) →
  generateEdges num_threads c_nodes nc_nodes debugMode
    (generateEdges_seq c_nodes nc_nodes debugMode).
Proof.
  intros Hthreads [edges Hseq]. unfold generateEdges_seq in *.
  destruct (chunk_calls _ _ _ (seq 0 (length c_nodes))) as [calls| | |] eqn:Hcalls;
    try done. cbn.
  set (st := foldl (λ st c, addEdge c.1 c.2 st) ([], []) calls).
  set (idle := replicate (num_threads - 1) (Worker [] [])).
  assert (concat (local <$> idle) = []) as Hidle.
  { unfold idle. rewrite fmap_replicate. apply concat_replicate_nil. }
  replace (st.1 ++ st.2)
    with (final_flush (ParState st.1 (Worker st.2 [] :: idle)))
    by (unfold final_flush; cbn; by rewrite Hidle, app_nil_r).
  apply (generateEdges_completes _ _ _ _ (seq 0 (length c_nodes) :: replicate (num_threads - 1) [])
           (Worker [] calls :: idle)).
  - cbn. rewrite length_replicate. lia.
  - cbn [concat]. by rewrite concat_replicate_nil, app_nil_r.
  - constructor; [done|]. unfold idle. apply Forall2_replicate. done.
  - apply worker_0_runs.
  - cbn. constructor; [done|]. unfold idle. apply Forall_replicate. done.
Qed.

(** Without targets the first search returns [end()], and every run that
    has a source dereferences it. *)
Lemma generateEdges_no_targets (num_threads : nat) (c_nodes : list Node)
    (debugMode : bool) (r : outcome (list edge)) :
  c_nodes ≠ [] →
  generateEdges num_threads c_nodes [] debugMode r → r = Undefined.
Proof.
  intros Hne Hrun. inversion Hrun as [chunks ws st _ Hsplit Hws _ _ |]; [|done].
  apply chunk_calls_concat in Hws as [Hall _]. rewrite Hsplit in Hall.
  destruct c_nodes as [|cp c_nodes]; [done|]. cbn in Hall.
  change (vec_at (cp :: c_nodes) 0) with (Ok cp) in Hall. done.
Qed.

End GenerateEdgesProperties.

Section NearestTargets.
Context {Node Dist : Type} `{!NodeModel Node Dist}.

Lemma nearer_irrefl (cp : Node) : strict_weak_order → ∀ a, nearer cp a a = false.
Proof. intros (Hi & _ & _) a. apply Hi. Qed.

Lemma nearer_trans (cp : Node) :
  strict_weak_order → ∀ a b c, nearer cp a b = true → nearer cp b c = true → nearer cp a c = true.
Proof. intros (_ & Ht & _) a b c. apply Ht. Qed.

Lemma nearer_weak (cp : Node) :
  strict_weak_order →
  ∀ a b c, nearer cp a c = true → nearer cp a b = true ∨ nearer cp b c = true.
Proof. intros (_ & _ & Hw) a b c. apply Hw. Qed.

(** The first search finds the first target of minimum distance. *)
Lemma nearest_first_min (cp : Node) (nc_nodes : list Node) :
  strict_weak_order → nc_nodes ≠ [] →
  ∃ p nearest,
    min_element (nearer cp) nc_nodes = Some (p, nearest) ∧
    nc_nodes !! p = Some nearest ∧ first_min_at cp nc_nodes None p.
Proof.
  intros Hswo Hne.
  destruct (min_element_best (nearer cp) (λ _, true) (nearer cp)
              ltac:(done) ltac:(done) ltac:(done)
              (nearer_irrefl cp Hswo) (nearer_trans cp Hswo) (nearer_weak cp Hswo)
              nc_nodes Hne) as ([p x] & Hmin & Hb).
  destruct Hb as (Hlook & _ & Hbest).
  destruct (Hbest eq_refl) as [Hleast Hfirst]. cbn [fst snd] in *.
  exists p, x. split; [done|]. split; [done|].
  exists x. split; [done|]. split; [done|]. split.
  - intros q y Hq _. by eapply Hleast.
  - intros q y Hq _ Hlt. by eapply Hfirst.
Qed.

(** The second search finds a target other than the nearest when there is
    one that [operator==] tells from it. *)
Lemma second_is_other (cp nearest other : Node) (nc_nodes : list Node) (r : nat * Node) :
  min_element (nearer_ignoring cp nearest) nc_nodes = Some r →
  other ∈ nc_nodes → node_eqb other nearest = false →
  nc_nodes !! r.1 = Some r.2 ∧ node_eqb r.2 nearest = false.
Proof.
  intros Hmin Hin Hother.
  destruct (min_element_sat (nearer_ignoring cp nearest) (λ a, negb (node_eqb a nearest)))
    with (l := nc_nodes) (r := r) (y := other) as [Hlook Hsat]; try done.
  - intros a b Ha. unfold nearer_ignoring. by destruct (node_eqb a nearest).
  - intros a b Ha Hb. unfold nearer_ignoring.
    destruct (node_eqb a nearest); [done|]. by destruct (node_eqb b nearest).
  - by rewrite Hother.
  - split; [done|]. by destruct (node_eqb r.2 nearest).
Qed.

Lemma other_target (nc_nodes : list Node) (p : nat) (nearest : Node) :
  distinguishable nc_nodes → (2 ≤ length nc_nodes)%nat → nc_nodes !! p = Some nearest →
  ∃ other, other ∈ nc_nodes ∧ node_eqb other nearest = false.
Proof.
  intros Hd Hlen Hp.
  destruct (nc_nodes !! (if decide (p = 0) then 1 else 0)%nat) as [other|] eqn:Ho.
  - exists other. split; [by eapply list_elem_of_lookup_2|].
    destruct (node_eqb other nearest) eqn:E; [|done].
    apply (Hd _ _ _ _ Ho Hp) in E. case_decide; lia.
  - apply lookup_ge_None in Ho. case_decide; lia.
Qed.

(** With two targets or more that [operator==] tells apart, the second
    search finds the first target of minimum distance among the targets
    other than the nearest. *)
Lemma second_first_min (cp nearest : Node) (nc_nodes : list Node) (p : nat) :
  strict_weak_order → distinguishable nc_nodes → (2 ≤ length nc_nodes)%nat →
  nc_nodes !! p = Some nearest →
  ∃ q secondNearest,
    min_element (nearer_ignoring cp nearest) nc_nodes = Some (q, secondNearest) ∧
    nc_nodes !! q = Some secondNearest ∧ first_min_at cp nc_nodes (Some p) q.
Proof.
  intros Hswo Hd Hlen Hp.
  assert (nc_nodes ≠ []) as Hne by (by destruct nc_nodes).
  assert (∀ a b, negb (node_eqb a nearest) = false →
            nearer_ignoring cp nearest a b = false) as Hskip.
  { intros a b Ha. unfold nearer_ignoring. by destruct (node_eqb a nearest). }
  assert (∀ a b, negb (node_eqb a nearest) = true → negb (node_eqb b nearest) = false →
            nearer_ignoring cp nearest a b = true) as Hfront.
  { intros a b Ha Hb. unfold nearer_ignoring.
    destruct (node_eqb a nearest); [done|]. by destruct (node_eqb b nearest). }
  assert (∀ a b, negb (node_eqb a nearest) = true → negb (node_eqb b nearest) = true →
            nearer_ignoring cp nearest a b = nearer cp a b) as Hboth.
  { intros a b Ha Hb. unfold nearer_ignoring.
    destruct (node_eqb a nearest); [done|]. by destruct (node_eqb b nearest). }
  destruct (min_element_best (nearer_ignoring cp nearest)
              (λ a, negb (node_eqb a nearest)) (nearer cp) Hskip Hfront Hboth
              (nearer_irrefl cp Hswo) (nearer_trans cp Hswo) (nearer_weak cp Hswo)
              nc_nodes Hne) as ([q y] & Hmin & Hb).
  destruct Hb as (Hlook & _ & Hbest).
  destruct (other_target _ _ _ Hd Hlen Hp) as (other & Hin & Hother).
  destruct (second_is_other _ _ _ _ _ Hmin Hin Hother) as [_ Hy]. cbn [fst snd] in *.
  assert (∀ r z, nc_nodes !! r = Some z → Some r ≠ Some p → negb (node_eqb z nearest) = true)
    as Hrest.
  { intros r z Hr Hrp. destruct (node_eqb z nearest) eqn:E; [|done].
    apply (Hd _ _ _ _ Hr Hp) in E. congruence. }
  destruct Hbest as [Hleast Hfirst]; [by rewrite Hy|].
  exists q, y. split; [done|]. split; [done|].
  exists y. split; [done|]. split.
  { intros [= ->]. assert (node_eqb y nearest = true); [|congruence].
    apply (Hd _ _ _ _ Hlook Hp). done. }
  split.
  - intros r z Hr Hrp. eapply Hleast; eauto.
  - intros r z Hr Hrp Hlt. eapply Hfirst; eauto.
Qed.

(** With a single target the second search returns it again. *)
Lemma second_of_one (cp nearest target : Node) :
  min_element (nearer_ignoring cp nearest) [target] = Some (0%nat, target).
Proof. reflexivity. Qed.

End NearestTargets.

Section ClauseCalls.
Context {Node Dist : Type} `{!NodeModel Node Dist}.

Lemma min_element_lookup {A} (comp : A → A → bool) (l : list A) (r : nat * A) :
  min_element comp l = Some r → l !! r.1 = Some r.2.
Proof.
  destruct l as [|x l]; [done|]. intros [= <-].
  by destruct (min_element_loop_sat comp (λ _, true) ltac:(done) ltac:(done) l [x] (0%nat, x)).
Qed.

(** With a target to find, an iteration makes its calls: it never
    dereferences [end()]. *)
Lemma clause_calls_defined (nc_nodes : list Node) (debugMode : bool) (clauseIndex : Z)
    (cp : Node) :
  nc_nodes ≠ [] →
  ∃ p q nearest secondNearest,
    min_element (nearer cp) nc_nodes = Some (p, nearest) ∧
    min_element (nearer_ignoring cp nearest) nc_nodes = Some (q, secondNearest) ∧
    clause_calls nc_nodes debugMode clauseIndex cp =
      Ok (if debugMode
          then [(index nearest, to_int (Z.of_nat (length nc_nodes) + clauseIndex));
                (index secondNearest, to_int (Z.of_nat (length nc_nodes) + clauseIndex))]
          else [(index nearest, index secondNearest)]).
Proof.
  intros Hne. unfold clause_calls.
  destruct nc_nodes as [|t nc]; [done|].
  destruct (min_element (nearer cp) (t :: nc)) as [[p nearest]|] eqn:Hmin; [|done].
  cbn [deref mbind outcome_bind].
  destruct (min_element (nearer_ignoring cp nearest) (t :: nc))
    as [[q secondNearest]|] eqn:Hmin2; [|done].
  cbn [deref mbind outcome_bind].
  exists p, q, nearest, secondNearest. split; [done|]. split; [done|].
  by destruct debugMode.
Qed.

(** The calls of the clauses [start, start + len). *)
Lemma chunk_calls_seq (c_nodes nc_nodes : list Node) (debugMode : bool)
    (Q : nat → Node → list (Z * Z) → Prop) :
  (∀ i cp, c_nodes !! i = Some cp →
     ∃ calls, clause_calls nc_nodes debugMode (Z.of_nat i) cp = Ok calls ∧ Q i cp calls) →
  ∀ len start, (start + len ≤ length c_nodes)%nat →
  ∃ per : list (list (Z * Z)),
    chunk_calls c_nodes nc_nodes debugMode (seq start len) = Ok (concat per) ∧
    length per = len ∧
    ∀ j calls, per !! j = Some calls →
      ∃ cp, c_nodes !! (start + j)%nat = Some cp ∧ Q (start + j)%nat cp calls.
Proof.
  intros Hclause. induction len as [|len IH]; intros start Hlen.
  - exists []. split; [done|]. split; [done|]. intros j calls Hj. done.
  - destruct (lookup_lt_is_Some_2 c_nodes start) as [cp Hcp]; [lia|].
    destruct (Hclause start cp Hcp) as (calls & Hcalls & HQ).
    destruct (IH (S start)) as (per & Hper & Hlen' & Hall); [lia|].
    exists (calls :: per). split; [|split].
    + cbn [seq chunk_calls]. rewrite (vec_at_lookup c_nodes _ cp) by (rewrite ?Nat2Z.id; done || lia).
      cbn [mbind outcome_bind]. rewrite Hcalls. cbn [mbind outcome_bind].
      rewrite Hper. done.
    + cbn. lia.
    + intros [|j] calls' Hj.
      * injection Hj as <-. exists cp. rewrite Nat.add_0_r. done.
      * destruct (Hall j calls' Hj) as (cp' & Hcp' & HQ').
        exists cp'. by rewrite <- Nat.add_succ_comm.
Qed.

Lemma fmap_concat {A B} (f : A → B) (ls : list (list A)) :
  f <$> concat ls = concat ((λ l : list A, f <$> l) <$> ls).
Proof. induction ls as [|l ls IH]; cbn; [done|]. by rewrite fmap_app, IH. Qed.

(** The calls of an iteration are the edges of its source. *)
Lemma clause_calls_edges (nc_nodes : list Node) (debugMode : bool) (sourceRank : nat)
    (cp : Node) :
  strict_weak_order → distinguishable nc_nodes → (2 ≤ length nc_nodes)%nat →
  Z.of_nat (length nc_nodes) + Z.of_nat sourceRank < 2 ^ 31 →
  ∃ calls,
    clause_calls nc_nodes debugMode (Z.of_nat sourceRank) cp = Ok calls ∧
    source_edges nc_nodes debugMode sourceRank cp (canonical <$> calls).
Proof.
  intros Hswo Hd Hlen Hint.
  assert (nc_nodes ≠ []) as Hne by (intros ->; cbn in Hlen; lia).
  destruct (nearest_first_min cp nc_nodes Hswo Hne) as (p & nearest & Hmin & Hp & Hfm).
  destruct (second_first_min cp nearest nc_nodes p Hswo Hd Hlen Hp)
    as (q & secondNearest & Hmin2 & Hq & Hfm2).
  destruct (clause_calls_defined nc_nodes debugMode (Z.of_nat sourceRank) cp Hne)
    as (p' & q' & n' & s' & Hmin' & Hmin2' & Hcalls).
  rewrite Hmin in Hmin'. injection Hmin' as <- <-.
  rewrite Hmin2 in Hmin2'. injection Hmin2' as <- <-.
  eexists. split; [exact Hcalls|].
  exists p, q, nearest, secondNearest. repeat (split; [done|]). cbn zeta.
  destruct debugMode; [|done].
  cbn. by rewrite to_int_small by lia.
Qed.

End ClauseCalls.

Lemma elem_of_concat {A} (x : A) (ls : list (list A)) :
  x ∈ concat ls → ∃ i l, ls !! i = Some l ∧ x ∈ l.
Proof.
  induction ls as [|l ls IH]; cbn; intros Hx.
  - by apply elem_of_nil in Hx.
  - apply elem_of_app in Hx as [Hx | Hx].
    + by exists 0%nat, l.
    + destruct (IH Hx) as (i & l' & Hi & Hl'). by exists (S i), l'.
Qed.

Lemma canonical_distinct (u v : Z) : u ≠ v → (canonical (u, v)).1 ≠ (canonical (u, v)).2.
Proof. unfold canonical. cbn. lia. Qed.

Section GenerateEdgesClaims.
Context {Node Dist : Type} `{!NodeModel Node Dist}.

(** Where an edge of a run comes from: a call of the iteration of some
    clause. *)
Lemma generateEdges_run_origin (num_threads : nat) (c_nodes nc_nodes : list Node)
    (debugMode : bool) (r : outcome (list edge)) :
  nc_nodes ≠ [] →
  generateEdges num_threads c_nodes nc_nodes debugMode r →
  ∃ edges, r = Ok edges ∧
    ∀ e, e ∈ edges →
      ∃ clauseIndex cp p q nearest secondNearest call,
        c_nodes !! clauseIndex = Some cp ∧
        min_element (nearer cp) nc_nodes = Some (p, nearest) ∧
        min_element (nearer_ignoring cp nearest) nc_nodes = Some (q, secondNearest) ∧
        call ∈ (if debugMode
                then [(index nearest,
                       to_int (Z.of_nat (length nc_nodes) + Z.of_nat clauseIndex));
                      (index secondNearest,
                       to_int (Z.of_nat (length nc_nodes) + Z.of_nat clauseIndex))]
                else [(index nearest, index secondNearest)]) ∧
        e = canonical call.
Proof.
  intros Hne Hrun.
  destruct (chunk_calls_seq c_nodes nc_nodes debugMode
    (λ i cp calls, ∃ p q nearest secondNearest,
       min_element (nearer cp) nc_nodes = Some (p, nearest) ∧
       min_element (nearer_ignoring cp nearest) nc_nodes = Some (q, secondNearest) ∧
       calls = if debugMode
               then [(index nearest, to_int (Z.of_nat (length nc_nodes) + Z.of_nat i));
                     (index secondNearest, to_int (Z.of_nat (length nc_nodes) + Z.of_nat i))]
               else [(index nearest, index secondNearest)]))
    with (len := length c_nodes) (start := 0%nat) as (per & Hper & Hlen & Hall).
  { intros i cp Hi.
    destruct (clause_calls_defined nc_nodes debugMode (Z.of_nat i) cp Hne)
      as (p & q & n & s & H1 & H2 & H3).
    eexists. split; [exact H3|]. by exists p, q, n, s. }
  { lia. }
  destruct (generateEdges_run_calls _ _ _ _ _ _ Hper Hrun) as (edges & -> & Hperm).
  exists edges. split; [done|]. intros e He. rewrite Hperm in He.
  apply list_elem_of_fmap in He as (call & -> & Hcall).
  apply elem_of_concat in Hcall as (i & calls & Hi & Hcall).
  destruct (Hall i calls Hi) as (cp & Hcp & p & q & n & s & H1 & H2 & ->).
  cbn in Hcp. by exists i, cp, p, q, n, s, call.
Qed.

(** With a target to find, [generateEdges] returns. *)
Lemma generateEdges_returns (num_threads : nat) (c_nodes nc_nodes : list Node)
    (debugMode : bool) :
  nc_nodes ≠ [] → (1 ≤ num_threads)%nat →
  ∃ edges, generateEdges num_threads c_nodes nc_nodes debugMode (Ok edges).
Proof.
  intros Hne Hthreads.
  destruct (chunk_calls_seq c_nodes nc_nodes debugMode (λ _ _ _, True))
    with (len := length c_nodes) (start := 0%nat) as (per & Hper & _).
  { intros i cp _.
    destruct (clause_calls_defined nc_nodes debugMode (Z.of_nat i) cp Hne)
      as (p & q & n & s & _ & _ & Hcalls).
    eauto. }
  { lia. }
  pose proof (generateEdges_seq_run num_threads c_nodes nc_nodes debugMode Hthreads) as Hrun.
  unfold generateEdges_seq in Hrun. rewrite Hper in Hrun. cbn -[addEdge] in Hrun.
  eexists. apply Hrun. eauto.
Qed.

(** C5, as the code has it: every edge (u, v) that [generateEdges] returns,
    for any sources, any non-empty list of targets and either mode, has
    u <= v.  It has u != v as well in normal mode when there are two
    targets or more, [operator==] tells the targets apart and their
    indices differ, and in debug mode when the index of every target is
    below the number of targets; a single target in normal mode is joined
    to itself. *)
Theorem C5_generateEdges_edges_ordered (num_threads : nat) (c_nodes nc_nodes : list Node)
    (debugMode : bool) (r : outcome (list edge)) :
  nc_nodes ≠ [] →
  generateEdges num_threads c_nodes nc_nodes debugMode r →
  ∃ edges, r = Ok edges ∧
    (∀ e, e ∈ edges → e.1 ≤ e.2) ∧
    (debugMode = false → (2 ≤ length nc_nodes)%nat → distinguishable nc_nodes →
       NoDup (index <$> nc_nodes) → ∀ e, e ∈ edges → e.1 ≠ e.2) ∧
    (debugMode = true → (∀ t, t ∈ nc_nodes → index t < Z.of_nat (length nc_nodes)) →
       Z.of_nat (length nc_nodes) + Z.of_nat (length c_nodes) ≤ 2 ^ 31 →
       ∀ e, e ∈ edges → e.1 ≠ e.2).
Proof.
  intros Hne Hrun.
  destruct (generateEdges_run_origin _ _ _ _ _ Hne Hrun) as (edges & -> & Horigin).
  exists edges. split; [done|]. split; [|split].
  - intros e He.
    destruct (Horigin e He) as (i & cp & p & q & n & s & call & _ & _ & _ & _ & ->).
    apply canonical_le.
  - intros -> Hlen Hd Hnodup e He.
    destruct (Horigin e He) as (i & cp & p & q & n & s & call & _ & H1 & H2 & Hcall & ->).
    apply list_elem_of_singleton in Hcall as ->.
    apply canonical_distinct.
    apply min_element_lookup in H1. cbn [fst snd] in H1.
    destruct (other_target nc_nodes p n Hd Hlen H1) as (other & Hin & Hother).
    destruct (second_is_other _ _ _ _ _ H2 Hin Hother) as [Hq Hs]. cbn [fst snd] in *.
    intros Hidx.
    assert (p = q) as ->.
    { apply (NoDup_lookup _ _ _ (index n) Hnodup); rewrite list_lookup_fmap.
      - by rewrite H1.
      - by rewrite Hq, Hidx. }
    assert (node_eqb s n = true); [|congruence].
    by apply (Hd _ _ _ _ Hq H1).
  - intros -> Hidx Hint e He.
    destruct (Horigin e He) as (i & cp & p & q & n & s & call & Hi & H1 & H2 & Hcall & ->).
    apply lookup_lt_Some in Hi.
    apply min_element_lookup, list_elem_of_lookup_2, Hidx in H1.
    apply min_element_lookup, list_elem_of_lookup_2, Hidx in H2. cbn [fst snd] in *.
    rewrite to_int_small in Hcall by lia.
    apply elem_of_cons in Hcall as [-> | Hcall].
    + apply canonical_distinct. lia.
    + apply list_elem_of_singleton in Hcall as ->. apply canonical_distinct. lia.
Qed.

(** C8, as the code has it: with two targets or more that [operator==]
    tells apart, [generateEdges] returns, in some order, the edges of its
    sources: for each source the nearest target is the first target of
    minimum weighted distance and the second nearest is the first minimum
    among the other targets; in debug mode the source contributes the edges
    (nearest.index, targetCount + sourceRank) and
    (secondNearest.index, targetCount + sourceRank), in normal mode the
    edge (nearest.index, secondNearest.index), each stored with its
    smaller end first.  Every run returns, and there is one. *)
Theorem C8_generateEdges_edges_of_sources (num_threads : nat)
    (c_nodes nc_nodes : list Node) (debugMode : bool) :
  strict_weak_order → distinguishable nc_nodes → (2 ≤ length nc_nodes)%nat →
  Z.of_nat (length nc_nodes) + Z.of_nat (length c_nodes) ≤ 2 ^ 31 →
  (1 ≤ num_threads)%nat →
  (∃ r, generateEdges num_threads c_nodes nc_nodes debugMode r) ∧
  ∀ r, generateEdges num_threads c_nodes nc_nodes debugMode r →
    ∃ edges, r = Ok edges ∧ edges_of_sources c_nodes nc_nodes debugMode edges.
Proof.
  intros Hswo Hd Hlen Hint Hthreads.
  destruct (chunk_calls_seq c_nodes nc_nodes debugMode
    (λ i cp calls, source_edges nc_nodes debugMode i cp (canonical <$> calls)))
    with (len := length c_nodes) (start := 0%nat) as (per & Hper & Hlen' & Hall).
  { intros i cp Hi. apply clause_calls_edges; try done.
    apply lookup_lt_Some in Hi. lia. }
  { lia. }
  split.
  - exists (generateEdges_seq c_nodes nc_nodes debugMode).
    apply generateEdges_seq_run; [done|].
    unfold generateEdges_seq. rewrite Hper. cbn -[addEdge]. eauto.
  - intros r Hrun.
    destruct (generateEdges_run_calls _ _ _ _ _ _ Hper Hrun) as (edges & -> & Hperm).
    exists edges. split; [done|].
    exists ((λ calls : list (Z * Z), canonical <$> calls) <$> per).
    split; [by rewrite length_fmap|]. split.
    + intros rank cp es Hcp Hes. rewrite list_lookup_fmap in Hes.
      destruct (per !! rank) as [calls|] eqn:E; [|done]. injection Hes as <-.
      destruct (Hall rank calls E) as (cp' & Hcp' & HQ). cbn in Hcp'.
      rewrite Hcp in Hcp'. by injection Hcp' as <-.
    + by rewrite <- fmap_concat.
Qed.

End GenerateEdgesClaims.

(** *** Runs on nodes of a line *)

Lemma line_nodes_strict_weak_order : @strict_weak_order (Z * Z) Z line_nodes.
Proof.
  unfold strict_weak_order. cbn. split; [|split].
  - intros a. apply Z.ltb_irrefl.
  - intros a b c. rewrite !Z.ltb_lt. lia.
  - intros a b c. rewrite !Z.ltb_lt. lia.
Qed.

Lemma line_targets_distinguishable :
  @distinguishable (Z * Z) Z line_nodes [(0, 0); (7, 1); (30, 2)].
Proof.
  intros p q a b Hp Hq.
  destruct p as [|[|[|p]]]; try done; destruct q as [|[|[|q]]]; try done;
    cbn in Hp, Hq; simplify_eq; cbn; split; done.
Qed.

Lemma line_run (num_threads : nat) (c_nodes nc_nodes : list (Z * Z)) (debugMode : bool)
    (edges : list edge) :
  (1 ≤ num_threads)%nat →
  @generateEdges_seq _ _ line_nodes c_nodes nc_nodes debugMode = Ok edges →
  @generateEdges _ _ line_nodes num_threads c_nodes nc_nodes debugMode (Ok edges).
Proof. intros Hthreads E. rewrite <- E. apply generateEdges_seq_run; eauto. Qed.

Lemma C5_generateEdges_edges_ordered_witness :
  ∃ edges, Ok [(0, 1); (1, 2)] = Ok edges ∧
    (∀ e, e ∈ edges → e.1 ≤ e.2) ∧
    (false = false → (2 ≤ length [(0, 0); (7, 1); (30, 2)])%nat →
       @distinguishable _ _ line_nodes [(0, 0); (7, 1); (30, 2)] →
       NoDup (@index _ _ line_nodes <$> [(0, 0); (7, 1); (30, 2)]) →
       ∀ e, e ∈ edges → e.1 ≠ e.2) ∧
    (false = true →
       (∀ t, t ∈ [(0, 0); (7, 1); (30, 2)] →
          @index _ _ line_nodes t < Z.of_nat (length [(0, 0); (7, 1); (30, 2)])) →
       Z.of_nat (length [(0, 0); (7, 1); (30, 2)]) + Z.of_nat (length [(5, 0); (20, 1)])
         ≤ 2 ^ 31 →
       ∀ e, e ∈ edges → e.1 ≠ e.2).
Proof.
  apply (@C5_generateEdges_edges_ordered _ _ line_nodes 2
           [(5, 0); (20, 1)] [(0, 0); (7, 1); (30, 2)] false).
  - discriminate.
  - apply line_run; [lia | reflexivity].
Defined.

(** C5 fails as stated: with the one target of index 4, the run in normal
    mode returns the edge (4, 4) for every source. *)
Lemma C5_counterexample :
  @generateEdges _ _ line_nodes 1 [(5, 0); (20, 1)] [(7, 4)] false
    (Ok [(4, 4); (4, 4)]) ∧
  ¬ (∀ e : edge, e ∈ [(4, 4); (4, 4)] → e.1 ≤ e.2 ∧ e.1 ≠ e.2).
Proof.
  split.
  - apply line_run; [lia | reflexivity].
  - intros H. destruct (H (4, 4)) as [_ Hne]; [by left | done].
Qed.

Lemma C8_generateEdges_edges_of_sources_witness :
  (∃ r, @generateEdges _ _ line_nodes 2 [(5, 0); (20, 1)]
          [(0, 0); (7, 1); (30, 2)] true r) ∧
  ∀ r, @generateEdges _ _ line_nodes 2 [(5, 0); (20, 1)]
         [(0, 0); (7, 1); (30, 2)] true r →
    ∃ edges, r = Ok edges ∧
      @edges_of_sources _ _ line_nodes [(5, 0); (20, 1)] [(0, 0); (7, 1); (30, 2)] true edges.
Proof.
  apply (@C8_generateEdges_edges_of_sources _ _ line_nodes 2
           [(5, 0); (20, 1)] [(0, 0); (7, 1); (30, 2)] true).
  - apply line_nodes_strict_weak_order.
  - apply line_targets_distinguishable.
  - cbn. lia.
  - cbn. lia.
  - lia.
Defined.

(** C8 fails as stated: with the one target of index 4 there is no target
    left when the nearest is set aside, and the run in normal mode returns
    the edge (4, 4), from the nearest target to itself. *)
Lemma C8_counterexample :
  @generateEdges _ _ line_nodes 1 [(5, 0)] [(7, 4)] false (Ok [(4, 4)]) ∧
  ¬ @edges_of_sources _ _ line_nodes [(5, 0)] [(7, 4)] false [(4, 4)].
Proof.
  split.
  - apply line_run; [lia | reflexivity].
  - intros (per & Hlen & Hall & _).
    destruct per as [|es per]; [done|].
    destruct (Hall 0%nat (5, 0) es eq_refl eq_refl)
      as (p & q & n & s & _ & Hp & (x & Hq & Hskip & _) & _).
    apply lookup_lt_Some in Hp, Hq. cbn in Hp, Hq.
    apply Hskip. f_equal. lia.
Qed.

(** ** [generateWeights] and [generatePositions] *)

Lemma one_thread_chunks (env : omp_env) (n : nat) :
  omp_env_ok env → static_chunks env n 1 = [n].
Proof.
  intros Hok. destruct (Hok n 1%nat) as [Hsum Hlen].
  destruct (static_chunks env n 1) as [|k [|k' l]]; cbn in *; try lia.
  f_equal. lia.
Qed.

Lemma engine_seed_given (env : omp_env) (seed tid : Z) :
  0 ≤ seed → 0 ≤ tid → seed + tid < 2 ^ 31 → engine_seed env seed tid = Ok (seed + tid).
Proof.
  intros Hseed Htid Hsum. unfold engine_seed. destruct (Z.leb_spec 0 seed); [|lia].
  pose proof int_max_lt_uint_max.
  rewrite int_add_Ok by lia. cbn. by rewrite u32_small by lia.
Qed.

Lemma engine_seed_overflow (env : omp_env) (seed tid : Z) :
  0 ≤ seed → 2 ^ 31 ≤ seed + tid → engine_seed env seed tid = Undefined.
Proof.
  intros Hseed Hsum. unfold engine_seed. destruct (Z.leb_spec 0 seed); [|lia].
  by rewrite int_add_overflow.
Qed.

Lemma engine_seed_entropy (env : omp_env) (seed tid : Z) :
  seed < 0 → engine_seed env seed tid = Ok (random_device env tid).
Proof. intros. unfold engine_seed. destruct (Z.leb_spec 0 seed); [lia | done]. Qed.

(** With a seed that is not negative the environment is not asked for a
    seed. *)
Lemma engine_seed_env (env1 env2 : omp_env) (seed tid : Z) :
  0 ≤ seed → engine_seed env1 seed tid = engine_seed env2 seed tid.
Proof. intros. unfold engine_seed. destruct (Z.leb_spec 0 seed); [done | lia]. Qed.

Section SamplersProperties.
Context {double engine : Type} `{!SamplerModel double engine}.

(** A team of one thread draws everything from one engine. *)
Lemma sampler_team_one {A} (env : omp_env) (seed : Z) (draw : nat → engine → list A)
    (k : nat) :
  0 ≤ seed →
  sampler_team env seed draw 0 [k]
  = if seed <? 2 ^ 31 then Ok (draw k (seed_engine seed)) else Undefined.
Proof.
  intros Hseed. cbn [sampler_team]. change (Z.of_nat 0) with 0.
  destruct (Z.ltb_spec seed (2 ^ 31)).
  - rewrite engine_seed_given by lia. cbn. by rewrite Z.add_0_r, app_nil_r.
  - by rewrite engine_seed_overflow by lia.
Qed.

(** Without [parallel] and with a seed that is not negative,
    [generateWeights] draws all its numbers from one engine seeded with
    [weightSeed]. *)
Lemma generateWeights_serial (env : omp_env) (n : Z) (ple : double) (weightSeed : Z) :
  omp_env_ok env → 0 ≤ weightSeed →
  generateWeights env n ple weightSeed false =
    if n <? 0 then Thrown "std::length_error"%string
    else if weightSeed <? 2 ^ 31
         then Ok (draw_weights n ple (Z.to_nat n) (seed_engine weightSeed))
         else Undefined.
Proof.
  intros Hok Hseed. unfold generateWeights, sampler_threads.
  destruct (n <? 0); [done|].
  change (Z.to_nat 1) with 1%nat. rewrite (one_thread_chunks env _ Hok).
  by apply sampler_team_one.
Qed.

Lemma generatePositions_serial (env : omp_env) (n dimension positionSeed : Z) :
  omp_env_ok env → 0 ≤ positionSeed →
  generatePositions env n dimension positionSeed false =
    if (dimension <? 0) || (n <? 0) then Thrown "std::length_error"%string
    else if positionSeed <? 2 ^ 31
         then Ok (draw_positions (Z.to_nat dimension) (Z.to_nat n)
                    (seed_engine positionSeed))
         else Undefined.
Proof.
  intros Hok Hseed. unfold generatePositions, sampler_threads.
  destruct ((dimension <? 0) || (n <? 0)); [done|].
  change (Z.to_nat 1) with 1%nat. rewrite (one_thread_chunks env _ Hok).
  by apply sampler_team_one.
Qed.

Lemma length_draw_weights (n : Z) (ple : double) (k : nat) (gen : engine) :
  length (draw_weights n ple k gen) = k.
Proof.
  revert gen. induction k as [|k IH]; intros gen; cbn; [done|].
  destruct (uniform_real gen). cbn. by rewrite IH.
Qed.

(** C9: for every [n], [ple] and seed that is not negative, two runs of
    [generateWeights] on the same [(n, ple, seed, parallel = false)] return
    the same vector, whatever the number of threads available and whatever
    [std::random_device] would give in each run; and two runs of
    [generatePositions] on the same [(n, dimension, seed, parallel = false)]
    return the same vectors. *)
Theorem C9_samplers_deterministic (env1 env2 : omp_env) (n dimension : Z) (ple : double)
    (weightSeed positionSeed : Z) :
  omp_env_ok env1 → omp_env_ok env2 → 0 ≤ weightSeed → 0 ≤ positionSeed →
  generateWeights env1 n ple weightSeed false = generateWeights env2 n ple weightSeed false ∧
  generatePositions env1 n dimension positionSeed false
    = generatePositions env2 n dimension positionSeed false.
Proof.
  intros Hok1 Hok2 Hw Hp.
  by rewrite !generateWeights_serial, !generatePositions_serial.
Qed.

End SamplersProperties.

Lemma one_thread_env_ok (max_threads entropy : Z) : omp_env_ok (one_thread_env max_threads entropy).
Proof. intros n threads. cbn. lia. Qed.

(** With a negative seed the engines are seeded from [std::random_device],
    and two runs differ. *)
Lemma negative_seed_uses_entropy :
  @generatePositions _ _ lcg_sampler (one_thread_env 4 99) 1 1 (-1) false = Ok [[99]] ∧
  @generatePositions _ _ lcg_sampler (one_thread_env 4 12345) 1 1 (-1) false = Ok [[12345]].
Proof. split; reflexivity. Qed.

Lemma C9_samplers_deterministic_witness :
  @generateWeights _ _ lcg_sampler (one_thread_env 4 99) 3 2 5 false
    = @generateWeights _ _ lcg_sampler (one_thread_env 8 12345) 3 2 5 false ∧
  @generatePositions _ _ lcg_sampler (one_thread_env 4 99) 3 2 7 false
    = @generatePositions _ _ lcg_sampler (one_thread_env 8 12345) 3 2 7 false.
Proof.
  apply (@C9_samplers_deterministic _ _ lcg_sampler
           (one_thread_env 4 99) (one_thread_env 8 12345) 3 2 2 5 7).
  - apply one_thread_env_ok.
  - apply one_thread_env_ok.
  - lia.
  - lia.
Defined.

(** ** The constructor of [RadiusLayer] *)

Lemma sum_exclusive_prefix_sums (vals : list Z) (sum : Z) (i : nat) :
  Forall (λ v, 0 ≤ v) vals → 0 ≤ sum → sum + foldr Z.add 0 vals < 2 ^ 32 →
  (i < length vals)%nat →
  exclusive_prefix_sums vals sum !! i = Some (sum + foldr Z.add 0 (take i vals)).
Proof.
  intros Hpos. revert sum i.
  induction Hpos as [|v vals Hv Hpos IH]; intros sum i Hsum Hbound Hi; cbn in *; [lia|].
  destruct i as [|i]; cbn.
  - f_equal. lia.
  - assert (0 ≤ foldr Z.add 0 vals).
    { clear -Hpos. induction Hpos; cbn; lia. }
    rewrite u32_small by lia. rewrite IH by lia. f_equal. lia.
Qed.

Lemma length_exclusive_prefix_sums (vals : list Z) (sum : Z) :
  length (exclusive_prefix_sums vals sum) = length vals.
Proof. revert sum. induction vals as [|v vals IH]; intros sum; cbn; [done|]. by rewrite IH. Qed.

Section LayerCounts.
Context {Angle : Type} `{!CellHierarchy Angle}.
Variables (targetLevel : Z) (angles : list Angle).

Lemma nodes_where_cons (P : Z → bool) (node : Z) (nodes : list Z) :
  nodes_where targetLevel angles P (node :: nodes) =
    if cell_sat targetLevel angles P node
    then node :: nodes_where targetLevel angles P nodes
    else nodes_where targetLevel angles P nodes.
Proof.
  unfold nodes_where. rewrite filter_cons.
  destruct (cell_sat targetLevel angles P node); by case_decide.
Qed.

Lemma nodes_where_app (P : Z → bool) (l1 l2 : list Z) :
  nodes_where targetLevel angles P (l1 ++ l2) =
    nodes_where targetLevel angles P l1 ++ nodes_where targetLevel angles P l2.
Proof. apply filter_app. Qed.

Lemma occ_cons (c node : Z) (nodes : list Z) :
  occ targetLevel angles c (node :: nodes) =
    ((if cell_sat targetLevel angles (λ x, (x =? c)%Z) node then 1 else 0)
     + occ targetLevel angles c nodes)%nat.
Proof. unfold occ. rewrite nodes_where_cons. by destruct (cell_sat _ _ _ node). Qed.

Lemma occ_app (c : Z) (l1 l2 : list Z) :
  occ targetLevel angles c (l1 ++ l2)
  = (occ targetLevel angles c l1 + occ targetLevel angles c l2)%nat.
Proof. unfold occ. by rewrite nodes_where_app, length_app. Qed.

Lemma cell_sat_Some (P : Z → bool) (node cell : Z) :
  finest_cell targetLevel angles node = Some cell →
  cell_sat targetLevel angles P node = P cell.
Proof. unfold cell_sat. by intros ->. Qed.

(** The nodes below cell [c + 1] are those below [c] and those in [c]. *)
Lemma below_succ (c : Z) (nodes : list Z) :
  below targetLevel angles (c + 1) nodes
  = (below targetLevel angles c nodes + occ targetLevel angles c nodes)%nat.
Proof.
  unfold below, occ. induction nodes as [|node nodes IH]; [done|].
  rewrite !nodes_where_cons. unfold cell_sat.
  destruct (finest_cell targetLevel angles node) as [x|]; [|done].
  destruct (Z.ltb_spec x (c + 1)), (Z.ltb_spec x c), (Z.eqb_spec x c); cbn; lia.
Qed.

Lemma below_mono (c c' : Z) (nodes : list Z) :
  c ≤ c' → (below targetLevel angles c nodes ≤ below targetLevel angles c' nodes)%nat.
Proof.
  intros Hc. unfold below. induction nodes as [|node nodes IH]; [done|].
  rewrite !nodes_where_cons. unfold cell_sat.
  destruct (finest_cell targetLevel angles node) as [x|]; [|done].
  destruct (Z.ltb_spec x c), (Z.ltb_spec x c'); cbn; lia.
Qed.

Lemma below_le_length (c : Z) (nodes : list Z) :
  (below targetLevel angles c nodes ≤ length nodes)%nat.
Proof. apply length_filter. Qed.

Lemma below_app (c : Z) (l1 l2 : list Z) :
  below targetLevel angles c (l1 ++ l2)
  = (below targetLevel angles c l1 + below targetLevel angles c l2)%nat.
Proof. unfold below. by rewrite nodes_where_app, length_app. Qed.

End LayerCounts.

Section LayerConstructor.
Context {Angle Real Point : Type} `{!CellHierarchy Angle} `{!Inhabited Point}.
Variables (targetLevel : Z) (angles : list Angle) (points : list Point).

Lemma finest_cell_vec_at (node cell : Z) :
  finest_cell targetLevel angles node = Some cell →
  ∃ angle, vec_at angles node = Ok angle ∧ cellForPoint angle targetLevel = cell.
Proof.
  unfold finest_cell, vec_at. destruct (node <? 0); [done|].
  destruct (angles !! Z.to_nat node) as [angle|]; cbn; [|done].
  intros [= <-]. eauto.
Qed.

Lemma node_ok_point (node : Z) :
  node_ok targetLevel angles points node →
  vec_at points node = Ok (point_of points node).
Proof.
  intros (Hn & [pt Hpt] & _). unfold point_of. rewrite Hpt. by apply vec_at_lookup.
Qed.

Lemma below_first (nodes : list Z) :
  Forall (node_ok targetLevel angles points) nodes → below targetLevel angles 0 nodes = 0%nat.
Proof.
  unfold below. induction 1 as [|node nodes (_ & _ & cell & Hcell & Hrange) _ IH]; [done|].
  rewrite nodes_where_cons, (cell_sat_Some _ _ _ _ _ Hcell).
  destruct (Z.ltb_spec cell 0); [lia | done].
Qed.

Lemma below_last (c : Z) (nodes : list Z) :
  Forall (node_ok targetLevel angles points) nodes → numCellsInLevel targetLevel ≤ c →
  below targetLevel angles c nodes = length nodes.
Proof.
  intros Hok Hc. unfold below.
  induction Hok as [|node nodes (_ & _ & cell & Hcell & Hrange) _ IH]; [done|].
  rewrite nodes_where_cons, (cell_sat_Some _ _ _ _ _ Hcell).
  destruct (Z.ltb_spec cell c); [|lia]. cbn. by rewrite IH.
Qed.

(** The first loop adds to every counter the number of nodes of its cell. *)
Lemma count_points_counts (nodes : list Z) (ps : list Z) :
  Forall (node_ok targetLevel angles points) nodes →
  (Z.to_nat (numCellsInLevel targetLevel) ≤ length ps)%nat →
  (∀ i v, ps !! i = Some v → 0 ≤ v ∧ v + Z.of_nat (length nodes) < 2 ^ 32) →
  ∃ ps',
    count_points targetLevel (numCellsInLevel targetLevel) angles nodes ps = Ok ps' ∧
    length ps' = length ps ∧
    ∀ i, ps' !! i
         = (λ v, v + Z.of_nat (occ targetLevel angles (Z.of_nat i) nodes)) <$> ps !! i.
Proof.
  intros Hok. revert ps.
  induction Hok as [|node nodes Hnode Hok IH]; intros ps Hlen Hb.
  - exists ps. split; [done|]. split; [done|]. intros i.
    destruct (ps !! i); cbn; [|done]. f_equal. unfold occ. cbn. lia.
  - destruct Hnode as (Hn0 & _ & cell & Hcell & Hrange).
    destruct (finest_cell_vec_at _ _ Hcell) as (angle & Hangle & Hcfp).
    cbn [count_points]. rewrite Hangle. cbn [mbind outcome_bind]. rewrite Hcfp.
    assert ((cell <? numCellsInLevel targetLevel) = true) as -> by lia.
    cbn [cassert mbind outcome_bind].
    destruct (lookup_lt_is_Some_2 ps (Z.to_nat cell)) as [count Hcount]; [lia|].
    rewrite (vec_at_lookup ps cell count) by (lia || done). cbn [mbind outcome_bind].
    destruct (Hb _ _ Hcount) as [Hc0 Hcb]. cbn [length] in Hcb.
    pose proof (lookup_lt_Some _ _ _ Hcount) as Hcell_lt.
    rewrite u32_small by lia. rewrite vec_set_Ok by lia. cbn [mbind outcome_bind].
    destruct (IH (<[Z.to_nat cell := count + 1]> ps)) as (ps' & Hps' & Hlen' & Hall).
    + by rewrite length_insert.
    + intros i v Hi. destruct (decide (i = Z.to_nat cell)) as [->|Hne].
      * rewrite list_lookup_insert_eq in Hi by done. injection Hi as <-. lia.
      * rewrite list_lookup_insert_ne in Hi by done.
        destruct (Hb _ _ Hi). cbn [length] in *. lia.
    + exists ps'. split; [done|]. split; [by rewrite Hlen', length_insert|].
      intros i. rewrite Hall, occ_cons, (cell_sat_Some _ _ _ _ _ Hcell).
      destruct (decide (i = Z.to_nat cell)) as [->|Hne].
      * rewrite list_lookup_insert_eq, Hcount by done. cbn.
        rewrite Z2Nat.id, Z.eqb_refl by lia. f_equal. lia.
      * rewrite list_lookup_insert_ne by done. destruct (ps !! i); cbn; [|done].
        f_equal. destruct (Z.eqb_spec cell (Z.of_nat i)); lia.
Qed.

Lemma foldr_add_snoc (l : list Z) (x : Z) :
  foldr Z.add 0 (l ++ [x]) = foldr Z.add 0 l + x.
Proof. induction l as [|y l IH]; cbn; lia. Qed.

(** The sums of the counters are the numbers of nodes in the cells before. *)
Lemma sum_counts_below (nodes : list Z) (cnt : list Z) (i : nat) :
  Forall (node_ok targetLevel angles points) nodes →
  (∀ j, (j < length cnt)%nat →
     cnt !! j = Some (Z.of_nat (occ targetLevel angles (Z.of_nat j) nodes))) →
  (i ≤ length cnt)%nat →
  foldr Z.add 0 (take i cnt) = Z.of_nat (below targetLevel angles (Z.of_nat i) nodes).
Proof.
  intros Hok Hcnt. induction i as [|i IH]; intros Hi.
  - cbn. by rewrite below_first.
  - rewrite (take_S_r cnt i _ (Hcnt i ltac:(lia))), foldr_add_snoc, IH by lia.
    replace (Z.of_nat (S i)) with (Z.of_nat i + 1) by lia.
    rewrite below_succ. lia.
Qed.

End LayerConstructor.

Section LayerFill.
Context {Angle Real Point : Type} `{!CellHierarchy Angle} `{!Inhabited Point}.
Variables (targetLevel : Z) (angles : list Angle) (points : list Point).

Lemma fill_points_places (rest placed all : list Z) (m_points : list Point)
    (num_inserted prefix_sums : list Z) :
  all = placed ++ rest →
  Forall (node_ok targetLevel angles points) all →
  Z.of_nat (length all) < 2 ^ 31 →
  (∀ i, (i ≤ Z.to_nat (numCellsInLevel targetLevel))%nat →
     prefix_sums !! i = Some (Z.of_nat (below targetLevel angles (Z.of_nat i) all))) →
  length m_points = length all →
  (∀ i, (i < Z.to_nat (numCellsInLevel targetLevel))%nat →
     num_inserted !! i = Some (Z.of_nat (occ targetLevel angles (Z.of_nat i) placed))) →
  placed_in targetLevel angles points all placed m_points →
  ∃ m_points',
    fill_points targetLevel angles points prefix_sums rest m_points num_inserted
      = Ok m_points' ∧
    length m_points' = length all ∧ placed_in targetLevel angles points all all m_points'.
Proof.
  revert placed m_points num_inserted.
  induction rest as [|node rest IH]; intros placed m_points num_inserted
    Hall Hok Hsize Hps Hlen Hni Hplaced.
  - exists m_points. rewrite app_nil_r in Hall. subst all. done.
  - assert (node_ok targetLevel angles points node) as Hnode.
    { rewrite Forall_forall in Hok. apply Hok. subst all.
      apply elem_of_app. right. by left. }
    pose proof (node_ok_point _ _ _ node Hnode) as Hpoint.
    destruct Hnode as (Hn0 & _ & cell & Hcell & Hrange).
    destruct (finest_cell_vec_at _ _ _ _ Hcell) as (angle & Hangle & Hcfp).
    pose proof int_max_lt_uint_max as Hmax.
    pose proof (below_succ targetLevel angles cell all) as Hsucc.
    pose proof (below_le_length targetLevel angles (cell + 1) all) as Hle.
    assert (occ targetLevel angles cell all
            = (occ targetLevel angles cell placed + 1
               + occ targetLevel angles cell rest)%nat) as Hocc.
    { subst all. rewrite occ_app, occ_cons, (cell_sat_Some _ _ _ _ _ Hcell), Z.eqb_refl. lia. }
    cbn [fill_points]. rewrite Hangle. cbn [mbind outcome_bind]. rewrite Hcfp, Hpoint.
    cbn [mbind outcome_bind].
    rewrite (vec_at_lookup prefix_sums cell _ ltac:(lia) (Hps (Z.to_nat cell) ltac:(lia))).
    cbn [mbind outcome_bind].
    rewrite (vec_at_lookup num_inserted cell _ ltac:(lia) (Hni (Z.to_nat cell) ltac:(lia))).
    cbn [mbind outcome_bind]. rewrite !Z2Nat.id by lia.
    rewrite u32_small by lia. rewrite (vec_set_Ok m_points) by lia.
    cbn [mbind outcome_bind].
    rewrite (vec_set_Ok num_inserted)
      by (pose proof (lookup_lt_Some _ _ _ (Hni (Z.to_nat cell) ltac:(lia))); lia).
    cbn [mbind outcome_bind].
    replace (Z.to_nat (Z.of_nat (below targetLevel angles cell all)
                       + Z.of_nat (occ targetLevel angles cell placed)))
      with (below targetLevel angles cell all + occ targetLevel angles cell placed)%nat
      by lia.
    apply (IH (placed ++ [node])).
    + by rewrite <- app_assoc.
    + done.
    + done.
    + done.
    + by rewrite length_insert.
    + intros i Hi. rewrite occ_app, occ_cons, (cell_sat_Some _ _ _ _ _ Hcell).
      destruct (decide (i = Z.to_nat cell)) as [->|Hne].
      * rewrite list_lookup_insert_eq
          by (pose proof (lookup_lt_Some _ _ _ (Hni (Z.to_nat cell) ltac:(lia))); lia).
        rewrite Z2Nat.id, Z.eqb_refl by lia. f_equal.
        change (occ targetLevel angles cell []) with 0%nat. lia.
      * rewrite list_lookup_insert_ne by done. rewrite (Hni i Hi). f_equal.
        destruct (Z.eqb_spec cell (Z.of_nat i)); [lia|].
        change (occ targetLevel angles (Z.of_nat i) []) with 0%nat. lia.
    + intros c j node' Hj. rewrite nodes_where_app in Hj.
      apply lookup_app_Some in Hj as [Hj | [Hge Hj]].
      * rewrite list_lookup_insert_ne; [by apply Hplaced|].
        apply lookup_lt_Some in Hj. fold (occ targetLevel angles c placed) in Hj.
        assert (occ targetLevel angles c placed ≤ occ targetLevel angles c all)%nat
          by (subst all; rewrite occ_app; lia).
        pose proof (below_succ targetLevel angles c all).
        destruct (Z.lt_trichotomy c cell) as [Hlt | [-> | Hgt]]; [|lia|].
        -- pose proof (below_mono targetLevel angles (c + 1) cell all ltac:(lia)). lia.
        -- pose proof (below_mono targetLevel angles (cell + 1) c all ltac:(lia)). lia.
      * rewrite nodes_where_cons, (cell_sat_Some _ _ _ _ _ Hcell) in Hj.
        fold (occ targetLevel angles c placed) in Hj, Hge.
        destruct (Z.eqb_spec cell c) as [<-|]; [|done].
        apply list_lookup_singleton_Some in Hj as [Hj <-].
        replace j with (occ targetLevel angles cell placed) by lia.
        apply list_lookup_insert_eq. lia.
Qed.

End LayerFill.

Section LayerLayout.
Context {Angle Real Point : Type} `{!CellHierarchy Angle} `{!Inhabited Point}.

Lemma RadiusLayer_new_layer (r_min r_max : Real) (targetLevel : Z) (nodes : list Z)
    (angles : list Angle) (points : list Point) :
  layer_input_ok targetLevel nodes angles points →
  ∃ rl, RadiusLayer_new r_min r_max targetLevel nodes angles points = Ok rl ∧
        layer_of targetLevel nodes angles points rl.
Proof.
  intros (HK0 & HK & Hsize & Hok). unfold RadiusLayer_new.
  pose proof int_max_lt_uint_max as Hmax.
  set (K := numCellsInLevel targetLevel) in *.
  rewrite u32_small by lia.
  destruct (count_points_counts targetLevel angles points nodes
              (replicate (Z.to_nat (K + 1)) 0) Hok) as (cnt & Hcnt & Hlen & Hocc).
  { rewrite length_replicate. lia. }
  { intros i v Hi. apply lookup_replicate in Hi as [-> _]. lia. }
  fold K in Hcnt. rewrite Hcnt. cbn [mbind outcome_bind].
  rewrite length_replicate in Hlen.
  assert (∀ j, (j < length cnt)%nat →
            cnt !! j = Some (Z.of_nat (occ targetLevel angles (Z.of_nat j) nodes))) as Hcnt'.
  { intros j Hj. by rewrite Hocc, lookup_replicate_2 by lia. }
  assert (Forall (λ v, 0 ≤ v) cnt) as Hpos.
  { apply Forall_lookup. intros j v Hj.
    rewrite (Hcnt' j) in Hj by (by eapply lookup_lt_Some). injection Hj as <-. lia. }
  assert (∀ i, (i ≤ Z.to_nat K)%nat →
            exclusive_prefix_sums cnt 0 !! i
            = Some (Z.of_nat (below targetLevel angles (Z.of_nat i) nodes))) as Hps.
  { intros i Hi. rewrite sum_exclusive_prefix_sums; try done; try lia.
    - f_equal. rewrite (sum_counts_below targetLevel angles points nodes) by (done || lia). lia.
    - rewrite <- (take_ge cnt (length cnt)) by lia.
      rewrite (sum_counts_below targetLevel angles points nodes) by (done || lia).
      pose proof (below_le_length targetLevel angles (Z.of_nat (length cnt)) nodes). lia. }
  unfold vec_back. rewrite length_exclusive_prefix_sums, Hlen.
  rewrite (vec_at_lookup _ _ (Z.of_nat (length nodes))); [|lia|].
  2:{ replace (Z.to_nat (Z.of_nat (Z.to_nat (K + 1)) - 1)) with (Z.to_nat K) by lia.
      rewrite Hps, Z2Nat.id by lia.
      by rewrite (below_last targetLevel angles points) by (done || lia). }
  cbn [mbind outcome_bind]. rewrite Nat2Z.id.
  assert (placed_in targetLevel angles points nodes []
            (replicate (length nodes) inhabitant)) as Hnone.
  { intros c j node Hj. done. }
  assert (∀ i, (i < Z.to_nat K)%nat →
            replicate (Z.to_nat K) 0 !! i
            = Some (Z.of_nat (occ targetLevel angles (Z.of_nat i) []))) as Hni.
  { intros i Hi. by rewrite lookup_replicate_2. }
  destruct (fill_points_places targetLevel angles points nodes [] nodes
              (replicate (length nodes) inhabitant) (replicate (Z.to_nat K) 0)
              (exclusive_prefix_sums cnt 0) eq_refl Hok Hsize Hps
              (length_replicate _ _) Hni Hnone) as (m_points' & Hfill & Hlen' & Hplaced).
  fold K. rewrite Hfill. cbn [mbind outcome_bind]. eexists. split; [done|].
  unfold layer_of. cbn. fold K.
  rewrite length_exclusive_prefix_sums, Hlen. split; [done|]. split; [lia|]. done.
Qed.

End LayerLayout.

(** ** Ranges of cells *)

Lemma slice_app {A} (a b c : Z) (v : list A) :
  0 ≤ a ≤ b → b ≤ c → slice a c v = slice a b v ++ slice b c v.
Proof.
  intros Hab Hbc. unfold slice.
  replace (Z.to_nat (c - a)) with (Z.to_nat (b - a) + Z.to_nat (c - b))%nat by lia.
  rewrite <- take_take_drop, drop_drop. do 3 f_equal. lia.
Qed.

Lemma slice_empty {A} (a : Z) (v : list A) : slice a a v = [].
Proof. unfold slice. by rewrite Z.sub_diag. Qed.

Lemma slice_lookup {A} (a b : Z) (v : list A) (k : nat) :
  0 ≤ a → (k < Z.to_nat (b - a))%nat → slice a b v !! k = v !! (Z.to_nat a + k)%nat.
Proof. intros Ha Hk. unfold slice. by rewrite lookup_take_lt, lookup_drop by done. Qed.

Lemma length_slice {A} (a b : Z) (v : list A) :
  0 ≤ a ≤ b → b ≤ Z.of_nat (length v) → length (slice a b v) = Z.to_nat (b - a).
Proof. intros Ha Hb. unfold slice. rewrite length_take, length_drop. lia. Qed.

Section CellRanges.
Context {Angle Real Point : Type} `{!CellHierarchy Angle} `{!Inhabited Point}.
Variables (targetLevel : Z) (angles : list Angle) (points : list Point).

Lemma nodes_where_ext (P Q : Z → bool) (nodes : list Z) :
  (∀ x, P x = Q x) →
  nodes_where targetLevel angles P nodes = nodes_where targetLevel angles Q nodes.
Proof.
  intros Hext. induction nodes as [|node nodes IH]; [done|].
  rewrite !nodes_where_cons, IH. unfold cell_sat.
  destruct (finest_cell targetLevel angles node); [|done]. by rewrite Hext.
Qed.

Lemma nodes_where_none (P : Z → bool) (nodes : list Z) :
  (∀ x, P x = false) → nodes_where targetLevel angles P nodes = [].
Proof.
  intros Hnone. induction nodes as [|node nodes IH]; [done|].
  rewrite nodes_where_cons, IH. unfold cell_sat.
  destruct (finest_cell targetLevel angles node); [|done]. by rewrite Hnone.
Qed.

(** The nodes below [b] are those below [a] and those from [a] up to [b]. *)
Lemma below_range (a b : Z) (nodes : list Z) :
  a ≤ b →
  below targetLevel angles b nodes
  = (below targetLevel angles a nodes
     + length (nodes_where targetLevel angles (in_range a b) nodes))%nat.
Proof.
  intros Hab. unfold below. induction nodes as [|node nodes IH]; [done|].
  rewrite !nodes_where_cons. unfold cell_sat.
  destruct (finest_cell targetLevel angles node) as [x|]; [|done].
  change (in_range a b x) with ((a <=? x) && (x <? b)).
  destruct (Z.ltb_spec x b), (Z.ltb_spec x a), (Z.leb_spec a x); cbn; lia.
Qed.

Lemma nodes_where_range_succ (a b : Z) (nodes : list Z) :
  a ≤ b →
  nodes_where targetLevel angles (in_range a (b + 1)) nodes
  ≡ₚ nodes_where targetLevel angles (in_range a b) nodes
     ++ nodes_where targetLevel angles (λ x, x =? b) nodes.
Proof.
  intros Hab. induction nodes as [|node nodes IH]; [done|].
  rewrite !nodes_where_cons. unfold cell_sat.
  destruct (finest_cell targetLevel angles node) as [x|]; [|done].
  change (in_range a (b + 1) x) with ((a <=? x) && (x <? b + 1)).
  change (in_range a b x) with ((a <=? x) && (x <? b)).
  destruct (Z.ltb_spec x (b + 1)), (Z.ltb_spec x b), (Z.leb_spec a x), (Z.eqb_spec x b);
    cbn; try lia; try done.
  - by rewrite IH.
  - rewrite IH. apply Permutation_middle.
Qed.

(** The points of one cell, as they lie in the point lookup. *)
Lemma cell_slice (nodes : list Z) (m_points : list Point) (c : Z) :
  placed_in targetLevel angles points nodes nodes m_points →
  length m_points = length nodes →
  slice (Z.of_nat (below targetLevel angles c nodes))
        (Z.of_nat (below targetLevel angles (c + 1) nodes)) m_points
  = point_of points <$> nodes_where targetLevel angles (λ x, x =? c) nodes.
Proof.
  intros Hplaced Hlen. apply list_eq. intros j.
  pose proof (below_succ targetLevel angles c nodes) as Hsucc.
  pose proof (below_le_length targetLevel angles (c + 1) nodes) as Hle.
  unfold occ in Hsucc. rewrite list_lookup_fmap.
  destruct (nodes_where targetLevel angles (λ x, x =? c) nodes !! j) as [node|] eqn:Hj.
  - pose proof (lookup_lt_Some _ _ _ Hj).
    rewrite slice_lookup by lia. rewrite Nat2Z.id. cbn. by apply Hplaced.
  - apply lookup_ge_None in Hj. apply lookup_ge_None.
    rewrite length_slice by lia. lia.
Qed.

(** The points of a range of cells. *)
Lemma range_slice (nodes : list Z) (m_points : list Point) (a : Z) (m : nat) :
  placed_in targetLevel angles points nodes nodes m_points →
  length m_points = length nodes →
  slice (Z.of_nat (below targetLevel angles a nodes))
        (Z.of_nat (below targetLevel angles (a + Z.of_nat m) nodes)) m_points
  ≡ₚ point_of points
       <$> nodes_where targetLevel angles (in_range a (a + Z.of_nat m)) nodes.
Proof.
  intros Hplaced Hlen. induction m as [|m IH].
  - rewrite Z.add_0_r, slice_empty, nodes_where_none; [done|].
    intros x. unfold in_range. lia.
  - replace (a + Z.of_nat (S m)) with (a + Z.of_nat m + 1) by lia.
    pose proof (below_mono targetLevel angles a (a + Z.of_nat m) nodes ltac:(lia)).
    pose proof (below_mono targetLevel angles (a + Z.of_nat m) (a + Z.of_nat m + 1) nodes
                  ltac:(lia)).
    rewrite (slice_app _ (Z.of_nat (below targetLevel angles (a + Z.of_nat m) nodes)))
      by lia.
    rewrite IH, (cell_slice nodes m_points (a + Z.of_nat m) Hplaced Hlen).
    rewrite nodes_where_range_succ by lia. by rewrite fmap_app.
Qed.

End CellRanges.

(** ** [pointsInCell] and [kthPoint] *)

Lemma cassert_true (b : bool) : b = true → cassert b = Ok ().
Proof. by intros ->. Qed.

Section LayerQueries.
Context {Angle Real Point : Type} `{!CellHierarchy Angle} `{!Inhabited Point}.
Variables (targetLevel : Z) (angles : list Angle) (points : list Point).

Lemma firstCellOfLevel_mono (n : nat) (a : Z) :
  balanced_hierarchy targetLevel → 0 ≤ a → a + Z.of_nat n ≤ targetLevel + 1 →
  firstCellOfLevel a ≤ firstCellOfLevel (a + Z.of_nat n).
Proof.
  intros (_ & _ & _ & Hlevels). induction n as [|n IH]; intros Ha Hn.
  - by rewrite Z.add_0_r.
  - destruct (Hlevels (a + Z.of_nat n)) as (Hcells & _ & Hnext); [lia|].
    replace (a + Z.of_nat (S n)) with (a + Z.of_nat n + 1) by lia.
    rewrite Hnext. specialize (IH Ha). lia.
Qed.

(** The block of descendants of a cell lies in the target level. *)
Lemma block_in_level (cell level : Z) :
  balanced_hierarchy targetLevel → 0 ≤ level ≤ targetLevel →
  firstCellOfLevel level ≤ cell < firstCellOfLevel (level + 1) →
  let block := numCellsInLevel (targetLevel - level) in
  let first := (cell - firstCellOfLevel level) * block in
  1 ≤ block ∧ 0 ≤ first ∧ first + block ≤ numCellsInLevel targetLevel ∧
  cell - firstCellOfLevel level < numCellsInLevel targetLevel ∧
  0 ≤ firstCellOfLevel level ∧
  firstCellOfLevel level + numCellsInLevel targetLevel ≤ firstCellOfLevel (targetLevel + 1).
Proof.
  intros Hbal HL Hc. pose proof Hbal as (Hf0 & _ & _ & Hlevels).
  destruct (Hlevels level HL) as (HnL & Hmul & Hnext).
  destruct (Hlevels (targetLevel - level)) as (Hblock & _ & _); [lia|].
  destruct (Hlevels targetLevel) as (_ & _ & HnextT); [lia|].
  pose proof (firstCellOfLevel_mono (Z.to_nat level) 0 Hbal) as Hm0.
  pose proof (firstCellOfLevel_mono (Z.to_nat (targetLevel - level)) level Hbal) as HmT.
  rewrite Z.add_0_l, Z2Nat.id in Hm0 by lia.
  replace (level + Z.of_nat (Z.to_nat (targetLevel - level))) with targetLevel in HmT by lia.
  cbn zeta. repeat split; try lia; try nia.
Qed.

(** Every cell of a balanced hierarchy can be asked for. *)
Lemma balanced_block (cell level : Z) :
  balanced_hierarchy targetLevel → 0 ≤ level ≤ targetLevel →
  firstCellOfLevel level ≤ cell < firstCellOfLevel (level + 1) →
  block_in_target_level targetLevel cell level.
Proof.
  intros Hbal HL Hc.
  destruct (block_in_level cell level Hbal HL Hc)
    as (Hblock & Hfirst & Hlast & Hlocal & HfL & HfT).
  pose proof Hbal as (_ & HfT32 & HT32 & _).
  unfold block_in_target_level. repeat split; lia.
Qed.

(** [pointsInCell] counts the nodes whose cell lies in the block of
    [cell]. *)
Lemma pointsInCell_block (nodes : list Z) (rl : RadiusLayer Real Point) (cell level : Z) :
  layer_input_ok targetLevel nodes angles points →
  layer_of targetLevel nodes angles points rl →
  block_in_target_level targetLevel cell level →
  pointsInCell rl cell level
  = Ok (Z.of_nat (length (nodes_where targetLevel angles
                            (descends targetLevel cell level) nodes))).
Proof.
  intros (HK0 & HK & Hsize & Hok) (HT & Hlenps & Hps & Hlenmp & Hplaced)
    (HL & HT32 & HfL & Hc & Hblock & Hlast & HfT & HfT32).
  pose proof int_max_lt_uint_max as Hmax.
  rewrite (nodes_where_ext targetLevel angles _
             (in_range ((cell - firstCellOfLevel level) * numCellsInLevel (targetLevel - level))
                ((cell - firstCellOfLevel level) * numCellsInLevel (targetLevel - level)
                 + numCellsInLevel (targetLevel - level)))) by done.
  unfold pointsInCell. rewrite HT.
  set (block := numCellsInLevel (targetLevel - level)) in *.
  assert (0 ≤ cell - firstCellOfLevel level < numCellsInLevel targetLevel) as Hlocal by nia.
  assert (0 ≤ (cell - firstCellOfLevel level) * block) as Hfirst by nia.
  rewrite (u32_small (level + 1)), (u32_small (targetLevel - level)),
    (u32_small (targetLevel + 1)), (u32_small (cell - firstCellOfLevel level)) by lia.
  fold block.
  set (first := (cell - firstCellOfLevel level) * block) in *.
  rewrite (u32_small first) by lia.
  rewrite (u32_small (first + block - 1)) by lia.
  rewrite (u32_small (first + firstCellOfLevel level)) by lia.
  rewrite (u32_small (first + block - 1 + firstCellOfLevel level)) by lia.
  rewrite (u32_small (first + block - 1 + 1)) by lia.
  rewrite !cassert_true
    by (rewrite ?andb_true_iff, ?Z.leb_le, ?Z.ltb_lt; lia).
  cbn [mbind outcome_bind].
  rewrite (vec_at_lookup (m_prefix_sums rl) (first + block - 1) _ ltac:(lia)
             (Hps (Z.to_nat (first + block - 1)) ltac:(lia))).
  cbn [mbind outcome_bind].
  rewrite (vec_at_lookup (m_prefix_sums rl) first _ ltac:(lia)
             (Hps (Z.to_nat first) ltac:(lia))).
  cbn [mbind outcome_bind].
  rewrite (vec_at_lookup (m_prefix_sums rl) (first + block - 1 + 1) _ ltac:(lia)
             (Hps (Z.to_nat (first + block - 1 + 1)) ltac:(lia))).
  cbn [mbind outcome_bind]. rewrite !Z2Nat.id by lia.
  replace (first + block - 1 + 1) with (first + block) by lia.
  pose proof (below_range targetLevel angles first (first + block) nodes ltac:(lia)) as Hr.
  pose proof (below_mono targetLevel angles first (first + block - 1) nodes ltac:(lia)).
  pose proof (below_mono targetLevel angles (first + block - 1) (first + block) nodes
                ltac:(lia)).
  pose proof (below_le_length targetLevel angles (first + block) nodes).
  rewrite !u32_small by lia. rewrite to_int_small by lia. f_equal. lia.
Qed.

(** [pointsInCell] counts the nodes whose cell descends from [cell]. *)
Lemma pointsInCell_count (nodes : list Z) (rl : RadiusLayer Real Point) (cell level : Z) :
  layer_input_ok targetLevel nodes angles points →
  balanced_hierarchy targetLevel →
  layer_of targetLevel nodes angles points rl →
  0 ≤ level ≤ targetLevel →
  firstCellOfLevel level ≤ cell < firstCellOfLevel (level + 1) →
  pointsInCell rl cell level
  = Ok (Z.of_nat (length (nodes_where targetLevel angles
                            (descends targetLevel cell level) nodes))).
Proof.
  intros Hin Hbal Hlayer HL Hc.
  apply pointsInCell_block; [done | done | by apply balanced_block].
Qed.

(** [kthPoint] reads the point lookup from the first point of the block. *)
Lemma kthPoint_lookup (nodes : list Z) (rl : RadiusLayer Real Point) (cell level : Z)
    (k : nat) (p : Point) :
  layer_input_ok targetLevel nodes angles points →
  balanced_hierarchy targetLevel →
  layer_of targetLevel nodes angles points rl →
  0 ≤ level ≤ targetLevel →
  firstCellOfLevel level ≤ cell < firstCellOfLevel (level + 1) →
  let block := numCellsInLevel (targetLevel - level) in
  let first := (cell - firstCellOfLevel level) * block in
  slice (Z.of_nat (below targetLevel angles first nodes))
        (Z.of_nat (below targetLevel angles (first + block) nodes)) (m_points rl) !! k
    = Some p →
  kthPoint rl cell level (Z.of_nat k) = Ok p.
Proof.
  intros (HK0 & HK & Hsize & Hok) Hbal (HT & Hlenps & Hps & Hlenmp & Hplaced) HL Hc.
  destruct (block_in_level cell level Hbal HL Hc)
    as (Hblock & Hfirst & Hlast & Hlocal & HfL & HfT).
  pose proof Hbal as (_ & HfT32 & HT32 & _).
  pose proof int_max_lt_uint_max as Hmax.
  cbn zeta. intros Hk.
  set (block := numCellsInLevel (targetLevel - level)) in *.
  set (first := (cell - firstCellOfLevel level) * block) in *.
  pose proof (below_mono targetLevel angles first (first + block) nodes ltac:(lia)).
  pose proof (below_le_length targetLevel angles (first + block) nodes).
  pose proof (lookup_lt_Some _ _ _ Hk) as Hklt.
  rewrite length_slice in Hklt by lia.
  rewrite slice_lookup in Hk by lia. rewrite Nat2Z.id in Hk.
  unfold kthPoint. rewrite HT.
  rewrite (u32_small (level + 1)), (u32_small (targetLevel - level)),
    (u32_small (cell - firstCellOfLevel level)) by lia.
  fold block. fold first. rewrite (u32_small first) by lia.
  rewrite !cassert_true
    by (rewrite ?andb_true_iff, ?Z.leb_le, ?Z.ltb_lt; lia).
  cbn [mbind outcome_bind].
  rewrite (vec_at_lookup (m_prefix_sums rl) first _ ltac:(lia)
             (Hps (Z.to_nat first) ltac:(lia))).
  cbn [mbind outcome_bind]. rewrite Z2Nat.id by lia.
  rewrite u32_small by lia. apply vec_at_lookup; [lia|].
  rewrite <- Hk. f_equal. lia.
Qed.

End LayerQueries.

Section LayerClaims.
Context {Angle Real Point : Type} `{!CellHierarchy Angle} `{!Inhabited Point}.

(** C2: the constructor, given nodes whose cells all lie in
    [0, numCellsInLevel(target_level)) (and that have an angle and a point,
    in numbers that fit the counters), returns a layer in which
    [prefix_sums] has [numCellsInLevel(target_level) + 1] entries, starts
    with 0, does not decrease, and ends with the number of points, and in
    which, for every cell [c], [points[prefix_sums[c] .. prefix_sums[c+1])]
    holds exactly the points of the nodes of cell [c], in the order of
    the input. *)
Theorem C2_RadiusLayer_prefix_sums_invariant (r_min r_max : Real) (targetLevel : Z)
    (nodes : list Z) (angles : list Angle) (points : list Point) :
  layer_input_ok targetLevel nodes angles points →
  ∃ rl, RadiusLayer_new r_min r_max targetLevel nodes angles points = Ok rl ∧
    Z.of_nat (length (m_prefix_sums rl)) = numCellsInLevel targetLevel + 1 ∧
    m_prefix_sums rl !! 0%nat = Some 0 ∧
    (∀ i j a b, (i ≤ j)%nat → m_prefix_sums rl !! i = Some a →
       m_prefix_sums rl !! j = Some b → a ≤ b) ∧
    last (m_prefix_sums rl) = Some (Z.of_nat (length nodes)) ∧
    length (m_points rl) = length nodes ∧
    ∀ c, 0 ≤ c < numCellsInLevel targetLevel →
      ∃ from to,
        vec_at (m_prefix_sums rl) c = Ok from ∧
        vec_at (m_prefix_sums rl) (c + 1) = Ok to ∧
        slice from to (m_points rl)
        = point_of points <$> nodes_where targetLevel angles (λ x, x =? c) nodes.
Proof.
  intros Hin.
  destruct (RadiusLayer_new_layer r_min r_max targetLevel nodes angles points Hin)
    as (rl & Hnew & HT & Hlenps & Hps & Hlenmp & Hplaced).
  destruct Hin as (HK0 & HK & Hsize & Hok).
  exists rl. split; [done|]. split; [done|]. split; [|split; [|split; [|split]]].
  - rewrite (Hps 0%nat) by lia. cbn. by rewrite (below_first targetLevel angles points).
  - intros i j a b Hij Hi Hj.
    pose proof (lookup_lt_Some _ _ _ Hj).
    rewrite Hps in Hi, Hj by lia. injection Hi as <-. injection Hj as <-.
    pose proof (below_mono targetLevel angles (Z.of_nat i) (Z.of_nat j) nodes). lia.
  - rewrite last_lookup.
    replace (pred (length (m_prefix_sums rl))) with (Z.to_nat (numCellsInLevel targetLevel))
      by lia.
    rewrite Hps, Z2Nat.id by lia.
    by rewrite (below_last targetLevel angles points) by (done || lia).
  - done.
  - intros c Hc.
    exists (Z.of_nat (below targetLevel angles c nodes)),
           (Z.of_nat (below targetLevel angles (c + 1) nodes)).
    split; [|split].
    + apply vec_at_lookup; [lia|]. rewrite Hps, Z2Nat.id by lia. done.
    + apply vec_at_lookup; [lia|]. rewrite Hps, Z2Nat.id by lia. done.
    + by apply cell_slice.
Qed.

(** The general part of C3. *)
Lemma pointsInCell_descendants (r_min r_max : Real) (targetLevel : Z) (nodes : list Z)
    (angles : list Angle) (points : list Point) (rl : RadiusLayer Real Point)
    (cell level : Z) :
  layer_input_ok targetLevel nodes angles points →
  RadiusLayer_new r_min r_max targetLevel nodes angles points = Ok rl →
  block_in_target_level targetLevel cell level →
  pointsInCell rl cell level
  = Ok (Z.of_nat (length (nodes_where targetLevel angles
                            (descends targetLevel cell level) nodes))).
Proof.
  intros Hin Hnew Hblock.
  destruct (RadiusLayer_new_layer r_min r_max targetLevel nodes angles points Hin)
    as (rl' & Hnew' & Hlayer).
  rewrite Hnew in Hnew'. injection Hnew' as <-.
  by apply (pointsInCell_block targetLevel angles points nodes).
Qed.

(** C6: for every layer the constructor returns, every level up to the
    target level and every cell [c] of that level, the values
    [kthPoint(c, L, k)] for [0 <= k < pointsInCell(c, L)] are, each as often
    as it occurs, the points of the nodes whose finest-level cell descends
    from [c]. *)
Theorem C6_kthPoint_enumerates_descendants (r_min r_max : Real) (targetLevel : Z)
    (nodes : list Z) (angles : list Angle) (points : list Point)
    (rl : RadiusLayer Real Point) (cell level : Z) :
  layer_input_ok targetLevel nodes angles points →
  balanced_hierarchy targetLevel →
  RadiusLayer_new r_min r_max targetLevel nodes angles points = Ok rl →
  0 ≤ level ≤ targetLevel →
  firstCellOfLevel level ≤ cell < firstCellOfLevel (level + 1) →
  ∃ pts,
    pointsInCell rl cell level = Ok (Z.of_nat (length pts)) ∧
    (∀ k p, pts !! k = Some p → kthPoint rl cell level (Z.of_nat k) = Ok p) ∧
    pts ≡ₚ point_of points
             <$> nodes_where targetLevel angles (descends targetLevel cell level) nodes.
Proof.
  intros Hin Hbal Hnew HL Hc.
  destruct (RadiusLayer_new_layer r_min r_max targetLevel nodes angles points Hin)
    as (rl' & Hnew' & Hlayer).
  rewrite Hnew in Hnew'. injection Hnew' as <-.
  destruct (block_in_level targetLevel cell level Hbal HL Hc)
    as (Hblock & Hfirst & Hlast & _).
  set (block := numCellsInLevel (targetLevel - level)) in *.
  set (first := (cell - firstCellOfLevel level) * block) in *.
  assert (nodes_where targetLevel angles (descends targetLevel cell level) nodes
          = nodes_where targetLevel angles (in_range first (first + block)) nodes) as Hdesc
    by (by apply nodes_where_ext).
  pose proof (below_range targetLevel angles first (first + block) nodes ltac:(lia)) as Hr.
  pose proof (below_le_length targetLevel angles (first + block) nodes) as Hle.
  pose proof Hlayer as (_ & _ & _ & Hlenmp & Hplaced).
  exists (slice (Z.of_nat (below targetLevel angles first nodes))
                (Z.of_nat (below targetLevel angles (first + block) nodes)) (m_points rl)).
  split; [|split].
  - rewrite (pointsInCell_count targetLevel angles points nodes) by done.
    rewrite Hdesc, length_slice by lia. f_equal. lia.
  - intros k p Hk. by apply (kthPoint_lookup targetLevel angles points nodes).
  - rewrite Hdesc.
    replace (first + block) with (first + Z.of_nat (Z.to_nat block)) by lia.
    by apply range_slice.
Qed.

End LayerClaims.

(** *** A layer over the binary hierarchy, and the scenario *)

Lemma binary_balanced : balanced_hierarchy (CellHierarchy0 := binary_hierarchy) 2.
Proof.
  unfold balanced_hierarchy. cbn. split; [lia|]. split; [lia|]. split; [lia|].
  intros L HL. assert (L = 0 ∨ L = 1 ∨ L = 2) as [-> | [-> | ->]] by lia; cbn; lia.
Qed.

Lemma binary_input_ok :
  layer_input_ok (CellHierarchy0 := binary_hierarchy) 2
    [3; 0; 2; 1] [100; 200; 10; 20] [10; 11; 12; 13].
Proof.
  unfold layer_input_ok. split; [cbn; lia|]. split; [cbn; lia|]. split; [cbn; lia|].
  repeat (constructor;
          [split; [lia | split; [by eexists | eexists; split; [reflexivity | by vm_compute]]] |]).
  constructor.
Qed.

Lemma C2_RadiusLayer_prefix_sums_invariant_witness :
  ∃ rl,
    RadiusLayer_new (CellHierarchy0 := binary_hierarchy) () () 2
      [3; 0; 2; 1] [100; 200; 10; 20] [10; 11; 12; 13] = Ok rl ∧
    Z.of_nat (length (m_prefix_sums rl)) = 2 ^ 2 + 1 ∧
    m_prefix_sums rl !! 0%nat = Some 0 ∧
    (∀ i j a b, (i ≤ j)%nat → m_prefix_sums rl !! i = Some a →
       m_prefix_sums rl !! j = Some b → a ≤ b) ∧
    last (m_prefix_sums rl) = Some (Z.of_nat (length [3; 0; 2; 1])) ∧
    length (m_points rl) = length [3; 0; 2; 1] ∧
    ∀ c, 0 ≤ c < 2 ^ 2 →
      ∃ from to,
        vec_at (m_prefix_sums rl) c = Ok from ∧
        vec_at (m_prefix_sums rl) (c + 1) = Ok to ∧
        slice from to (m_points rl)
        = point_of [10; 11; 12; 13]
            <$> nodes_where (CellHierarchy0 := binary_hierarchy) 2 [100; 200; 10; 20]
                  (λ x, x =? c) [3; 0; 2; 1].
Proof.
  apply (C2_RadiusLayer_prefix_sums_invariant (CellHierarchy0 := binary_hierarchy)
           () () 2 [3; 0; 2; 1] [100; 200; 10; 20] [10; 11; 12; 13]).
  apply binary_input_ok.
Defined.

Lemma C6_kthPoint_enumerates_descendants_witness :
  ∃ pts,
    pointsInCell (CellHierarchy0 := binary_hierarchy)
      (MkRadiusLayer () () 2 [0; 2; 3; 4; 4] [13; 12; 10; 11]) 1 1
      = Ok (Z.of_nat (length pts)) ∧
    (∀ k p, pts !! k = Some p →
       kthPoint (CellHierarchy0 := binary_hierarchy)
         (MkRadiusLayer () () 2 [0; 2; 3; 4; 4] [13; 12; 10; 11]) 1 1 (Z.of_nat k) = Ok p) ∧
    pts ≡ₚ point_of [10; 11; 12; 13]
             <$> nodes_where (CellHierarchy0 := binary_hierarchy) 2 [100; 200; 10; 20]
                   (descends (CellHierarchy0 := binary_hierarchy) 2 1 1) [3; 0; 2; 1].
Proof.
  apply (C6_kthPoint_enumerates_descendants (CellHierarchy0 := binary_hierarchy)
           () () 2 [3; 0; 2; 1] [100; 200; 10; 20] [10; 11; 12; 13]).
  - apply binary_input_ok.
  - apply binary_balanced.
  - reflexivity.
  - lia.
  - cbn. lia.
Defined.

(** C3, as the code has it.  For every layer the constructor returns on
    nodes it can place, every level [L] up to the target level and every
    cell [c] of level [L], numbered across the levels from
    [firstCellOfLevel(L)] on, whose block of
    [numCellsInLevel(target_level - L)] descendants lies inside the target
    level, [pointsInCell(c, L)] is the number of nodes whose finest-level
    cell descends from [c]; the block of every cell of a balanced hierarchy
    lies inside the target level.  In the scenario with 4 points in the
    finest-level cells [0,0,1,2] of a target level of 3 cells, below a level
    of 2 cells, [prefix_sums] is [0,2,3,4]; [pointsInCell] of the first cell
    of the target level, whose number is [firstCellOfLevel(target_level) + 0],
    is 2; and [pointsInCell] of the parent that covers the cells 0 and 1, the
    first cell of the level above, is 3; the blocks of both cells lie inside
    the target level. *)
Theorem C3_pointsInCell_counts_descendants :
  (∀ (Angle Real Point : Type) (H : CellHierarchy Angle) (I : Inhabited Point)
     (r_min r_max : Real) (targetLevel : Z) (nodes : list Z) (angles : list Angle)
     (points : list Point) (rl : RadiusLayer Real Point) (cell level : Z),
     layer_input_ok targetLevel nodes angles points →
     RadiusLayer_new r_min r_max targetLevel nodes angles points = Ok rl →
     block_in_target_level targetLevel cell level →
     pointsInCell rl cell level
     = Ok (Z.of_nat (length (nodes_where targetLevel angles
                               (descends targetLevel cell level) nodes)))) ∧
  (∀ (Angle : Type) (H : CellHierarchy Angle) (targetLevel cell level : Z),
     balanced_hierarchy targetLevel →
     0 ≤ level ≤ targetLevel →
     firstCellOfLevel level ≤ cell < firstCellOfLevel (level + 1) →
     block_in_target_level targetLevel cell level) ∧
  (∃ rl,
     layer_input_ok (CellHierarchy0 := scenario_hierarchy) 2
       [0; 1; 2; 3] [0; 0; 1; 2] [10; 11; 12; 13] ∧
     RadiusLayer_new (CellHierarchy0 := scenario_hierarchy) () () 2
       [0; 1; 2; 3] [0; 0; 1; 2] [10; 11; 12; 13] = Ok rl ∧
     m_prefix_sums rl = [0; 2; 3; 4] ∧
     block_in_target_level (CellHierarchy0 := scenario_hierarchy) 2
       (firstCellOfLevel (CellHierarchy := scenario_hierarchy) 2 + 0) 2 ∧
     pointsInCell (CellHierarchy0 := scenario_hierarchy) rl
       (firstCellOfLevel (CellHierarchy := scenario_hierarchy) 2 + 0) 2 = Ok 2 ∧
     filter (λ x, descends (CellHierarchy0 := scenario_hierarchy) 2
                    (firstCellOfLevel (CellHierarchy := scenario_hierarchy) 1 + 0) 1 x = true)
            [0; 1; 2] = [0; 1] ∧
     block_in_target_level (CellHierarchy0 := scenario_hierarchy) 2
       (firstCellOfLevel (CellHierarchy := scenario_hierarchy) 1 + 0) 1 ∧
     pointsInCell (CellHierarchy0 := scenario_hierarchy) rl
       (firstCellOfLevel (CellHierarchy := scenario_hierarchy) 1 + 0) 1 = Ok 3).
Proof.
  split; [|split].
  - intros. by eapply pointsInCell_descendants.
  - intros. by apply balanced_block.
  - eexists. split; [|split; [reflexivity|]].
    + unfold layer_input_ok. split; [cbn; lia|]. split; [cbn; lia|]. split; [cbn; lia|].
      repeat (constructor;
              [split; [lia | split; [by eexists
                                    | eexists; split; [reflexivity | by vm_compute]]] |]).
      constructor.
    + repeat split; by vm_compute.
Qed.

Lemma C3_pointsInCell_counts_descendants_witness :
  pointsInCell (CellHierarchy0 := binary_hierarchy)
    (MkRadiusLayer () () 2 [0; 2; 3; 4; 4] [13; 12; 10; 11]) 1 1
  = Ok (Z.of_nat (length (nodes_where (CellHierarchy0 := binary_hierarchy) 2
                            [100; 200; 10; 20]
                            (descends (CellHierarchy0 := binary_hierarchy) 2 1 1)
                            [3; 0; 2; 1]))).
Proof.
  apply (proj1 C3_pointsInCell_counts_descendants Z unit Z binary_hierarchy _
           () () 2 [3; 0; 2; 1] [100; 200; 10; 20] [10; 11; 12; 13]).
  - apply binary_input_ok.
  - reflexivity.
  - apply (proj1 (proj2 C3_pointsInCell_counts_descendants) Z binary_hierarchy 2 1 1).
    + apply binary_balanced.
    + lia.
    + cbn. lia.
Defined.

(** C3 fails as stated.  0 is not the number of a cell of the target level
    of the scenario, whose cells are numbered from
    [firstCellOfLevel(target_level)] = 3, and [pointsInCell(0,
    target_level)] fails the assertion that the cell is of the level.  And
    a target level of 3 cells below a level of 2 cells is not balanced: the
    block of the second cell of the level above, the cell 2, runs past the
    target level, and [pointsInCell(2, 1)] reads [prefix_sums] past its end
    although one node descends from the cell. *)
Lemma C3_counterexample :
  ∃ rl,
    RadiusLayer_new (CellHierarchy0 := scenario_hierarchy) () () 2
      [0; 1; 2; 3] [0; 0; 1; 2] [10; 11; 12; 13] = Ok rl ∧
    m_prefix_sums rl = [0; 2; 3; 4] ∧
    pointsInCell (CellHierarchy0 := scenario_hierarchy) rl 0 2 = AssertFail ∧
    pointsInCell (CellHierarchy0 := scenario_hierarchy) rl 0 2 ≠ Ok 2 ∧
    firstCellOfLevel (CellHierarchy := scenario_hierarchy) 1 ≤ 2
      < firstCellOfLevel (CellHierarchy := scenario_hierarchy) (1 + 1) ∧
    length (nodes_where (CellHierarchy0 := scenario_hierarchy) 2 [0; 0; 1; 2]
              (descends (CellHierarchy0 := scenario_hierarchy) 2 2 1) [0; 1; 2; 3]) = 1%nat ∧
    pointsInCell (CellHierarchy0 := scenario_hierarchy) rl 2 1 = Undefined ∧
    ¬ balanced_hierarchy (CellHierarchy0 := scenario_hierarchy) 2.
Proof.
  eexists. split; [reflexivity|]. split; [by vm_compute|]. split; [by vm_compute|].
  split; [by vm_compute|]. split; [by vm_compute|]. split; [by vm_compute|].
  split; [by vm_compute|].
  intros (_ & _ & _ & Hlevels). destruct (Hlevels 1 ltac:(lia)) as (_ & Hmul & _).
  by vm_compute in Hmul.
Qed.

(** * Further properties *)

(** ** [deduplicateEdges]: the triples returned *)

#[export] Instance lex_lt_trans : Transitive lex_lt.
Proof. intros a b c. unfold lex_lt. lia. Qed.

Lemma lex_lt_irrefl (a : edge) : ¬ lex_lt a a.
Proof. unfold lex_lt. lia. Qed.

Lemma pair_le_neq_lt (a b : edge) : pair_le a b → a ≠ b → lex_lt a b.
Proof.
  rewrite pair_le_lex. unfold lex_le, lex_lt. destruct a as [a1 a2], b as [b1 b2]. cbn.
  intros Hle Hne. destruct (decide (a1 = b1)) as [->|]; [|lia].
  right. split; [done|]. destruct (decide (a2 = b2)) as [->|]; [done | lia].
Qed.

Lemma StronglySorted_lex_lt_NoDup (l : list edge) : StronglySorted lex_lt l → NoDup l.
Proof.
  induction 1 as [|x l _ IH Hall]; constructor; [|done].
  intros Hin. rewrite Forall_forall in Hall. by apply (lex_lt_irrefl x), Hall.
Qed.

Lemma runs_cons (x : edge) (l : list edge) :
  runs (x :: l) =
    match runs l with
    | (y, k) :: r => if bool_decide (x = y) then (y, k + 1) :: r else (x, 1) :: (y, k) :: r
    | [] => [(x, 1)]
    end.
Proof. reflexivity. Qed.

(** The runs of a sorted list have strictly ascending pairs. *)
Lemma runs_keys_sorted (l : list edge) :
  Sorted pair_le l → Sorted lex_lt ((λ r : edge * Z, r.1) <$> runs l).
Proof.
  induction 1 as [|x l Hs IH Hhd]; [constructor|].
  destruct l as [|x' l']; [repeat constructor|].
  destruct (runs_head x' l') as (k & r & E & _).
  rewrite runs_cons, E. rewrite E in IH. cbn in IH.
  inversion_clear Hhd as [|?? Hle]. case_bool_decide as Heq.
  - subst. done.
  - cbn. constructor; [done|]. constructor. by apply pair_le_neq_lt.
Qed.

Lemma runs_positive (l : list edge) : Forall (λ r : edge * Z, 1 ≤ r.2) (runs l).
Proof.
  induction l as [|x l IH]; [constructor|]. cbn [runs].
  destruct (runs l) as [|[y k] r]; [by repeat constructor|].
  inversion_clear IH as [|?? Hk Hr]. cbn in Hk.
  case_bool_decide; repeat constructor; cbn; try done; lia.
Qed.

Lemma keys_triple (rs : list (edge * Z)) : keys (triple <$> rs) = (λ r : edge * Z, r.1) <$> rs.
Proof.
  unfold keys. rewrite <- list_fmap_compose. apply list_fmap_ext.
  intros _ [[u v] k] _. done.
Qed.

(** The triples returned, with the run that is not: ascending pairs and
    multiplicities from 1. *)
Lemma deduplicateEdges_keys (edges : list edge) (new_edges : list wedge)
    (sorted : list edge) :
  deduplicateEdges edges = Ok (new_edges, sorted) →
  ∃ pending : edge * Z,
    sorted = std_sort edges ∧
    triple <$> runs sorted = new_edges ++ [triple pending] ∧
    StronglySorted lex_lt (keys (new_edges ++ [triple pending])) ∧
    Forall (λ w : wedge, 1 ≤ w.2) (new_edges ++ [triple pending]).
Proof.
  intros Hd. destruct (decide (edges = [])) as [->|Hne]; [done|].
  destruct (deduplicateEdges_exact edges Hne) as (new_edges' & pending & E & _ & Hr).
  rewrite E in Hd. injection Hd as <- <-.
  exists pending. split; [done|]. split; [done|]. rewrite <- Hr. split.
  - rewrite keys_triple. apply Sorted_StronglySorted; [apply _|].
    apply runs_keys_sorted, std_sort_sorted.
  - apply Forall_fmap. eapply Forall_impl; [apply runs_positive|]. by intros [[u v] k].
Qed.

Lemma elem_of_expand (ws : list wedge) (e : edge) :
  Forall (λ w : wedge, 1 ≤ w.2) ws → (e ∈ expand ws ↔ e ∈ keys ws).
Proof.
  induction 1 as [|[[u v] m] ws Hm _ IH]; [done|].
  rewrite expand_cons. unfold keys in *. cbn in *.
  rewrite elem_of_app, elem_of_cons, IH, elem_of_replicate.
  split; intros [H|H]; auto; [left; tauto | left; split; [done | lia]].
Qed.

Lemma occurrences_app (e : edge) (l1 l2 : list edge) :
  occurrences e (l1 ++ l2) = occurrences e l1 + occurrences e l2.
Proof. unfold occurrences. rewrite filter_app, length_app. lia. Qed.

Lemma occurrences_replicate (e x : edge) (n : nat) :
  occurrences e (replicate n x) = if decide (x = e) then Z.of_nat n else 0.
Proof.
  unfold occurrences. induction n as [|n IH].
  - by case_decide.
  - cbn [replicate]. rewrite filter_cons. revert IH.
    destruct (decide (x = e)); intros IH; cbn [length]; lia.
Qed.

Lemma occurrences_not_elem_of (e : edge) (l : list edge) : e ∉ l → occurrences e l = 0.
Proof.
  unfold occurrences. induction l as [|x l IH]; [done|].
  rewrite not_elem_of_cons, filter_cons. intros [Hne Hl].
  rewrite decide_False by done. auto.
Qed.

Lemma occurrences_perm (e : edge) (l1 l2 : list edge) :
  l1 ≡ₚ l2 → occurrences e l1 = occurrences e l2.
Proof. intros Hp. unfold occurrences. by rewrite Hp. Qed.

(** In a list of triples with distinct pairs, a multiplicity is the number
    of times its pair occurs in the expansion. *)
Lemma occurrences_expand (ws : list wedge) (w : wedge) :
  NoDup (keys ws) → Forall (λ w : wedge, 1 ≤ w.2) ws → w ∈ ws →
  occurrences w.1 (expand ws) = w.2.
Proof.
  intros Hnd Hpos. revert Hnd. induction Hpos as [|w0 ws Hm Hpos IH]; intros Hnd Hin.
  - by apply elem_of_nil in Hin.
  - unfold keys in Hnd. cbn in Hnd. apply NoDup_cons in Hnd as [Hfresh Hnd].
    rewrite expand_cons, occurrences_app, occurrences_replicate.
    replace (w0.1.1, w0.1.2) with w0.1 by (by destruct w0 as [[??]?]).
    apply elem_of_cons in Hin as [-> | Hin].
    + rewrite decide_True by done. rewrite occurrences_not_elem_of; [lia|].
      by rewrite elem_of_expand.
    + rewrite decide_False.
      * rewrite IH by done. lia.
      * intros Heq. apply Hfresh. rewrite Heq. by apply list_elem_of_fmap_2.
Qed.

(** X1: the triples [deduplicateEdges] returns have strictly ascending
    pairs (by [u], then by [v]); no pair has two triples. *)
Theorem deduplicateEdges_ascending (edges : list edge) (new_edges : list wedge)
    (sorted : list edge) :
  deduplicateEdges edges = Ok (new_edges, sorted) →
  StronglySorted lex_lt (keys new_edges) ∧ NoDup (keys new_edges).
Proof.
  intros Hd. destruct (deduplicateEdges_keys _ _ _ Hd) as (pending & _ & _ & Hs & _).
  unfold keys in Hs. rewrite fmap_app in Hs. apply StronglySorted_app_1_l in Hs.
  split; [done|]. by apply StronglySorted_lex_lt_NoDup.
Qed.

Lemma deduplicateEdges_ascending_witness :
  StronglySorted lex_lt (keys [(1, 2, 2); (3, 4, 1)]) ∧ NoDup (keys [(1, 2, 2); (3, 4, 1)]).
Proof.
  apply (deduplicateEdges_ascending [(3, 4); (1, 2); (5, 6); (1, 2)]
           [(1, 2, 2); (3, 4, 1)] [(1, 2); (1, 2); (3, 4); (5, 6)]).
  reflexivity.
Defined.

(** X2: the multiplicity of a triple [deduplicateEdges] returns is the
    number of times its pair occurs in the input, and is 1 at least. *)
Theorem deduplicateEdges_multiplicity (edges : list edge) (new_edges : list wedge)
    (sorted : list edge) (u v m : Z) :
  deduplicateEdges edges = Ok (new_edges, sorted) →
  (u, v, m) ∈ new_edges →
  m = occurrences (u, v) edges ∧ 1 ≤ m.
Proof.
  intros Hd Hin.
  destruct (deduplicateEdges_keys _ _ _ Hd) as (pending & -> & Hr & Hs & Hpos).
  assert ((u, v, m) ∈ new_edges ++ [triple pending]) as Hin'
    by (apply elem_of_app; by left).
  split.
  - rewrite <- (occurrences_perm _ _ _ (std_sort_perm edges)).
    rewrite <- (expand_runs (std_sort edges)), Hr.
    symmetry. apply (occurrences_expand _ (u, v, m)); try done.
    by apply StronglySorted_lex_lt_NoDup.
  - rewrite Forall_forall in Hpos. apply (Hpos _ Hin').
Qed.

Lemma deduplicateEdges_multiplicity_witness :
  2 = occurrences (1, 2) [(3, 4); (1, 2); (5, 6); (1, 2)] ∧ 1 ≤ 2.
Proof.
  apply (deduplicateEdges_multiplicity [(3, 4); (1, 2); (5, 6); (1, 2)]
           [(1, 2, 2); (3, 4, 1)] [(1, 2); (1, 2); (3, 4); (5, 6)] 1 2 2).
  - reflexivity.
  - by left.
Defined.

(** X3: a pair has a triple in the result of [deduplicateEdges] exactly
    when it occurs in the input and is not the largest pair there; on an
    input of equal pairs no triple is returned. *)
Theorem deduplicateEdges_covers (edges : list edge) (new_edges : list wedge)
    (sorted : list edge) (e : edge) :
  deduplicateEdges edges = Ok (new_edges, sorted) →
  (e ∈ keys new_edges ↔ e ∈ edges ∧ ∃ e', e' ∈ edges ∧ lex_lt e e').
Proof.
  intros Hd.
  destruct (deduplicateEdges_keys _ _ _ Hd) as (pending & -> & Hr & Hs & Hpos).
  assert (∀ x, x ∈ edges ↔ x ∈ keys new_edges ∨ x = pending.1) as Hedges.
  { intros x. rewrite <- (std_sort_perm edges), <- (expand_runs (std_sort edges)), Hr.
    rewrite elem_of_expand by done. unfold keys. rewrite fmap_app, elem_of_app.
    cbn. rewrite list_elem_of_singleton. by destruct pending as [[??]?]. }
  unfold keys in Hs. rewrite fmap_app in Hs. cbn in Hs.
  replace (pending.1.1, pending.1.2) with pending.1 in Hs by (by destruct pending as [[??]?]).
  pose proof (λ x1 x2, StronglySorted_app_1_elem_of lex_lt _ _ x1 x2 Hs) as Hlt.
  split.
  - intros He. split; [apply Hedges; by left|].
    exists pending.1. split; [apply Hedges; by right|].
    apply Hlt; [done | by left].
  - intros [He (e' & He' & Hee')].
    apply Hedges in He as [He | ->]; [done|].
    apply Hedges in He' as [He' | ->].
    + destruct (lex_lt_irrefl e'). transitivity pending.1; [|done].
      apply Hlt; [done | by left].
    + by destruct (lex_lt_irrefl pending.1).
Qed.

Lemma deduplicateEdges_covers_witness :
  (3, 4) ∈ keys [(1, 2, 2); (3, 4, 1)] ↔
  (3, 4) ∈ [(3, 4); (1, 2); (5, 6); (1, 2)] ∧
  ∃ e', e' ∈ [(3, 4); (1, 2); (5, 6); (1, 2)] ∧ lex_lt (3, 4) e'.
Proof.
  apply (deduplicateEdges_covers [(3, 4); (1, 2); (5, 6); (1, 2)]
           [(1, 2, 2); (3, 4, 1)] [(1, 2); (1, 2); (3, 4); (5, 6)] (3, 4)).
  reflexivity.
Defined.

(** X4: [deduplicateEdges] does not depend on the order of its input: on
    two vectors with the same pairs, each as often, it returns the same
    triples and leaves the same vector. *)
Theorem deduplicateEdges_order_independent (edges edges' : list edge) :
  edges ≡ₚ edges' → deduplicateEdges edges = deduplicateEdges edges'.
Proof.
  intros Hp. unfold deduplicateEdges.
  assert (std_sort edges = std_sort edges') as ->; [|done].
  apply std_sort_unique; [|apply std_sort_sorted].
  by rewrite std_sort_perm.
Qed.

Lemma deduplicateEdges_order_independent_witness :
  deduplicateEdges [(3, 4); (1, 2); (1, 2)] = deduplicateEdges [(1, 2); (3, 4); (1, 2)].
Proof.
  apply (deduplicateEdges_order_independent [(3, 4); (1, 2); (1, 2)] [(1, 2); (3, 4); (1, 2)]).
  apply Permutation_swap.
Defined.

(** ** [generateEdges]: what every run returns *)

Lemma length_concat_const {A} (per : list (list A)) (k : nat) :
  (∀ j x, per !! j = Some x → length x = k) → length (concat per) = (k * length per)%nat.
Proof.
  induction per as [|x per IH]; intros Hall; cbn; [lia|].
  rewrite length_app, (Hall 0%nat x eq_refl), IH; [lia|].
  intros j y Hj. apply (Hall (S j) y Hj).
Qed.

Lemma concat_singletons {A} (per : list (list A)) (x : A) :
  (∀ j y, per !! j = Some y → y = [x]) → concat per = replicate (length per) x.
Proof.
  induction per as [|y per IH]; intros Hall; cbn; [done|].
  rewrite (Hall 0%nat y eq_refl), IH; [done|].
  intros j z Hj. apply (Hall (S j) z Hj).
Qed.

Section GenerateEdgesRuns.
Context {Node Dist : Type} `{!NodeModel Node Dist}.

Lemma generateEdges_not_defined (num_threads : nat) (c_nodes nc_nodes : list Node)
    (debugMode : bool) (r : outcome (list edge)) :
  (∀ calls, chunk_calls c_nodes nc_nodes debugMode (seq 0 (length c_nodes)) ≠ Ok calls) →
  generateEdges num_threads c_nodes nc_nodes debugMode r → r = Undefined.
Proof.
  intros Hno Hrun. inversion Hrun as [chunks ws st _ Hsplit Hws _ _ |]; [|done].
  apply chunk_calls_concat in Hws as [Hall _]. rewrite Hsplit in Hall.
  by destruct (Hno _ Hall).
Qed.

(** X5: the edges [generateEdges] returns do not depend on the number of
    threads, on how the clauses are split among them, or on how the
    threads interleave: two runs on the same nodes are both undefined or
    return the same edges, each as often, in some order. *)
Theorem generateEdges_runs_agree (threads1 threads2 : nat) (c_nodes nc_nodes : list Node)
    (debugMode : bool) (r1 r2 : outcome (list edge)) :
  generateEdges threads1 c_nodes nc_nodes debugMode r1 →
  generateEdges threads2 c_nodes nc_nodes debugMode r2 →
  same_edges r1 r2.
Proof.
  intros Hrun1 Hrun2.
  destruct (chunk_calls c_nodes nc_nodes debugMode (seq 0 (length c_nodes)))
    as [calls| | |] eqn:Hcalls.
  - destruct (generateEdges_run_calls _ _ _ _ _ _ Hcalls Hrun1) as (e1 & -> & Hp1).
    destruct (generateEdges_run_calls _ _ _ _ _ _ Hcalls Hrun2) as (e2 & -> & Hp2).
    cbn. by rewrite Hp1, Hp2.
  - apply generateEdges_not_defined in Hrun1 as ->; [|intros calls; congruence].
    apply generateEdges_not_defined in Hrun2 as ->; [done|intros calls; congruence].
  - apply generateEdges_not_defined in Hrun1 as ->; [|intros calls; congruence].
    apply generateEdges_not_defined in Hrun2 as ->; [done|intros calls; congruence].
  - apply generateEdges_not_defined in Hrun1 as ->; [|intros calls; congruence].
    apply generateEdges_not_defined in Hrun2 as ->; [done|intros calls; congruence].
Qed.

(** X6: with a target to find, [generateEdges] returns one edge for every
    source in normal mode and two in debug mode. *)
Theorem generateEdges_edge_count (num_threads : nat) (c_nodes nc_nodes : list Node)
    (debugMode : bool) (r : outcome (list edge)) :
  nc_nodes ≠ [] →
  generateEdges num_threads c_nodes nc_nodes debugMode r →
  ∃ edges, r = Ok edges ∧
    length edges = ((if debugMode then 2 else 1) * length c_nodes)%nat.
Proof.
  intros Hne Hrun.
  destruct (chunk_calls_seq c_nodes nc_nodes debugMode
    (λ _ _ calls, length calls = if debugMode then 2%nat else 1%nat))
    with (len := length c_nodes) (start := 0%nat) as (per & Hper & Hlen & Hall).
  { intros i cp _.
    destruct (clause_calls_defined nc_nodes debugMode (Z.of_nat i) cp Hne)
      as (p & q & n & s & _ & _ & Hcalls).
    eexists. split; [exact Hcalls|]. by destruct debugMode. }
  { lia. }
  destruct (generateEdges_run_calls _ _ _ _ _ _ Hper Hrun) as (edges & -> & Hperm).
  exists edges. split; [done|].
  rewrite Hperm, length_fmap, <- Hlen. apply length_concat_const.
  intros j calls Hj. by destruct (Hall j calls Hj) as (cp & _ & HQ).
Qed.

(** X7: without targets, every run of [generateEdges] that has a source
    is undefined: the first search returns [end()], which is
    dereferenced. *)
Theorem generateEdges_without_targets (num_threads : nat) (c_nodes : list Node)
    (debugMode : bool) :
  c_nodes ≠ [] → (1 ≤ num_threads)%nat →
  generateEdges num_threads c_nodes [] debugMode Undefined ∧
  ∀ r, generateEdges num_threads c_nodes [] debugMode r → r = Undefined.
Proof.
  intros Hne Hthreads. split.
  - apply (generateEdges_undefined _ _ _ _
             (seq 0 (length c_nodes) :: replicate (num_threads - 1) [])
             (seq 0 (length c_nodes))).
    + cbn. rewrite length_replicate. lia.
    + cbn [concat]. by rewrite concat_replicate_nil, app_nil_r.
    + by left.
    + destruct c_nodes as [|cp c_nodes]; [done|]. cbn.
      by change (vec_at (cp :: c_nodes) 0) with (Ok cp).
  - intros r. by apply generateEdges_no_targets.
Qed.

(** X8: without sources [generateEdges] returns no edge, whatever the
    targets and the number of threads: the empty result is the one outcome
    of its runs. *)
Theorem generateEdges_without_sources (num_threads : nat) (nc_nodes : list Node)
    (debugMode : bool) (r : outcome (list edge)) :
  (1 ≤ num_threads)%nat →
  generateEdges num_threads [] nc_nodes debugMode r ↔ r = Ok [].
Proof.
  intros Hthreads. split.
  - intros Hrun.
    destruct (generateEdges_run_calls num_threads [] nc_nodes debugMode [] r eq_refl Hrun)
      as (edges & -> & Hperm).
    f_equal. by apply Permutation_nil_r.
  - intros ->.
    apply (generateEdges_seq_run num_threads [] nc_nodes debugMode Hthreads).
    by exists [].
Qed.

(** X9: the ends of the edges of [generateEdges].  In normal mode both
    ends of every edge are indices of targets; in debug mode every edge
    joins the index of a target with the number of targets plus the rank of
    a source (as an [int]). *)
Theorem generateEdges_endpoints (num_threads : nat) (c_nodes nc_nodes : list Node)
    (debugMode : bool) (r : outcome (list edge)) :
  nc_nodes ≠ [] →
  generateEdges num_threads c_nodes nc_nodes debugMode r →
  ∃ edges, r = Ok edges ∧
    ∀ e, e ∈ edges →
      if debugMode
      then ∃ target sourceRank,
             target ∈ nc_nodes ∧ (sourceRank < length c_nodes)%nat ∧
             e = canonical (index target,
                            to_int (Z.of_nat (length nc_nodes) + Z.of_nat sourceRank))
      else e.1 ∈ index <$> nc_nodes ∧ e.2 ∈ index <$> nc_nodes.
Proof.
  intros Hne Hrun.
  destruct (generateEdges_run_origin _ _ _ _ _ Hne Hrun) as (edges & -> & Horigin).
  exists edges. split; [done|]. intros e He.
  destruct (Horigin e He) as (i & cp & p & q & n & s & call & Hi & H1 & H2 & Hcall & ->).
  apply min_element_lookup, list_elem_of_lookup_2 in H1, H2. cbn [fst snd] in *.
  apply lookup_lt_Some in Hi.
  destruct debugMode.
  - apply elem_of_cons in Hcall as [-> | Hcall].
    + by exists n, i.
    + apply list_elem_of_singleton in Hcall as ->. by exists s, i.
  - apply list_elem_of_singleton in Hcall as ->.
    pose proof (list_elem_of_fmap_2 index _ _ H1) as Hn.
    pose proof (list_elem_of_fmap_2 index _ _ H2) as Hs.
    unfold canonical. cbn [fst snd].
    destruct (Z.min_spec (index n) (index s)) as [[_ ->] | [_ ->]],
             (Z.max_spec (index n) (index s)) as [[_ ->] | [_ ->]]; done.
Qed.

(** X10: with one target, [generateEdges] in normal mode returns, for
    every source, the edge from the index of the target to itself. *)
Theorem generateEdges_single_target (num_threads : nat) (c_nodes : list Node)
    (target : Node) (r : outcome (list edge)) :
  generateEdges num_threads c_nodes [target] false r →
  r = Ok (replicate (length c_nodes) (index target, index target)).
Proof.
  intros Hrun.
  destruct (chunk_calls_seq c_nodes [target] false
    (λ _ _ calls, calls = [(index target, index target)]))
    with (len := length c_nodes) (start := 0%nat) as (per & Hper & Hlen & Hall).
  { intros i cp _. by exists [(index target, index target)]. }
  { lia. }
  destruct (generateEdges_run_calls _ _ _ _ _ _ Hper Hrun) as (edges & -> & Hperm).
  f_equal. symmetry. apply replicate_Permutation. rewrite Hperm.
  rewrite (concat_singletons per (index target, index target)), Hlen.
  - rewrite fmap_replicate. unfold canonical. cbn. by rewrite Z.min_id, Z.max_id.
  - intros j calls Hj. by destruct (Hall j calls Hj) as (cp & _ & ->).
Qed.

End GenerateEdgesRuns.

Lemma generateEdges_runs_agree_witness :
  same_edges (Ok [(0, 1); (1, 2)]) (Ok [(0, 1); (1, 2)]).
Proof.
  apply (@generateEdges_runs_agree _ _ line_nodes 1 3
           [(5, 0); (20, 1)] [(0, 0); (7, 1); (30, 2)] false).
  - apply line_run; [lia | reflexivity].
  - apply line_run; [lia | reflexivity].
Defined.

Lemma generateEdges_edge_count_witness :
  ∃ edges, Ok [(1, 3); (0, 3); (2, 4); (1, 4)] = Ok edges ∧
    length edges = ((if true then 2 else 1) * length [(5, 0); (20, 1)])%nat.
Proof.
  apply (@generateEdges_edge_count _ _ line_nodes 2
           [(5, 0); (20, 1)] [(0, 0); (7, 1); (30, 2)] true).
  - discriminate.
  - apply line_run; [lia | reflexivity].
Defined.

Lemma generateEdges_without_targets_witness :
  @generateEdges _ _ line_nodes 2 [(5, 0); (20, 1)] [] false Undefined ∧
  ∀ r, @generateEdges _ _ line_nodes 2 [(5, 0); (20, 1)] [] false r → r = Undefined.
Proof.
  apply (@generateEdges_without_targets _ _ line_nodes 2 [(5, 0); (20, 1)] false).
  - discriminate.
  - lia.
Defined.

Lemma generateEdges_without_sources_witness :
  @generateEdges _ _ line_nodes 2 [] [(0, 0); (7, 1)] true (Ok []) ↔
  Ok [] = @Ok (list edge) [].
Proof.
  apply (@generateEdges_without_sources _ _ line_nodes 2 [(0, 0); (7, 1)] true (Ok [])).
  lia.
Defined.

Lemma generateEdges_endpoints_witness :
  ∃ edges, Ok [(1, 3); (0, 3); (2, 4); (1, 4)] = Ok edges ∧
    ∀ e, e ∈ edges →
      ∃ target sourceRank,
        target ∈ [(0, 0); (7, 1); (30, 2)] ∧
        (sourceRank < length [(5, 0); (20, 1)])%nat ∧
        e = canonical (@index _ _ line_nodes target,
                       to_int (Z.of_nat (length [(0, 0); (7, 1); (30, 2)])
                               + Z.of_nat sourceRank)).
Proof.
  apply (@generateEdges_endpoints _ _ line_nodes 2
           [(5, 0); (20, 1)] [(0, 0); (7, 1); (30, 2)] true).
  - discriminate.
  - apply line_run; [lia | reflexivity].
Defined.

Lemma generateEdges_single_target_witness :
  Ok [(4, 4); (4, 4)] =
  Ok (replicate (length [(5, 0); (20, 1)]) (@index _ _ line_nodes (9, 4),
                                            @index _ _ line_nodes (9, 4))).
Proof.
  apply (@generateEdges_single_target _ _ line_nodes 2 [(5, 0); (20, 1)] (9, 4)).
  apply line_run; [lia | reflexivity].
Defined.

(** ** [generateWeights] and [generatePositions]: sizes, threads and seeds *)

Lemma sampler_threads_small (env : omp_env) (n : Z) (parallel : bool) :
  n < 20000 ∨ omp_get_max_threads env ≤ 1 → sampler_threads env n parallel = 1.
Proof.
  intros Hsmall. unfold sampler_threads. destruct parallel; [|done].
  assert (n < 20000 → n ÷ 10000 ≤ 1).
  { intros Hn. destruct (Z.le_gt_cases 0 n).
    - apply Z.lt_succ_r. apply Z.quot_lt_upper_bound; lia.
    - pose proof (Z.quot_opp_l n 10000 ltac:(lia)).
      pose proof (Z.quot_pos (- n) 10000 ltac:(lia) ltac:(lia)). lia. }
  lia.
Qed.

Lemma sampler_threads_pos (env : omp_env) (n : Z) (parallel : bool) :
  1 ≤ sampler_threads env n parallel.
Proof. unfold sampler_threads. destruct parallel; lia. Qed.

(** The team is not larger than what [num_threads(threads)] asks for. *)
Lemma team_size (env : omp_env) (n : Z) (parallel : bool) :
  omp_env_ok env →
  Z.of_nat (length (static_chunks env (Z.to_nat n)
                      (Z.to_nat (sampler_threads env n parallel))))
    ≤ sampler_threads env n parallel.
Proof.
  intros Hok. pose proof (sampler_threads_pos env n parallel).
  destruct (Hok (Z.to_nat n) (Z.to_nat (sampler_threads env n parallel))) as [_ Hlen]. lia.
Qed.

Section SamplersFurther.
Context {double engine : Type} `{!SamplerModel double engine}.

Lemma draw_weights_uniform (n : Z) (ple : double) (k : nat) (gen : engine) :
  draw_weights n ple k gen = weight_of n ple <$> draw_uniform k gen.
Proof.
  revert gen. induction k as [|k IH]; intros gen; cbn; [done|].
  destruct (uniform_real gen) as [u gen']. cbn. by rewrite IH.
Qed.

Lemma draw_positions_uniform (k : nat) (gen : engine) :
  draw_positions 1 k gen = (λ u, [u]) <$> draw_uniform k gen.
Proof.
  revert gen. induction k as [|k IH]; intros gen; cbn; [done|].
  destruct (uniform_real gen) as [u gen']. cbn. by rewrite IH.
Qed.

Lemma length_draw_coords (dimension : nat) (gen : engine) :
  length (draw_coords dimension gen).1 = dimension.
Proof.
  revert gen. induction dimension as [|d IH]; intros gen; cbn; [done|].
  destruct (uniform_real gen) as [x gen']. specialize (IH gen').
  destruct (draw_coords d gen') as [xs gen'']. cbn in *. by rewrite IH.
Qed.

Lemma length_draw_positions (dimension k : nat) (gen : engine) :
  length (draw_positions dimension k gen) = k.
Proof.
  revert gen. induction k as [|k IH]; intros gen; cbn; [done|].
  destruct (draw_coords dimension gen). cbn. by rewrite IH.
Qed.

Lemma draw_positions_dimension (dimension k : nat) (gen : engine) :
  Forall (λ p, length p = dimension) (draw_positions dimension k gen).
Proof.
  revert gen. induction k as [|k IH]; intros gen; cbn; [done|].
  pose proof (length_draw_coords dimension gen) as Hlen.
  destruct (draw_coords dimension gen) as [p gen']. constructor; [done|]. apply IH.
Qed.

(** A team whose seeds do not overflow returns what its threads draw:
    as many elements as there are iterations, each as [draw] makes it. *)
Lemma sampler_team_shape {A} (P : A → Prop) (env : omp_env) (seed : Z)
    (draw : nat → engine → list A) (tid : nat) (chunks : list nat) :
  seed < 0 ∨ seed + Z.of_nat tid + Z.of_nat (length chunks) ≤ 2 ^ 31 →
  (∀ k gen, length (draw k gen) = k) →
  (∀ k gen, Forall P (draw k gen)) →
  ∃ l, sampler_team env seed draw tid chunks = Ok l ∧
       length l = sum_list chunks ∧ Forall P l.
Proof.
  intros Hseed Hlen HP. revert tid Hseed.
  induction chunks as [|k chunks IH]; intros tid Hseed.
  - by exists [].
  - cbn [sampler_team].
    assert (∃ s, engine_seed env seed (Z.of_nat tid) = Ok s) as [s ->].
    { destruct (Z.le_gt_cases 0 seed).
      - eexists. apply engine_seed_given; cbn [length] in *; lia.
      - eexists. by apply engine_seed_entropy. }
    destruct (IH (S tid)) as (more & -> & Hmore & HPmore).
    { cbn [length] in Hseed. lia. }
    cbn [mbind outcome_bind]. eexists. split; [done|]. split.
    + rewrite length_app, Hlen, Hmore. done.
    + apply Forall_app. split; [apply HP | done].
Qed.

(** With a seed that is not negative, a team does what it does in any
    other environment with the same schedule. *)
Lemma sampler_team_env {A} (env1 env2 : omp_env) (seed : Z)
    (draw : nat → engine → list A) (tid : nat) (chunks : list nat) :
  0 ≤ seed →
  sampler_team env1 seed draw tid chunks = sampler_team env2 seed draw tid chunks.
Proof.
  intros Hseed. revert tid. induction chunks as [|k chunks IH]; intros tid; [done|].
  cbn [sampler_team]. by rewrite (engine_seed_env env1 env2), IH.
Qed.

Lemma sampler_team_fmap {A B} (g : A → B) (env : omp_env) (seed : Z)
    (draw : nat → engine → list A) (draw' : nat → engine → list B)
    (tid : nat) (chunks : list nat) (l : list A) :
  (∀ k gen, draw' k gen = g <$> draw k gen) →
  sampler_team env seed draw tid chunks = Ok l →
  sampler_team env seed draw' tid chunks = Ok (g <$> l).
Proof.
  intros Hdraw. revert tid l. induction chunks as [|k chunks IH]; intros tid l.
  - by intros [= <-].
  - cbn [sampler_team]. intros Hteam.
    apply bind_Ok_inv in Hteam as (s & -> & Hteam).
    apply bind_Ok_inv in Hteam as (more & Hmore & [= <-]).
    cbn [mbind outcome_bind]. rewrite (IH _ _ Hmore). cbn [mbind outcome_bind].
    by rewrite Hdraw, fmap_app.
Qed.

(** The team of a sampler called with [n] that is not negative, when its
    seeds do not overflow, returns [n] elements. *)
Lemma team_returns {A} (P : A → Prop) (env : omp_env) (n seed : Z) (parallel : bool)
    (draw : nat → engine → list A) :
  omp_env_ok env → 0 ≤ n →
  seed < 0 ∨ seed + sampler_threads env n parallel ≤ 2 ^ 31 →
  (∀ k gen, length (draw k gen) = k) →
  (∀ k gen, Forall P (draw k gen)) →
  ∃ l, sampler_team env seed draw 0
         (static_chunks env (Z.to_nat n) (Z.to_nat (sampler_threads env n parallel))) = Ok l ∧
       Z.of_nat (length l) = n ∧ Forall P l.
Proof.
  intros Hok Hn Hseed Hlen HP.
  pose proof (team_size env n parallel Hok) as Hteam.
  destruct (sampler_team_shape P env seed draw 0
              (static_chunks env (Z.to_nat n) (Z.to_nat (sampler_threads env n parallel))))
    as (l & Hl & Hsum & HPl); [|done..|].
  - change (Z.of_nat 0) with 0. lia.
  - exists l. split; [done|]. split; [|done]. rewrite Hsum.
    destruct (Hok (Z.to_nat n) (Z.to_nat (sampler_threads env n parallel))) as [-> _]. lia.
Qed.

Lemma length_draw_uniform (k : nat) (gen : engine) : length (draw_uniform k gen) = k.
Proof.
  revert gen. induction k as [|k IH]; intros gen; cbn; [done|].
  destruct (uniform_real gen) as [u gen']. cbn. by rewrite IH.
Qed.

Lemma draw_positions_shape (dimension : Z) (k : nat) (gen : engine) :
  0 ≤ dimension →
  Forall (λ p, Z.of_nat (length p) = dimension)
         (draw_positions (Z.to_nat dimension) k gen).
Proof.
  intros Hd. eapply Forall_impl; [apply draw_positions_dimension|].
  cbn beta. intros p ->. lia.
Qed.

(** X11: [generateWeights] returns [n] weights for every [n] that is not
    negative, with or without [parallel], when the seed is negative or
    [weightSeed + tid] is an [int] for every thread of the team: the
    iterations the threads share are all those of the loop. *)
Theorem generateWeights_size (env : omp_env) (n : Z) (ple : double) (weightSeed : Z)
    (parallel : bool) :
  omp_env_ok env → 0 ≤ n →
  weightSeed < 0 ∨ weightSeed + sampler_threads env n parallel ≤ 2 ^ 31 →
  ∃ weights, generateWeights env n ple weightSeed parallel = Ok weights ∧
             Z.of_nat (length weights) = n.
Proof.
  intros Hok Hn Hseed. unfold generateWeights.
  destruct (Z.ltb_spec n 0); [lia|].
  destruct (team_returns (λ _, True) env n weightSeed parallel (draw_weights n ple)
              Hok Hn Hseed) as (weights & Hweights & Hlen & _).
  - intros. apply length_draw_weights.
  - intros. by apply Forall_forall.
  - by exists weights.
Qed.

(** X12: [generatePositions] returns [n] positions of [dimension]
    coordinates each, for every [n] and [dimension] that are not negative,
    when the seed is negative or [positionSeed + tid] is an [int] for every
    thread of the team. *)
Theorem generatePositions_shape (env : omp_env) (n dimension positionSeed : Z)
    (parallel : bool) :
  omp_env_ok env → 0 ≤ n → 0 ≤ dimension →
  positionSeed < 0 ∨ positionSeed + sampler_threads env n parallel ≤ 2 ^ 31 →
  ∃ positions, generatePositions env n dimension positionSeed parallel = Ok positions ∧
    Z.of_nat (length positions) = n ∧
    Forall (λ p, Z.of_nat (length p) = dimension) positions.
Proof.
  intros Hok Hn Hd Hseed. unfold generatePositions.
  destruct (Z.ltb_spec dimension 0); [lia|]. destruct (Z.ltb_spec n 0); [lia|].
  cbn [orb].
  apply (team_returns (λ p, Z.of_nat (length p) = dimension) env n positionSeed parallel
           (draw_positions (Z.to_nat dimension)) Hok Hn Hseed).
  - intros. apply length_draw_positions.
  - intros. by apply draw_positions_shape.
Qed.

(** X13: below 20000 elements, or with at most one thread available,
    [parallel] has no effect: the samplers run on one thread and return
    what they return without [parallel]. *)
Theorem samplers_parallel_small (env : omp_env) (n dimension : Z) (ple : double)
    (weightSeed positionSeed : Z) :
  n < 20000 ∨ omp_get_max_threads env ≤ 1 →
  generateWeights env n ple weightSeed true = generateWeights env n ple weightSeed false ∧
  generatePositions env n dimension positionSeed true
    = generatePositions env n dimension positionSeed false.
Proof.
  intros Hsmall. unfold generateWeights, generatePositions.
  by rewrite (sampler_threads_small env n true Hsmall).
Qed.

(** X14: with a seed that is not negative the samplers do not consult
    [std::random_device], with [parallel] as without.  Two runs with the
    same number of threads available and the same static schedule, in
    which [seed + tid] is an [int] for every thread of the team, return the
    same vectors, of [n] elements, whatever the random device gives in
    each. *)
Theorem samplers_seeded_ignore_random_device (env1 env2 : omp_env) (n dimension : Z)
    (ple : double) (weightSeed positionSeed : Z) (parallel : bool) :
  omp_env_ok env1 → 0 ≤ n → 0 ≤ dimension →
  0 ≤ weightSeed → weightSeed + sampler_threads env1 n parallel ≤ 2 ^ 31 →
  0 ≤ positionSeed → positionSeed + sampler_threads env1 n parallel ≤ 2 ^ 31 →
  omp_get_max_threads env1 = omp_get_max_threads env2 →
  static_chunks env1 = static_chunks env2 →
  ∃ weights positions,
    generateWeights env1 n ple weightSeed parallel = Ok weights ∧
    generateWeights env2 n ple weightSeed parallel = Ok weights ∧
    generatePositions env1 n dimension positionSeed parallel = Ok positions ∧
    generatePositions env2 n dimension positionSeed parallel = Ok positions ∧
    Z.of_nat (length weights) = n ∧ Z.of_nat (length positions) = n.
Proof.
  intros Hok Hn Hd Hw Hwsum Hp Hpsum Hthreads Hchunks.
  destruct (team_returns (λ _, True) env1 n weightSeed parallel (draw_weights n ple)
              Hok Hn ltac:(by right)) as (weights & Hweights & Hwlen & _).
  { intros. apply length_draw_weights. }
  { intros. by apply Forall_forall. }
  destruct (team_returns (λ _, True) env1 n positionSeed parallel
              (draw_positions (Z.to_nat dimension)) Hok Hn ltac:(by right))
    as (positions & Hpositions & Hplen & _).
  { intros. apply length_draw_positions. }
  { intros. by apply Forall_forall. }
  exists weights, positions. unfold generateWeights, generatePositions, sampler_threads.
  rewrite <- Hthreads, <- Hchunks.
  destruct (Z.ltb_spec dimension 0); [lia|]. destruct (Z.ltb_spec n 0); [lia|]. cbn [orb].
  rewrite <- !(sampler_team_env env1 env2) by done.
  done.
Qed.

(** X15: with a seed that is not negative, for which [seed + tid] is an
    [int] for every thread of the team, a call of [generatePositions] in one
    dimension and a call of [generateWeights] with the same [n], seed and
    [parallel], on the same number of threads and the same static schedule,
    draw the same numbers, whatever the random device gives in each call:
    there is one list of draws of which the positions are the elements and
    the weights the images under the weight formula. *)
Theorem samplers_same_seed_same_draws (env1 env2 : omp_env) (n : Z) (ple : double)
    (seed : Z) (parallel : bool) :
  omp_env_ok env1 → 0 ≤ n →
  0 ≤ seed → seed + sampler_threads env1 n parallel ≤ 2 ^ 31 →
  omp_get_max_threads env1 = omp_get_max_threads env2 →
  static_chunks env1 = static_chunks env2 →
  ∃ draws,
    Z.of_nat (length draws) = n ∧
    generatePositions env1 n 1 seed parallel = Ok ((λ u, [u]) <$> draws) ∧
    generateWeights env2 n ple seed parallel = Ok (weight_of n ple <$> draws).
Proof.
  intros Hok Hn Hseed Hsum Hthreads Hchunks.
  destruct (team_returns (λ _, True) env1 n seed parallel draw_uniform
              Hok Hn ltac:(by right)) as (draws & Hdraws & Hlen & _).
  { intros. apply length_draw_uniform. }
  { intros. by apply Forall_forall. }
  exists draws. split; [done|]. split.
  - unfold generatePositions. destruct (Z.ltb_spec n 0); [lia|]. cbn [orb Z.ltb Z.compare].
    apply (sampler_team_fmap (λ u, [u]) env1 seed draw_uniform); [|done].
    intros k gen. apply draw_positions_uniform.
  - unfold generateWeights, sampler_threads. rewrite <- Hthreads, <- Hchunks.
    destruct (Z.ltb_spec n 0); [lia|].
    rewrite <- (sampler_team_env env1 env2) by done.
    apply (sampler_team_fmap (weight_of n ple) env1 seed draw_uniform); [|done].
    intros k gen. apply draw_weights_uniform.
Qed.

End SamplersFurther.

Lemma two_thread_env_ok (max_threads entropy : Z) : omp_env_ok (two_thread_env max_threads entropy).
Proof.
  intros n threads. cbn [static_chunks two_thread_env].
  pose proof (Nat.div_mod_eq n 2) as Hdiv. pose proof (Nat.mod_upper_bound n 2) as Hmod.
  generalize dependent (n / 2)%nat. generalize dependent (n mod 2)%nat. intros r Hr q Hq.
  destruct (Nat.leb_spec 2 threads); cbn; lia.
Qed.

Lemma generateWeights_size_witness :
  ∃ weights,
    @generateWeights _ _ lcg_sampler (two_thread_env 2 99) 20000 2 2147483646 true
      = Ok weights ∧
    Z.of_nat (length weights) = 20000.
Proof.
  apply (@generateWeights_size _ _ lcg_sampler (two_thread_env 2 99) 20000 2 2147483646 true).
  - apply two_thread_env_ok.
  - lia.
  - right. by vm_compute.
Defined.

Lemma generatePositions_shape_witness :
  ∃ positions,
    @generatePositions _ _ lcg_sampler (two_thread_env 2 99) 20000 2 2147483646 true
      = Ok positions ∧
    Z.of_nat (length positions) = 20000 ∧
    Forall (λ p, Z.of_nat (length p) = 2) positions.
Proof.
  apply (@generatePositions_shape _ _ lcg_sampler (two_thread_env 2 99)
           20000 2 2147483646 true).
  - apply two_thread_env_ok.
  - lia.
  - lia.
  - right. by vm_compute.
Defined.

Lemma samplers_parallel_small_witness :
  @generateWeights _ _ lcg_sampler (one_thread_env 4 99) 19999 2 5 true
    = @generateWeights _ _ lcg_sampler (one_thread_env 4 99) 19999 2 5 false ∧
  @generatePositions _ _ lcg_sampler (one_thread_env 4 99) 19999 2 7 true
    = @generatePositions _ _ lcg_sampler (one_thread_env 4 99) 19999 2 7 false.
Proof.
  apply (@samplers_parallel_small _ _ lcg_sampler (one_thread_env 4 99) 19999 2 2 5 7).
  left. lia.
Defined.

Lemma samplers_seeded_ignore_random_device_witness :
  ∃ weights positions,
    @generateWeights _ _ lcg_sampler (two_thread_env 2 99) 20000 2 5 true = Ok weights ∧
    @generateWeights _ _ lcg_sampler (two_thread_env 2 12345) 20000 2 5 true = Ok weights ∧
    @generatePositions _ _ lcg_sampler (two_thread_env 2 99) 20000 2 7 true = Ok positions ∧
    @generatePositions _ _ lcg_sampler (two_thread_env 2 12345) 20000 2 7 true
      = Ok positions ∧
    Z.of_nat (length weights) = 20000 ∧ Z.of_nat (length positions) = 20000.
Proof.
  apply (@samplers_seeded_ignore_random_device _ _ lcg_sampler
           (two_thread_env 2 99) (two_thread_env 2 12345) 20000 2 2 5 7 true).
  - apply two_thread_env_ok.
  - lia.
  - lia.
  - lia.
  - by vm_compute.
  - lia.
  - by vm_compute.
  - reflexivity.
  - reflexivity.
Defined.

Lemma samplers_same_seed_same_draws_witness :
  ∃ draws,
    Z.of_nat (length draws) = 20000 ∧
    @generatePositions _ _ lcg_sampler (two_thread_env 2 99) 20000 1 5 true
      = Ok ((λ u, [u]) <$> draws) ∧
    @generateWeights _ _ lcg_sampler (two_thread_env 2 12345) 20000 2 5 true
      = Ok (@weight_of _ _ lcg_sampler 20000 2 <$> draws).
Proof.
  apply (@samplers_same_seed_same_draws _ _ lcg_sampler
           (two_thread_env 2 99) (two_thread_env 2 12345) 20000 2 5 true).
  - apply two_thread_env_ok.
  - lia.
  - lia.
  - by vm_compute.
  - reflexivity.
  - reflexivity.
Defined.

(** ** [convertToNodes] *)

Section ConvertToNodes.
Context {Node double : Type} `{!Node2DCtor Node double}.
Variables (positions : list (list double)) (weights : list double) (indiceOffset : Z).

(** The loop, when it returns, has appended one node per iteration, the
    [k]-th node of the result made from the [k]-th position and weight. *)
Lemma convertToNodes_loop_Ok (steps : nat) (i : Z) (result nodes : list Node) :
  convertToNodes_loop positions weights indiceOffset steps i result = Ok nodes →
  Z.of_nat (length result) = i →
  (∀ k node, result !! k = Some node →
     ∃ p w, positions !! k = Some p ∧ weights !! k = Some w ∧
            node = Node2D p w (indiceOffset + Z.of_nat k)) →
  length nodes = (length result + steps)%nat ∧
  ∀ k node, nodes !! k = Some node →
    ∃ p w, positions !! k = Some p ∧ weights !! k = Some w ∧
           node = Node2D p w (indiceOffset + Z.of_nat k).
Proof.
  revert i result. induction steps as [|steps IH]; intros i result Hloop Hi Hres.
  - injection Hloop as <-. split; [lia | done].
  - cbn [convertToNodes_loop] in Hloop.
    apply bind_Ok_inv in Hloop as (p & Hp & Hloop).
    apply bind_Ok_inv in Hloop as (w & Hw & Hloop).
    apply bind_Ok_inv in Hloop as (index & Hindex & Hloop).
    apply bind_Ok_inv in Hloop as (i' & Hi' & Hloop).
    apply int_add_Ok_inv in Hindex as ->. apply int_add_Ok_inv in Hi' as ->.
    apply vec_at_Ok in Hp as [_ Hp]. apply vec_at_Ok in Hw as [_ Hw].
    destruct (IH _ _ Hloop) as [Hlen Hall].
    + rewrite length_app. cbn. lia.
    + intros k node Hk. destruct (decide (k < length result)%nat) as [Hlt|Hge].
      * rewrite lookup_app_l in Hk by done. by apply Hres.
      * rewrite lookup_app_r in Hk by lia.
        destruct (k - length result)%nat as [|?] eqn:Hd; [|done].
        injection Hk as <-. assert (k = Z.to_nat i) as -> by lia.
        exists p, w. rewrite Z2Nat.id by lia. done.
    + rewrite length_app in Hlen. cbn in Hlen. split; [lia | done].
Qed.

(** The loop returns when the vectors are long enough and the [int]s do
    not overflow. *)
Lemma convertToNodes_loop_returns (steps : nat) (i : Z) (result : list Node) :
  0 ≤ i → i + Z.of_nat steps ≤ Z.of_nat (length positions) →
  length positions = length weights →
  i + Z.of_nat steps < 2 ^ 31 →
  - 2 ^ 31 ≤ indiceOffset → indiceOffset + i + Z.of_nat steps ≤ 2 ^ 31 →
  ∃ nodes, convertToNodes_loop positions weights indiceOffset steps i result = Ok nodes.
Proof.
  revert i result. induction steps as [|steps IH]; intros i result Hi Hlen Hsame Hint Hlo Hhi.
  - by eexists.
  - cbn [convertToNodes_loop].
    destruct (lookup_lt_is_Some_2 positions (Z.to_nat i)) as [p Hp]; [lia|].
    destruct (lookup_lt_is_Some_2 weights (Z.to_nat i)) as [w Hw]; [lia|].
    rewrite (vec_at_lookup positions i p), (vec_at_lookup weights i w) by (lia || done).
    cbn [mbind outcome_bind].
    rewrite (int_add_Ok indiceOffset i), (int_add_Ok i 1) by lia.
    cbn [mbind outcome_bind]. apply IH; lia.
Qed.

(** X16: [convertToNodes], given as many weights as positions, fewer than
    [2^31] of them, and an offset that keeps every index an [int], returns
    one node per position, the [k]-th made from the [k]-th position, the
    [k]-th weight and the index [indiceOffset + k]. *)
Theorem convertToNodes_nodes :
  length positions = length weights →
  Z.of_nat (length positions) < 2 ^ 31 →
  - 2 ^ 31 ≤ indiceOffset → indiceOffset + Z.of_nat (length positions) ≤ 2 ^ 31 →
  ∃ nodes, convertToNodes positions weights indiceOffset = Ok nodes ∧
    length nodes = length positions ∧
    ∀ k p w, positions !! k = Some p → weights !! k = Some w →
      nodes !! k = Some (Node2D p w (indiceOffset + Z.of_nat k)).
Proof.
  intros Hsame Hn Hlo Hhi. unfold convertToNodes.
  rewrite bool_decide_eq_true_2 by done. cbn [cassert mbind outcome_bind].
  destruct (convertToNodes_loop_returns (length positions) 0 []) as [nodes Hloop];
    [lia..|].
  destruct (convertToNodes_loop_Ok _ _ _ _ Hloop eq_refl) as [Hlen Hall]; [done|].
  exists nodes. split; [done|]. split; [done|]. intros k p w Hp Hw.
  destruct (lookup_lt_is_Some_2 nodes k) as [node Hnode].
  { apply lookup_lt_Some in Hp. cbn in Hlen. lia. }
  destruct (Hall k node Hnode) as (p' & w' & Hp' & Hw' & ->). congruence.
Qed.

(** The loop is undefined behaviour when an index it has yet to compute
    is not an [int]. *)
Lemma convertToNodes_loop_overflow (steps : nat) (i : Z) (result : list Node) :
  indiceOffset + i ≤ 2 ^ 31 → 2 ^ 31 < indiceOffset + i + Z.of_nat steps →
  convertToNodes_loop positions weights indiceOffset steps i result = Undefined.
Proof.
  revert i result. induction steps as [|steps IH]; intros i result Hlow Hover; [lia|].
  cbn [convertToNodes_loop]. unfold vec_at.
  destruct (i <? 0); [done|].
  destruct (positions !! Z.to_nat i) as [p|]; [|done].
  destruct (weights !! Z.to_nat i) as [w|]; [|done].
  cbn [mbind outcome_bind].
  destruct (Z.le_gt_cases (2 ^ 31) (indiceOffset + i)).
  { by rewrite (int_add_overflow indiceOffset i). }
  unfold int_add.
  destruct ((- 2 ^ 31 <=? indiceOffset + i) && (indiceOffset + i <? 2 ^ 31)); [|done].
  cbn [mbind outcome_bind].
  destruct ((- 2 ^ 31 <=? i + 1) && (i + 1 <? 2 ^ 31)); [|done].
  cbn [mbind outcome_bind]. apply IH; lia.
Qed.

(** X17: nothing in [convertToNodes] checks the offset.  Given as many
    weights as positions, when [indiceOffset] plus the number of positions
    exceeds [2^31], so that the index [indiceOffset + i] of the last node is
    not an [int], the function is undefined behaviour: it returns nothing
    and fails no assertion. *)
Theorem convertToNodes_index_overflow :
  length positions = length weights →
  indiceOffset < 2 ^ 31 →
  2 ^ 31 < indiceOffset + Z.of_nat (length positions) →
  convertToNodes positions weights indiceOffset = Undefined.
Proof.
  intros Hsame Hint Hover. unfold convertToNodes.
  rewrite bool_decide_eq_true_2 by done. cbn [cassert mbind outcome_bind].
  apply convertToNodes_loop_overflow; lia.
Qed.

End ConvertToNodes.

Section ConvertThenGenerate.
Context {Node Dist double : Type} `{!NodeModel Node Dist} `{!Node2DCtor Node double}.

(** X18: [convertToNodes] with offset 0 and then [generateEdges] in debug
    mode.  When a node made by [Node2D] has the index it was made with,
    every edge of a run on targets that [convertToNodes] returned for the
    offset 0 joins a target, whose index is its rank among the targets,
    with a source, numbered from the number of targets on: the smaller end
    is below the number of targets, the larger end is not. *)
Theorem convertToNodes_generateEdges_debug (num_threads : nat)
    (positions : list (list double)) (weights : list double)
    (c_nodes nc_nodes : list Node) (r : outcome (list edge)) :
  (∀ p w i, index (Node2D p w i) = i) →
  convertToNodes positions weights 0 = Ok nc_nodes →
  nc_nodes ≠ [] →
  Z.of_nat (length nc_nodes) + Z.of_nat (length c_nodes) ≤ 2 ^ 31 →
  generateEdges num_threads c_nodes nc_nodes true r →
  ∃ edges, r = Ok edges ∧
    ∀ e, e ∈ edges →
      0 ≤ e.1 < Z.of_nat (length nc_nodes) ∧
      Z.of_nat (length nc_nodes) ≤ e.2
        < Z.of_nat (length nc_nodes) + Z.of_nat (length c_nodes).
Proof.
  intros Hindex Hconv Hne Hsize Hrun.
  unfold convertToNodes in Hconv. apply bind_Ok_inv in Hconv as (_ & _ & Hloop).
  destruct (convertToNodes_loop_Ok _ _ _ _ _ _ _ Hloop eq_refl) as [_ Hnodes]; [done|].
  destruct (generateEdges_run_origin _ _ _ _ _ Hne Hrun) as (edges & -> & Horigin).
  exists edges. split; [done|]. intros e He.
  destruct (Horigin e He) as (i & cp & p & q & n & s & call & Hi & H1 & H2 & Hcall & ->).
  apply min_element_lookup in H1, H2. cbn [fst snd] in *.
  apply lookup_lt_Some in Hi.
  assert (∀ k t, nc_nodes !! k = Some t → 0 ≤ index t < Z.of_nat (length nc_nodes)) as Hrank.
  { intros k t Hk. destruct (Hnodes k t Hk) as (p' & w' & _ & _ & ->).
    apply lookup_lt_Some in Hk. rewrite Hindex. lia. }
  apply Hrank in H1, H2.
  assert (to_int (Z.of_nat (length nc_nodes) + Z.of_nat i)
          = Z.of_nat (length nc_nodes) + Z.of_nat i) as Hto by (apply to_int_small; lia).
  apply elem_of_cons in Hcall as [-> | Hcall];
    [|apply list_elem_of_singleton in Hcall as ->];
    unfold canonical; cbn [fst snd]; rewrite Hto; lia.
Qed.

End ConvertThenGenerate.

Lemma convertToNodes_nodes_witness :
  ∃ nodes,
    @convertToNodes _ _ line_ctor [[0]; [7]; [30]] [1; 1; 1] 10 = Ok nodes ∧
    length nodes = length [[0]; [7]; [30]] ∧
    ∀ k p w, [[0]; [7]; [30]] !! k = Some p → [1; 1; 1] !! k = Some w →
      nodes !! k = Some (@Node2D _ _ line_ctor p w (10 + Z.of_nat k)).
Proof.
  apply (@convertToNodes_nodes _ _ line_ctor [[0]; [7]; [30]] [1; 1; 1] 10).
  - reflexivity.
  - cbn. lia.
  - lia.
  - cbn. lia.
Defined.

Lemma convertToNodes_index_overflow_witness :
  @convertToNodes _ _ line_ctor [[0]; [7]] [1; 1] 2147483647 = Undefined.
Proof.
  apply (@convertToNodes_index_overflow _ _ line_ctor [[0]; [7]] [1; 1] 2147483647).
  - reflexivity.
  - lia.
  - cbn. lia.
Defined.

Lemma convertToNodes_generateEdges_debug_witness :
  ∃ edges, Ok [(1, 3); (0, 3); (2, 4); (1, 4)] = Ok edges ∧
    ∀ e, e ∈ edges →
      0 ≤ e.1 < Z.of_nat (length [(0, 0); (7, 1); (30, 2)]) ∧
      Z.of_nat (length [(0, 0); (7, 1); (30, 2)]) ≤ e.2
        < Z.of_nat (length [(0, 0); (7, 1); (30, 2)]) + Z.of_nat (length [(5, 0); (20, 1)]).
Proof.
  apply (@convertToNodes_generateEdges_debug _ _ _ line_nodes line_ctor 2
           [[0]; [7]; [30]] [1; 1; 1] [(5, 0); (20, 1)] [(0, 0); (7, 1); (30, 2)]).
  - reflexivity.
  - reflexivity.
  - discriminate.
  - cbn. lia.
  - apply line_run; [lia | reflexivity].
Defined.

(** ** [RadiusLayer]: the queries on a layer of the constructor *)

Lemma vec_at_outside {A} (v : list A) (i : Z) :
  i < 0 ∨ Z.of_nat (length v) ≤ i → vec_at v i = Undefined.
Proof.
  intros Hi. unfold vec_at. destruct (Z.ltb_spec i 0); [done|].
  rewrite lookup_ge_None_2; [done | lia].
Qed.

Section LayerFurther.
Context {Angle Real Point : Type} `{!CellHierarchy Angle} `{!Inhabited Point}.
Variables (targetLevel : Z) (angles : list Angle) (points : list Point).

Lemma RadiusLayer_new_layer_of (r_min r_max : Real) (nodes : list Z)
    (rl : RadiusLayer Real Point) :
  layer_input_ok targetLevel nodes angles points →
  RadiusLayer_new r_min r_max targetLevel nodes angles points = Ok rl →
  layer_of targetLevel nodes angles points rl.
Proof.
  intros Hin Hnew.
  destruct (RadiusLayer_new_layer r_min r_max targetLevel nodes angles points Hin)
    as (rl' & Hnew' & Hlayer).
  rewrite Hnew in Hnew'. by injection Hnew' as <-.
Qed.

(** Every node of a good input lies in a cell of the target level. *)
Lemma nodes_where_all (P : Z → bool) (nodes : list Z) :
  Forall (node_ok targetLevel angles points) nodes →
  (∀ x, 0 ≤ x < numCellsInLevel targetLevel → P x = true) →
  nodes_where targetLevel angles P nodes = nodes.
Proof.
  intros Hok HP. induction Hok as [|node nodes (_ & _ & cell & Hcell & Hrange) _ IH]; [done|].
  rewrite nodes_where_cons, (cell_sat_Some _ _ _ _ _ Hcell), (HP cell Hrange). by rewrite IH.
Qed.

(** [firstPointPointer] points to the first point of the block. *)
Lemma firstPointPointer_start (nodes : list Z) (rl : RadiusLayer Real Point) (cell level : Z) :
  layer_input_ok targetLevel nodes angles points →
  balanced_hierarchy targetLevel →
  layer_of targetLevel nodes angles points rl →
  0 ≤ level ≤ targetLevel →
  firstCellOfLevel level ≤ cell < firstCellOfLevel (level + 1) →
  firstPointPointer rl cell level
  = Ok (Z.of_nat (below targetLevel angles
                    ((cell - firstCellOfLevel level) * numCellsInLevel (targetLevel - level))
                    nodes)).
Proof.
  intros (HK0 & HK & Hsize & Hok) Hbal (HT & Hlenps & Hps & Hlenmp & Hplaced) HL Hc.
  destruct (block_in_level targetLevel cell level Hbal HL Hc)
    as (Hblock & Hfirst & Hlast & Hlocal & HfL & HfT).
  pose proof Hbal as (_ & HfT32 & HT32 & _).
  unfold firstPointPointer. rewrite HT.
  rewrite (u32_small (level + 1)), (u32_small (targetLevel - level)),
    (u32_small (cell - firstCellOfLevel level)) by lia.
  set (block := numCellsInLevel (targetLevel - level)) in *.
  set (first := (cell - firstCellOfLevel level) * block) in *.
  rewrite (u32_small first) by lia.
  rewrite !cassert_true
    by (rewrite ?andb_true_iff, ?Z.leb_le, ?Z.ltb_lt; lia).
  cbn [mbind outcome_bind].
  rewrite (vec_at_lookup (m_prefix_sums rl) first _ ltac:(lia)
             (Hps (Z.to_nat first) ltac:(lia))).
  cbn [mbind outcome_bind]. by rewrite Z2Nat.id by lia.
Qed.

(** [kthPoint] reads the point lookup at the [unsigned] sum of the first
    point of the block and [k]. *)
Lemma kthPoint_reads (nodes : list Z) (rl : RadiusLayer Real Point) (cell level k : Z) :
  layer_input_ok targetLevel nodes angles points →
  balanced_hierarchy targetLevel →
  layer_of targetLevel nodes angles points rl →
  0 ≤ level ≤ targetLevel →
  firstCellOfLevel level ≤ cell < firstCellOfLevel (level + 1) →
  kthPoint rl cell level k
  = vec_at (m_points rl)
      (u32 (Z.of_nat (below targetLevel angles
                        ((cell - firstCellOfLevel level)
                         * numCellsInLevel (targetLevel - level)) nodes) + k)).
Proof.
  intros (HK0 & HK & Hsize & Hok) Hbal (HT & Hlenps & Hps & Hlenmp & Hplaced) HL Hc.
  destruct (block_in_level targetLevel cell level Hbal HL Hc)
    as (Hblock & Hfirst & Hlast & Hlocal & HfL & HfT).
  pose proof Hbal as (_ & HfT32 & HT32 & _).
  unfold kthPoint. rewrite HT.
  rewrite (u32_small (level + 1)), (u32_small (targetLevel - level)),
    (u32_small (cell - firstCellOfLevel level)) by lia.
  set (block := numCellsInLevel (targetLevel - level)) in *.
  set (first := (cell - firstCellOfLevel level) * block) in *.
  rewrite (u32_small first) by lia.
  rewrite !cassert_true
    by (rewrite ?andb_true_iff, ?Z.leb_le, ?Z.ltb_lt; lia).
  cbn [mbind outcome_bind].
  rewrite (vec_at_lookup (m_prefix_sums rl) first _ ltac:(lia)
             (Hps (Z.to_nat first) ltac:(lia))).
  cbn [mbind outcome_bind]. by rewrite Z2Nat.id by lia.
Qed.

(** The points of a range of cells, as they lie in the point lookup: cell
    after cell, each cell in the order of the input. *)
Lemma range_slice_ordered (nodes : list Z) (m_points : list Point) (a : Z) (m : nat) :
  placed_in targetLevel angles points nodes nodes m_points →
  length m_points = length nodes →
  slice (Z.of_nat (below targetLevel angles a nodes))
        (Z.of_nat (below targetLevel angles (a + Z.of_nat m) nodes)) m_points
  = point_of points
      <$> concat ((λ c, nodes_where targetLevel angles (λ x, x =? c) nodes)
                    <$> seqZ a (Z.of_nat m)).
Proof.
  intros Hplaced Hlen. induction m as [|m IH].
  - by rewrite Z.add_0_r, slice_empty.
  - rewrite seqZ_S.
    replace (a + Z.of_nat (S m)) with (a + Z.of_nat m + 1) by lia.
    pose proof (below_mono targetLevel angles a (a + Z.of_nat m) nodes ltac:(lia)).
    pose proof (below_mono targetLevel angles (a + Z.of_nat m) (a + Z.of_nat m + 1) nodes
                  ltac:(lia)).
    rewrite (slice_app _ (Z.of_nat (below targetLevel angles (a + Z.of_nat m) nodes)))
      by lia.
    rewrite IH, (cell_slice targetLevel angles points nodes m_points (a + Z.of_nat m)
                   Hplaced Hlen).
    rewrite fmap_app, concat_app, fmap_app. cbn. by rewrite app_nil_r.
Qed.

(** The counts of the cells of a level add up, cell after cell. *)
Lemma level_counts_sum (nodes : list Z) (level : Z) (m : nat) :
  Forall (node_ok targetLevel angles points) nodes →
  0 ≤ numCellsInLevel (targetLevel - level) →
  foldr Z.add 0
    ((λ c, Z.of_nat (length (nodes_where targetLevel angles
                               (descends targetLevel c level) nodes)))
       <$> seqZ (firstCellOfLevel level) (Z.of_nat m))
  = Z.of_nat (below targetLevel angles
                (Z.of_nat m * numCellsInLevel (targetLevel - level)) nodes).
Proof.
  intros Hok Hblock. induction m as [|m IH].
  - cbn. by rewrite (below_first targetLevel angles points).
  - rewrite seqZ_S, fmap_snoc, foldr_add_snoc, IH.
    set (block := numCellsInLevel (targetLevel - level)) in *.
    rewrite (nodes_where_ext targetLevel angles _
               (in_range (Z.of_nat m * block) (Z.of_nat m * block + block))).
    + replace (Z.of_nat (S m) * block) with (Z.of_nat m * block + block) by lia.
      rewrite (below_range targetLevel angles (Z.of_nat m * block)
                 (Z.of_nat m * block + block)) by lia.
      lia.
    + intros x. unfold descends, in_range. fold block.
      by replace (firstCellOfLevel level + Z.of_nat m - firstCellOfLevel level)
        with (Z.of_nat m) by lia.
Qed.

End LayerFurther.

Section LayerQueriesFurther.
Context {Angle Real Point : Type} `{!CellHierarchy Angle} `{!Inhabited Point}.

(** X19: on a layer of the constructor, [firstPointPointer(c, L)] and
    [pointsInCell(c, L)] delimit a range that lies inside the point lookup,
    and the [k]-th element from the pointer on is [kthPoint(c, L, k)], for
    every [k] from 0 up to the count. *)
Theorem firstPointPointer_range (r_min r_max : Real) (targetLevel : Z)
    (nodes : list Z) (angles : list Angle) (points : list Point)
    (rl : RadiusLayer Real Point) (cell level : Z) :
  layer_input_ok targetLevel nodes angles points →
  balanced_hierarchy targetLevel →
  RadiusLayer_new r_min r_max targetLevel nodes angles points = Ok rl →
  0 ≤ level ≤ targetLevel →
  firstCellOfLevel level ≤ cell < firstCellOfLevel (level + 1) →
  ∃ first count,
    firstPointPointer rl cell level = Ok first ∧
    pointsInCell rl cell level = Ok count ∧
    0 ≤ first ∧ 0 ≤ count ∧ first + count ≤ Z.of_nat (length (m_points rl)) ∧
    ∀ k, 0 ≤ k < count →
      ∃ p, ptr_read rl first k = Ok p ∧ kthPoint rl cell level k = Ok p.
Proof.
  intros Hin Hbal Hnew HL Hc.
  pose proof (RadiusLayer_new_layer_of targetLevel angles points r_min r_max nodes rl
                Hin Hnew) as Hlayer.
  destruct (block_in_level targetLevel cell level Hbal HL Hc)
    as (Hblock & Hfirst & Hlast & _).
  pose proof Hlayer as (_ & _ & _ & Hlenmp & _).
  pose proof Hin as (_ & _ & Hsize & _).
  pose proof int_max_lt_uint_max as Hmax.
  set (block := numCellsInLevel (targetLevel - level)) in *.
  set (first := (cell - firstCellOfLevel level) * block) in *.
  pose proof (below_range targetLevel angles first (first + block) nodes ltac:(lia)) as Hr.
  pose proof (below_le_length targetLevel angles (first + block) nodes) as Hle.
  exists (Z.of_nat (below targetLevel angles first nodes)),
         (Z.of_nat (length (nodes_where targetLevel angles
                              (descends targetLevel cell level) nodes))).
  rewrite (nodes_where_ext targetLevel angles (descends targetLevel cell level)
             (in_range first (first + block))) in * by done.
  split; [by apply (firstPointPointer_start targetLevel angles points nodes)|].
  split.
  { rewrite (pointsInCell_count targetLevel angles points nodes) by done.
    by rewrite (nodes_where_ext targetLevel angles (descends targetLevel cell level)
                  (in_range first (first + block))) by done. }
  split; [lia|]. split; [lia|]. split; [lia|].
  intros k Hk.
  destruct (lookup_lt_is_Some_2 (m_points rl)
              (Z.to_nat (Z.of_nat (below targetLevel angles first nodes) + k)))
    as [p Hp]; [lia|].
  exists p. split.
  - unfold ptr_read. apply vec_at_lookup; [lia | done].
  - rewrite (kthPoint_reads targetLevel angles points nodes) by done.
    fold block. fold first. rewrite u32_small by lia.
    apply vec_at_lookup; [lia | done].
Qed.

(** X20: [kthPoint] does not compare [k] with the count of the cell.  On
    a layer of the constructor, with [first] the offset that
    [firstPointPointer(c, L)] returns, [kthPoint(c, L, k)] is the point at
    [first + k] of the lookup for every [int] [k] for which that is inside
    the lookup, also a negative [k] or one beyond the count, and undefined
    behaviour for every other [k]. *)
Theorem kthPoint_rank_unchecked (r_min r_max : Real) (targetLevel : Z)
    (nodes : list Z) (angles : list Angle) (points : list Point)
    (rl : RadiusLayer Real Point) (cell level k : Z) :
  layer_input_ok targetLevel nodes angles points →
  balanced_hierarchy targetLevel →
  RadiusLayer_new r_min r_max targetLevel nodes angles points = Ok rl →
  0 ≤ level ≤ targetLevel →
  firstCellOfLevel level ≤ cell < firstCellOfLevel (level + 1) →
  - 2 ^ 31 ≤ k < 2 ^ 31 →
  ∃ first,
    firstPointPointer rl cell level = Ok first ∧
    kthPoint rl cell level k
    = if (0 <=? first + k) && (first + k <? Z.of_nat (length (m_points rl)))
      then ptr_read rl first k
      else Undefined.
Proof.
  intros Hin Hbal Hnew HL Hc Hk.
  pose proof (RadiusLayer_new_layer_of targetLevel angles points r_min r_max nodes rl
                Hin Hnew) as Hlayer.
  pose proof Hlayer as (_ & _ & _ & Hlenmp & _).
  pose proof Hin as (_ & _ & Hsize & _).
  pose proof int_max_lt_uint_max as Hmax.
  eexists. split; [by apply (firstPointPointer_start targetLevel angles points nodes)|].
  rewrite (kthPoint_reads targetLevel angles points nodes) by done.
  set (first := Z.of_nat (below targetLevel angles _ nodes)).
  assert (0 ≤ first ≤ Z.of_nat (length nodes)) as Hfirst.
  { subst first. pose proof (below_le_length targetLevel angles
      ((cell - firstCellOfLevel level) * numCellsInLevel (targetLevel - level)) nodes). lia. }
  unfold ptr_read.
  destruct (Z.leb_spec 0 (first + k)); cbn [andb].
  - rewrite u32_small by lia.
    destruct (Z.ltb_spec (first + k) (Z.of_nat (length (m_points rl)))); [done|].
    apply vec_at_outside. lia.
  - apply vec_at_outside. right. unfold u32.
    replace (first + k) with (first + k + 2 ^ 32 + (-1) * 2 ^ 32) by lia.
    rewrite Z.mod_add by lia. rewrite Z.mod_small by lia. lia.
Qed.

(** X21: on a layer of the constructor, [kthPoint(c, L, k)] for [k] from 0
    up to [pointsInCell(c, L)] goes through the cells of the target level
    that descend from [c] in ascending order, and within each through the
    points of its nodes in the order of the input. *)
Theorem kthPoint_cell_order (r_min r_max : Real) (targetLevel : Z)
    (nodes : list Z) (angles : list Angle) (points : list Point)
    (rl : RadiusLayer Real Point) (cell level : Z) :
  layer_input_ok targetLevel nodes angles points →
  balanced_hierarchy targetLevel →
  RadiusLayer_new r_min r_max targetLevel nodes angles points = Ok rl →
  0 ≤ level ≤ targetLevel →
  firstCellOfLevel level ≤ cell < firstCellOfLevel (level + 1) →
  ∃ pts,
    pts = point_of points
            <$> concat ((λ c, nodes_where targetLevel angles (λ x, x =? c) nodes)
                          <$> seqZ ((cell - firstCellOfLevel level)
                                    * numCellsInLevel (targetLevel - level))
                                   (numCellsInLevel (targetLevel - level))) ∧
    pointsInCell rl cell level = Ok (Z.of_nat (length pts)) ∧
    ∀ k p, pts !! k = Some p → kthPoint rl cell level (Z.of_nat k) = Ok p.
Proof.
  intros Hin Hbal Hnew HL Hc.
  pose proof (RadiusLayer_new_layer_of targetLevel angles points r_min r_max nodes rl
                Hin Hnew) as Hlayer.
  destruct (block_in_level targetLevel cell level Hbal HL Hc)
    as (Hblock & Hfirst & Hlast & _).
  pose proof Hlayer as (_ & _ & _ & Hlenmp & Hplaced).
  set (block := numCellsInLevel (targetLevel - level)) in *.
  set (first := (cell - firstCellOfLevel level) * block) in *.
  pose proof (range_slice_ordered targetLevel angles points nodes (m_points rl) first
                (Z.to_nat block) Hplaced Hlenmp) as Hslice.
  rewrite Z2Nat.id in Hslice by lia.
  pose proof (below_range targetLevel angles first (first + block) nodes ltac:(lia)) as Hr.
  pose proof (below_le_length targetLevel angles (first + block) nodes) as Hle.
  exists (slice (Z.of_nat (below targetLevel angles first nodes))
                (Z.of_nat (below targetLevel angles (first + block) nodes)) (m_points rl)).
  split; [exact Hslice|]. split.
  - rewrite (pointsInCell_count targetLevel angles points nodes) by done.
    rewrite (nodes_where_ext targetLevel angles (descends targetLevel cell level)
               (in_range first (first + block))) by done.
    rewrite length_slice by lia. f_equal. lia.
  - intros k p Hk. by apply (kthPoint_lookup targetLevel angles points nodes).
Qed.

(** X22: on a layer of the constructor, the cell of level 0 holds every
    point: [pointsInCell(firstCellOfLevel(0), 0)] is the number of
    nodes. *)
Theorem pointsInCell_root (r_min r_max : Real) (targetLevel : Z)
    (nodes : list Z) (angles : list Angle) (points : list Point)
    (rl : RadiusLayer Real Point) :
  layer_input_ok targetLevel nodes angles points →
  balanced_hierarchy targetLevel →
  0 ≤ targetLevel →
  RadiusLayer_new r_min r_max targetLevel nodes angles points = Ok rl →
  pointsInCell rl (firstCellOfLevel 0) 0 = Ok (Z.of_nat (length nodes)).
Proof.
  intros Hin Hbal HT Hnew.
  pose proof (RadiusLayer_new_layer_of targetLevel angles points r_min r_max nodes rl
                Hin Hnew) as Hlayer.
  pose proof Hbal as (_ & _ & _ & Hlevels).
  destruct (Hlevels 0 ltac:(lia)) as (Hcells & _ & Hnext).
  rewrite (pointsInCell_count targetLevel angles points nodes) by (done || lia).
  rewrite nodes_where_all with (points := points); [done | by destruct Hin as (_ & _ & _ & ?) |].
  intros x Hx. unfold descends. rewrite Z.sub_diag, Z.sub_0_r. lia.
Qed.

(** X23: on a layer of the constructor, the counts [pointsInCell(c, L)] of
    the cells [c] of a level [L] up to the target level add up to the
    number of nodes. *)
Theorem pointsInCell_level_total (r_min r_max : Real) (targetLevel : Z)
    (nodes : list Z) (angles : list Angle) (points : list Point)
    (rl : RadiusLayer Real Point) (level : Z) :
  layer_input_ok targetLevel nodes angles points →
  balanced_hierarchy targetLevel →
  RadiusLayer_new r_min r_max targetLevel nodes angles points = Ok rl →
  0 ≤ level ≤ targetLevel →
  ∃ counts,
    Forall2 (λ c count, pointsInCell rl c level = Ok count)
            (seqZ (firstCellOfLevel level) (numCellsInLevel level)) counts ∧
    foldr Z.add 0 counts = Z.of_nat (length nodes).
Proof.
  intros Hin Hbal Hnew HL.
  pose proof (RadiusLayer_new_layer_of targetLevel angles points r_min r_max nodes rl
                Hin Hnew) as Hlayer.
  pose proof Hbal as (_ & _ & _ & Hlevels).
  destruct (Hlevels level HL) as (Hcells & Hmul & Hnext).
  destruct (Hlevels (targetLevel - level) ltac:(lia)) as (Hblock & _ & _).
  pose proof Hin as (_ & _ & _ & Hok).
  exists ((λ c, Z.of_nat (length (nodes_where targetLevel angles
                                    (descends targetLevel c level) nodes)))
            <$> seqZ (firstCellOfLevel level) (numCellsInLevel level)).
  split.
  - apply Forall2_fmap_r, Forall_Forall2_diag, Forall_forall. intros c Hcell.
    apply elem_of_seqZ in Hcell. cbn.
    apply (pointsInCell_count targetLevel angles points nodes); (done || lia).
  - rewrite <- (Z2Nat.id (numCellsInLevel level)) at 1 by lia.
    rewrite (level_counts_sum targetLevel angles points) by (done || lia).
    rewrite Z2Nat.id, Hmul by lia.
    by rewrite (below_last targetLevel angles points) by (done || lia).
Qed.

End LayerQueriesFurther.

(** ** [RadiusLayer]: what the constructor keeps and what it rejects *)

Section LayerConstructorFurther.
Context {Angle Real Point : Type} `{!CellHierarchy Angle} `{!Inhabited Point}.

Lemma count_points_app (targetLevel cellsInLevel : Z) (angles : list Angle)
    (l1 l2 : list Z) (ps : list Z) :
  count_points targetLevel cellsInLevel angles (l1 ++ l2) ps
  = count_points targetLevel cellsInLevel angles l1 ps
      ≫= count_points targetLevel cellsInLevel angles l2.
Proof.
  revert ps. induction l1 as [|node l1 IH]; intros ps; [done|].
  cbn [app count_points].
  destruct (vec_at angles node) as [angle| | |]; [|done..]. cbn [mbind outcome_bind].
  destruct (cassert _) as [[]| | |]; [|done..]. cbn [mbind outcome_bind].
  destruct (vec_at ps _) as [count| | |]; [|done..]. cbn [mbind outcome_bind].
  destruct (vec_set ps _ _) as [ps'| | |]; [|done..]. cbn [mbind outcome_bind].
  apply IH.
Qed.

(** The counting loop gets through nodes that can be placed, whatever the
    counters hold. *)
Lemma count_points_passes (targetLevel : Z) (angles : list Angle) (points : list Point)
    (nodes : list Z) (ps : list Z) :
  Forall (node_ok targetLevel angles points) nodes →
  (Z.to_nat (numCellsInLevel targetLevel) ≤ length ps)%nat →
  ∃ ps', count_points targetLevel (numCellsInLevel targetLevel) angles nodes ps = Ok ps' ∧
         length ps' = length ps.
Proof.
  intros Hok. revert ps.
  induction Hok as [|node nodes (Hn0 & _ & cell & Hcell & Hrange) Hok IH]; intros ps Hlen.
  - by exists ps.
  - destruct (finest_cell_vec_at _ _ _ _ Hcell) as (angle & Hangle & Hcfp).
    cbn [count_points]. rewrite Hangle. cbn [mbind outcome_bind]. rewrite Hcfp.
    assert ((cell <? numCellsInLevel targetLevel) = true) as -> by lia.
    cbn [cassert mbind outcome_bind].
    destruct (lookup_lt_is_Some_2 ps (Z.to_nat cell)) as [count Hcount]; [lia|].
    rewrite (vec_at_lookup ps cell count) by (lia || done). cbn [mbind outcome_bind].
    pose proof (lookup_lt_Some _ _ _ Hcount) as Hcell_lt.
    rewrite vec_set_Ok by lia. cbn [mbind outcome_bind].
    destruct (IH (<[Z.to_nat cell := u32 (count + 1)]> ps)) as (ps' & Hps' & Hlen').
    + by rewrite length_insert.
    + exists ps'. split; [done|]. by rewrite Hlen', length_insert.
Qed.

(** X24: after nodes that can be placed, a node without an angle (its
    number is negative or not below the number of angles) makes the
    construction undefined behaviour: [angles[node]] is read without a
    check. *)
Theorem RadiusLayer_new_node_without_angle (r_min r_max : Real) (targetLevel : Z)
    (good rest : list Z) (bad : Z) (angles : list Angle) (points : list Point) :
  0 ≤ numCellsInLevel targetLevel → numCellsInLevel targetLevel + 1 < 2 ^ 32 →
  Forall (node_ok targetLevel angles points) good →
  bad < 0 ∨ Z.of_nat (length angles) ≤ bad →
  RadiusLayer_new r_min r_max targetLevel (good ++ bad :: rest) angles points = Undefined.
Proof.
  intros HK0 HK Hgood Hbad.
  destruct (count_points_passes targetLevel angles points good
              (replicate (Z.to_nat (u32 (numCellsInLevel targetLevel + 1))) 0) Hgood)
    as (ps & Hps & _).
  { rewrite length_replicate, u32_small by lia. lia. }
  unfold RadiusLayer_new. rewrite count_points_app, Hps. cbn [mbind outcome_bind count_points].
  by rewrite (vec_at_outside angles bad Hbad).
Qed.

(** X25: after nodes that can be placed, a node whose cell is not below
    [numCellsInLevel(targetLevel)] fails the assertion of the counting
    loop. *)
Theorem RadiusLayer_new_cell_out_of_level (r_min r_max : Real) (targetLevel : Z)
    (good rest : list Z) (bad : Z) (angle : Angle) (angles : list Angle)
    (points : list Point) :
  0 ≤ numCellsInLevel targetLevel → numCellsInLevel targetLevel + 1 < 2 ^ 32 →
  Forall (node_ok targetLevel angles points) good →
  vec_at angles bad = Ok angle →
  numCellsInLevel targetLevel ≤ cellForPoint angle targetLevel →
  RadiusLayer_new r_min r_max targetLevel (good ++ bad :: rest) angles points = AssertFail.
Proof.
  intros HK0 HK Hgood Hangle Hcell.
  destruct (count_points_passes targetLevel angles points good
              (replicate (Z.to_nat (u32 (numCellsInLevel targetLevel + 1))) 0) Hgood)
    as (ps & Hps & _).
  { rewrite length_replicate, u32_small by lia. lia. }
  unfold RadiusLayer_new. rewrite count_points_app, Hps. cbn [mbind outcome_bind count_points].
  rewrite Hangle. cbn [mbind outcome_bind].
  destruct (Z.ltb_spec (cellForPoint angle targetLevel) (numCellsInLevel targetLevel));
    [lia | done].
Qed.

(** The point lookup of a layer is a rearrangement of the points of the
    nodes. *)
Lemma layer_points_perm (targetLevel : Z) (nodes : list Z) (angles : list Angle)
    (points : list Point) (rl : RadiusLayer Real Point) :
  0 ≤ numCellsInLevel targetLevel →
  Forall (node_ok targetLevel angles points) nodes →
  layer_of targetLevel nodes angles points rl →
  m_points rl ≡ₚ point_of points <$> nodes.
Proof.
  intros HK0 Hok (_ & _ & _ & Hlenmp & Hplaced).
  pose proof (range_slice targetLevel angles points nodes (m_points rl) 0
                (Z.to_nat (numCellsInLevel targetLevel)) Hplaced Hlenmp) as Hslice.
  rewrite Z.add_0_l, Z2Nat.id in Hslice by lia.
  rewrite (below_first targetLevel angles points nodes Hok) in Hslice.
  rewrite (below_last targetLevel angles points _ nodes Hok) in Hslice by lia.
  rewrite (nodes_where_all targetLevel angles points) in Hslice;
    [|done | intros x Hx; unfold in_range; lia].
  rewrite <- Hslice. unfold slice. rewrite Z.sub_0_r, Nat2Z.id. cbn [Z.to_nat drop].
  by rewrite <- Hlenmp, firstn_all.
Qed.

(** X26: the constructor loses no point and invents none: the point
    lookup of the layer holds the points of the nodes, each as often as
    its node is in the input. *)
Theorem RadiusLayer_new_keeps_points (r_min r_max : Real) (targetLevel : Z)
    (nodes : list Z) (angles : list Angle) (points : list Point) :
  layer_input_ok targetLevel nodes angles points →
  ∃ rl, RadiusLayer_new r_min r_max targetLevel nodes angles points = Ok rl ∧
        m_points rl ≡ₚ point_of points <$> nodes.
Proof.
  intros Hin.
  destruct (RadiusLayer_new_layer r_min r_max targetLevel nodes angles points Hin)
    as (rl & Hnew & Hlayer).
  destruct Hin as (HK0 & _ & _ & Hok).
  exists rl. split; [done|]. by apply (layer_points_perm targetLevel nodes angles points rl).
Qed.

(** X27: the counts of a layer do not depend on the order of the nodes.
    The constructor, given the same nodes in another order, returns a layer
    with the same prefix sums, so that [pointsInCell] answers every query
    alike, and with the same points in the lookup. *)
Theorem RadiusLayer_new_order_of_nodes (r_min r_max : Real) (targetLevel : Z)
    (nodes nodes' : list Z) (angles : list Angle) (points : list Point) :
  layer_input_ok targetLevel nodes angles points →
  nodes ≡ₚ nodes' →
  ∃ rl rl',
    RadiusLayer_new r_min r_max targetLevel nodes angles points = Ok rl ∧
    RadiusLayer_new r_min r_max targetLevel nodes' angles points = Ok rl' ∧
    m_prefix_sums rl = m_prefix_sums rl' ∧
    (∀ cell level, pointsInCell rl cell level = pointsInCell rl' cell level) ∧
    m_points rl ≡ₚ m_points rl'.
Proof.
  intros Hin Hperm.
  assert (layer_input_ok targetLevel nodes' angles points) as Hin'.
  { destruct Hin as (HK0 & HK & Hsize & Hok). split; [done|]. split; [done|].
    split; by rewrite <- Hperm. }
  destruct (RadiusLayer_new_layer r_min r_max targetLevel nodes angles points Hin)
    as (rl & Hnew & Hlayer).
  destruct (RadiusLayer_new_layer r_min r_max targetLevel nodes' angles points Hin')
    as (rl' & Hnew' & Hlayer').
  destruct Hin as (HK0 & _ & _ & Hok). destruct Hin' as (_ & _ & _ & Hok').
  pose proof Hlayer as (HT & Hlenps & Hps & _).
  pose proof Hlayer' as (HT' & Hlenps' & Hps' & _).
  assert (m_prefix_sums rl = m_prefix_sums rl') as Hsums.
  { apply list_eq. intros i.
    destruct (decide (i ≤ Z.to_nat (numCellsInLevel targetLevel))%nat) as [Hi|Hi].
    - rewrite Hps, Hps' by done. do 2 f_equal. unfold below, nodes_where.
      by rewrite Hperm.
    - rewrite !lookup_ge_None_2; [done | lia | lia]. }
  exists rl, rl'. split; [done|]. split; [done|]. split; [done|]. split.
  - intros cell level. unfold pointsInCell. by rewrite Hsums, HT, HT'.
  - rewrite (layer_points_perm targetLevel nodes angles points rl) by done.
    rewrite (layer_points_perm targetLevel nodes' angles points rl') by done.
    by rewrite Hperm.
Qed.

End LayerConstructorFurther.

(** *** The layer over the binary hierarchy, again *)

Lemma firstPointPointer_range_witness :
  ∃ first count,
    firstPointPointer (CellHierarchy0 := binary_hierarchy)
      (MkRadiusLayer () () 2 [0; 2; 3; 4; 4] [13; 12; 10; 11]) 2 1 = Ok first ∧
    pointsInCell (CellHierarchy0 := binary_hierarchy)
      (MkRadiusLayer () () 2 [0; 2; 3; 4; 4] [13; 12; 10; 11]) 2 1 = Ok count ∧
    0 ≤ first ∧ 0 ≤ count ∧
    first + count
      ≤ Z.of_nat (length (m_points (MkRadiusLayer () () 2 [0; 2; 3; 4; 4] [13; 12; 10; 11]))) ∧
    ∀ k, 0 ≤ k < count →
      ∃ p, ptr_read (MkRadiusLayer () () 2 [0; 2; 3; 4; 4] [13; 12; 10; 11]) first k = Ok p ∧
           kthPoint (CellHierarchy0 := binary_hierarchy)
             (MkRadiusLayer () () 2 [0; 2; 3; 4; 4] [13; 12; 10; 11]) 2 1 k = Ok p.
Proof.
  apply (firstPointPointer_range (CellHierarchy0 := binary_hierarchy)
           () () 2 [3; 0; 2; 1] [100; 200; 10; 20] [10; 11; 12; 13]).
  - apply binary_input_ok.
  - apply binary_balanced.
  - reflexivity.
  - lia.
  - cbn. lia.
Defined.

Lemma kthPoint_rank_unchecked_witness :
  ∃ first,
    firstPointPointer (CellHierarchy0 := binary_hierarchy)
      (MkRadiusLayer () () 2 [0; 2; 3; 4; 4] [13; 12; 10; 11]) 1 1 = Ok first ∧
    kthPoint (CellHierarchy0 := binary_hierarchy)
      (MkRadiusLayer () () 2 [0; 2; 3; 4; 4] [13; 12; 10; 11]) 1 1 3
    = if (0 <=? first + 3)
         && (first + 3 <? Z.of_nat (length (m_points
               (MkRadiusLayer () () 2 [0; 2; 3; 4; 4] [13; 12; 10; 11]))))
      then ptr_read (MkRadiusLayer () () 2 [0; 2; 3; 4; 4] [13; 12; 10; 11]) first 3
      else Undefined.
Proof.
  apply (kthPoint_rank_unchecked (CellHierarchy0 := binary_hierarchy)
           () () 2 [3; 0; 2; 1] [100; 200; 10; 20] [10; 11; 12; 13]).
  - apply binary_input_ok.
  - apply binary_balanced.
  - reflexivity.
  - lia.
  - cbn. lia.
  - lia.
Defined.

Lemma kthPoint_cell_order_witness :
  ∃ pts,
    pts = point_of [10; 11; 12; 13]
            <$> concat ((λ c, nodes_where (CellHierarchy0 := binary_hierarchy) 2
                                [100; 200; 10; 20] (λ x, x =? c) [3; 0; 2; 1])
                          <$> seqZ ((1 - 1) * 2 ^ (2 - 1)) (2 ^ (2 - 1))) ∧
    pointsInCell (CellHierarchy0 := binary_hierarchy)
      (MkRadiusLayer () () 2 [0; 2; 3; 4; 4] [13; 12; 10; 11]) 1 1
      = Ok (Z.of_nat (length pts)) ∧
    ∀ k p, pts !! k = Some p →
      kthPoint (CellHierarchy0 := binary_hierarchy)
        (MkRadiusLayer () () 2 [0; 2; 3; 4; 4] [13; 12; 10; 11]) 1 1 (Z.of_nat k) = Ok p.
Proof.
  apply (kthPoint_cell_order (CellHierarchy0 := binary_hierarchy)
           () () 2 [3; 0; 2; 1] [100; 200; 10; 20] [10; 11; 12; 13]
           (MkRadiusLayer () () 2 [0; 2; 3; 4; 4] [13; 12; 10; 11]) 1 1).
  - apply binary_input_ok.
  - apply binary_balanced.
  - reflexivity.
  - lia.
  - cbn. lia.
Defined.

Lemma pointsInCell_root_witness :
  pointsInCell (CellHierarchy0 := binary_hierarchy)
    (MkRadiusLayer () () 2 [0; 2; 3; 4; 4] [13; 12; 10; 11]) (2 ^ 0 - 1) 0
  = Ok (Z.of_nat (length [3; 0; 2; 1])).
Proof.
  apply (pointsInCell_root (CellHierarchy0 := binary_hierarchy)
           () () 2 [3; 0; 2; 1] [100; 200; 10; 20] [10; 11; 12; 13]).
  - apply binary_input_ok.
  - apply binary_balanced.
  - lia.
  - reflexivity.
Defined.

Lemma pointsInCell_level_total_witness :
  ∃ counts,
    Forall2 (λ c count,
               pointsInCell (CellHierarchy0 := binary_hierarchy)
                 (MkRadiusLayer () () 2 [0; 2; 3; 4; 4] [13; 12; 10; 11]) c 1 = Ok count)
            (seqZ (2 ^ 1 - 1) (2 ^ 1)) counts ∧
    foldr Z.add 0 counts = Z.of_nat (length [3; 0; 2; 1]).
Proof.
  apply (pointsInCell_level_total (CellHierarchy0 := binary_hierarchy)
           () () 2 [3; 0; 2; 1] [100; 200; 10; 20] [10; 11; 12; 13]).
  - apply binary_input_ok.
  - apply binary_balanced.
  - reflexivity.
  - lia.
Defined.

Lemma RadiusLayer_new_node_without_angle_witness :
  RadiusLayer_new (CellHierarchy0 := binary_hierarchy) () () 2
    ([0; 2] ++ 7 :: [1]) [100; 200; 10; 20] [10; 11; 12; 13] = Undefined.
Proof.
  apply (RadiusLayer_new_node_without_angle (CellHierarchy0 := binary_hierarchy)
           () () 2 [0; 2] [1] 7 [100; 200; 10; 20] [10; 11; 12; 13]).
  - cbn. lia.
  - cbn. lia.
  - repeat (constructor;
            [split; [lia | split; [by eexists | eexists; split; [reflexivity | by vm_compute]]] |]).
    constructor.
  - right. cbn. lia.
Defined.

Lemma RadiusLayer_new_cell_out_of_level_witness :
  RadiusLayer_new (CellHierarchy0 := binary_hierarchy) () () 2
    ([0; 2] ++ 3 :: [1]) [100; 200; 10; 400] [10; 11; 12; 13] = AssertFail.
Proof.
  apply (RadiusLayer_new_cell_out_of_level (CellHierarchy0 := binary_hierarchy)
           () () 2 [0; 2] [1] 3 400 [100; 200; 10; 400] [10; 11; 12; 13]).
  - cbn. lia.
  - cbn. lia.
  - repeat (constructor;
            [split; [lia | split; [by eexists | eexists; split; [reflexivity | by vm_compute]]] |]).
    constructor.
  - reflexivity.
  - by vm_compute.
Defined.

Lemma RadiusLayer_new_keeps_points_witness :
  ∃ rl,
    RadiusLayer_new (CellHierarchy0 := binary_hierarchy) () () 2
      [3; 0; 2; 1] [100; 200; 10; 20] [10; 11; 12; 13] = Ok rl ∧
    m_points rl ≡ₚ point_of [10; 11; 12; 13] <$> [3; 0; 2; 1].
Proof.
  apply (RadiusLayer_new_keeps_points (CellHierarchy0 := binary_hierarchy)
           () () 2 [3; 0; 2; 1] [100; 200; 10; 20] [10; 11; 12; 13]).
  apply binary_input_ok.
Defined.

Lemma RadiusLayer_new_order_of_nodes_witness :
  ∃ rl rl',
    RadiusLayer_new (CellHierarchy0 := binary_hierarchy) () () 2
      [3; 0; 2; 1] [100; 200; 10; 20] [10; 11; 12; 13] = Ok rl ∧
    RadiusLayer_new (CellHierarchy0 := binary_hierarchy) () () 2
      [0; 1; 2; 3] [100; 200; 10; 20] [10; 11; 12; 13] = Ok rl' ∧
    m_prefix_sums rl = m_prefix_sums rl' ∧
    (∀ cell level,
       pointsInCell (CellHierarchy0 := binary_hierarchy) rl cell level
       = pointsInCell (CellHierarchy0 := binary_hierarchy) rl' cell level) ∧
    m_points rl ≡ₚ m_points rl'.
Proof.
  apply (RadiusLayer_new_order_of_nodes (CellHierarchy0 := binary_hierarchy)
           () () 2 [3; 0; 2; 1] [0; 1; 2; 3] [100; 200; 10; 20] [10; 11; 12; 13]).
  - apply binary_input_ok.
  - solve_Permutation.
Defined.

(** ** [generateEdges]: buffers, blocks and the order of the edges *)

Lemma addEdge_block (u v : Z) (res loc : list edge) :
  (block_size | Z.of_nat (length res)) → Z.of_nat (length loc) < block_size →
  (block_size | Z.of_nat (length (addEdge u v (res, loc)).1)) ∧
  Z.of_nat (length (addEdge u v (res, loc)).2) < block_size.
Proof.
  intros Hres Hloc. unfold addEdge.
  destruct (if v <? u then (v, u) else (u, v)) as [u' v'].
  destruct (Z.eqb_spec (Z.of_nat (length (loc ++ [(u', v')]))) block_size) as [Hfull|Hroom];
    cbn [fst snd].
  - split; [|done]. rewrite length_app, Nat2Z.inj_add, Hfull.
    apply Z.divide_add_r; [done | apply Z.divide_refl].
  - split; [done|]. rewrite length_app in *. cbn [length] in *. lia.
Qed.

Lemma worker_step_block (tid : nat) (st st' : par_state) :
  worker_step tid st = Some st' →
  (block_size | Z.of_nat (length (result st))) ∧
    Forall (λ w, Z.of_nat (length (local w)) < block_size) (workers st) →
  (block_size | Z.of_nat (length (result st'))) ∧
    Forall (λ w, Z.of_nat (length (local w)) < block_size) (workers st').
Proof.
  unfold worker_step. destruct st as [res ws]. cbn [workers result].
  destruct (ws !! tid) as [[loc calls]|] eqn:Hw; [|done]. cbn -[addEdge].
  destruct calls as [|[u v] rest]; [done|].
  intros Hstep [Hres Hlocs].
  pose proof (Forall_lookup_1 _ _ _ _ Hlocs Hw) as Hloc. cbn [local] in Hloc.
  destruct (addEdge_block u v res loc Hres Hloc) as [Hres' Hloc'].
  destruct (addEdge u v (res, loc)) as [res' loc']. cbn [fst snd] in *.
  injection Hstep as <-. cbn [workers result]. split; [done|].
  by apply Forall_insert.
Qed.

Lemma worker_step_single (tid : nat) (res res' : list edge) (w : worker)
    (ws' : list worker) :
  worker_step tid (ParState res [w]) = Some (ParState res' ws') →
  ∃ w', ws' = [w'] ∧
    res' ++ local w' ++ (canonical <$> todo w') = res ++ local w ++ (canonical <$> todo w).
Proof.
  unfold worker_step. cbn [workers result].
  destruct tid as [|tid]; [|by rewrite lookup_cons, lookup_nil].
  destruct w as [loc calls]. cbn -[addEdge].
  destruct calls as [|[u v] rest]; [done|].
  pose proof (addEdge_stores u v res loc) as Hst.
  destruct (addEdge u v (res, loc)) as [res1 loc1]. cbn [fst snd] in Hst.
  intros [= <- <-]. eexists. split; [done|]. cbn [local todo].
  rewrite fmap_cons, app_assoc, Hst, <- !app_assoc. done.
Qed.

Lemma single_worker_run (st st' : par_state) (w : worker) :
  rtc par_step st st' → workers st = [w] →
  ∃ w', workers st' = [w'] ∧
    result st' ++ local w' ++ (canonical <$> todo w')
    = result st ++ local w ++ (canonical <$> todo w).
Proof.
  intros Hrun. revert w.
  induction Hrun as [st|st1 st2 st3 [tid Hstep] _ IH]; intros w Hw.
  - by exists w.
  - destruct st1 as [res1 ws1], st2 as [res2 ws2]. cbn [workers result] in *. subst ws1.
    destruct (worker_step_single _ _ _ _ _ Hstep) as (w2 & -> & Heq).
    destruct (IH w2 eq_refl) as (w' & Hw' & Heq').
    exists w'. split; [done|]. by rewrite Heq', Heq.
Qed.

Lemma std_sort_of_perm (edges edges' : list edge) :
  edges ≡ₚ edges' → std_sort edges = std_sort edges'.
Proof.
  intros Hp. apply std_sort_unique; [|apply std_sort_sorted]. by rewrite std_sort_perm.
Qed.

(** X28: in the parallel loop of [generateEdges] only full blocks are
    flushed: in every state the threads can reach from empty buffers, the
    shared result holds a multiple of [block_size] edges and every buffer
    fewer than [block_size]. *)
Theorem addEdge_flushes_full_blocks (ws : list worker) (st : par_state) :
  Forall (λ w, local w = []) ws →
  rtc par_step (ParState [] ws) st →
  (block_size | Z.of_nat (length (result st))) ∧
  Forall (λ w, Z.of_nat (length (local w)) < block_size) (workers st).
Proof.
  intros Hinit Hrun.
  assert ((block_size | Z.of_nat (length (result (ParState [] ws)))) ∧
          Forall (λ w, Z.of_nat (length (local w)) < block_size)
                 (workers (ParState [] ws))) as Hstart.
  { cbn [result workers length]. split; [apply Z.divide_0_r|].
    eapply Forall_impl; [exact Hinit|]. cbn beta. intros w ->. done. }
  revert Hrun Hstart. generalize (ParState [] ws). intros st0 Hrun.
  induction Hrun as [st|st1 st2 st3 [tid Hstep] _ IH]; intros Hstart; [done|].
  apply IH. by eapply worker_step_block.
Qed.

Section GenerateEdgesOrder.
Context {Node Dist : Type} `{!NodeModel Node Dist}.

(** X29: with one thread, [generateEdges] returns the edges in the order
    in which the loop over the sources makes them: source after source, and
    in debug mode the edge to the nearest target before the edge to the
    second nearest; the flushes of full blocks do not disturb the
    order. *)
Theorem generateEdges_one_thread_order (c_nodes nc_nodes : list Node) (debugMode : bool)
    (calls : list (Z * Z)) (r : outcome (list edge)) :
  chunk_calls c_nodes nc_nodes debugMode (seq 0 (length c_nodes)) = Ok calls →
  generateEdges 1 c_nodes nc_nodes debugMode r →
  r = Ok (canonical <$> calls).
Proof.
  intros Hcalls Hrun.
  inversion Hrun as [chunks ws st Hlen Hsplit Hws Hsteps Hdone |
                     chunks chunk Hlen Hsplit Hin Hundef]; subst.
  - destruct chunks as [|chunk [|? ?]]; try done.
    cbn in Hsplit. rewrite app_nil_r in Hsplit. subst chunk.
    apply Forall2_cons_inv_l in Hws as (w & ws' & [Hw Hloc] & Hws' & ->).
    apply Forall2_nil_inv_l in Hws' as ->.
    rewrite Hcalls in Hw. injection Hw as Hw.
    destruct (single_worker_run _ _ w Hsteps eq_refl) as (w' & Hw' & Heq).
    cbn [result] in Heq. rewrite Hloc, <- Hw in Heq. cbn [app] in Heq.
    f_equal. unfold final_flush. rewrite Hw' in *. cbn.
    apply Forall_inv in Hdone. rewrite Hdone in Heq. cbn in Heq.
    by rewrite !app_nil_r in *.
  - destruct chunks as [|chunk' [|? ?]]; try done.
    cbn in Hsplit. rewrite app_nil_r in Hsplit. subst chunk'.
    apply list_elem_of_singleton in Hin as ->. congruence.
Qed.

(** X30: [generateEdges] and then [deduplicateEdges]: the triples do not
    depend on the run.  Whatever the numbers of threads, the split of the
    sources and the interleaving, [deduplicateEdges] returns the same on
    the edges of two runs on the same nodes. *)
Theorem generateEdges_deduplicateEdges_any_run (threads1 threads2 : nat)
    (c_nodes nc_nodes : list Node) (debugMode : bool) (edges1 edges2 : list edge) :
  generateEdges threads1 c_nodes nc_nodes debugMode (Ok edges1) →
  generateEdges threads2 c_nodes nc_nodes debugMode (Ok edges2) →
  deduplicateEdges edges1 = deduplicateEdges edges2.
Proof.
  intros Hrun1 Hrun2.
  assert (edges1 ≡ₚ edges2) as Hperm.
  { destruct (chunk_calls c_nodes nc_nodes debugMode (seq 0 (length c_nodes)))
      as [calls| | |] eqn:Hcalls.
    - destruct (generateEdges_run_calls _ _ _ _ _ _ Hcalls Hrun1) as (e1 & [= <-] & Hp1).
      destruct (generateEdges_run_calls _ _ _ _ _ _ Hcalls Hrun2) as (e2 & [= <-] & Hp2).
      by rewrite Hp1, Hp2.
    - apply generateEdges_not_defined in Hrun1; [done | intros calls; congruence].
    - apply generateEdges_not_defined in Hrun1; [done | intros calls; congruence].
    - apply generateEdges_not_defined in Hrun1; [done | intros calls; congruence]. }
  unfold deduplicateEdges. by rewrite (std_sort_of_perm _ _ Hperm).
Qed.

End GenerateEdgesOrder.

Lemma addEdge_flushes_full_blocks_witness :
  (block_size | Z.of_nat (length (result (ParState [] [Worker [] []; Worker [(1, 2)] []])))) ∧
  Forall (λ w, Z.of_nat (length (local w)) < block_size)
         (workers (ParState [] [Worker [] []; Worker [(1, 2)] []])).
Proof.
  apply (addEdge_flushes_full_blocks [Worker [] []; Worker [] [(2, 1)]]).
  - repeat constructor.
  - eapply rtc_l; [|apply rtc_refl]. exists 1%nat. reflexivity.
Defined.

Lemma generateEdges_one_thread_order_witness :
  Ok [(1, 3); (0, 3); (2, 4); (1, 4)]
  = Ok (canonical <$> [(1, 3); (0, 3); (2, 4); (1, 4)]).
Proof.
  apply (@generateEdges_one_thread_order _ _ line_nodes
           [(5, 0); (20, 1)] [(0, 0); (7, 1); (30, 2)] true).
  - reflexivity.
  - apply line_run; [lia | reflexivity].
Defined.

Lemma generateEdges_deduplicateEdges_any_run_witness :
  deduplicateEdges [(0, 1); (1, 2)] = deduplicateEdges [(0, 1); (1, 2)].
Proof.
  apply (@generateEdges_deduplicateEdges_any_run _ _ line_nodes 1 3
           [(5, 0); (20, 1)] [(0, 0); (7, 1); (30, 2)] false).
  - apply line_run; [lia | reflexivity].
  - apply line_run; [lia | reflexivity].
Defined.
